(** * Battleship: ships, fleet generation and the automatic player

    A shallow embedding of [battleship/ship.py] and [battleship/player.py].
    Python integers are [Z], cells are pairs of integers, Python sets are
    [gset], tuples and lists are [list].  Code that can raise returns an
    [outcome]; code that draws random numbers reads them from a tape.
    An exception ends the run: no caller in these files catches one, so
    the state an object is left in when a method raises is not kept. *)

From Stdlib Require Import ZArith List Lia Bool.
From stdpp Require Import base gmap sets list.

Set Warnings "-clear-no-such-hyp".
Open Scope Z_scope.

(** ** Python values and effects *)

Abbreviation cell := (Z * Z)%type.

(** The exceptions the modelled code can raise.  [RecursionError] is what
    the interpreter raises when a call would nest deeper than its
    recursion limit; the two recursive methods, [generate_ships] and
    [get_all_cells], take the number of nested calls that are still
    allowed as a parameter. *)
Inductive exn := ValueError | KeyError | IndexError | TypeError | RecursionError.

(** Result of running a piece of code: a value, an exception, or a
    [while] loop that is still running when the budget of rounds given to
    the model is used up. *)
Inductive outcome (A : Type) :=
| Ok (a : A)
| Raise (e : exn)
| OutOfFuel.
Arguments Ok {A} a.
Arguments Raise {A} e.
Arguments OutOfFuel {A}.

Definition obind {A B} (m : outcome A) (k : A → outcome B) : outcome B :=
  match m with
  | Ok a => k a
  | Raise e => Raise e
  | OutOfFuel => OutOfFuel
  end.

(** A board extent: an integer, or [float("inf")], the default of
    [Ship.__init__]. *)
Inductive extent := Finite (n : Z) | Infinity.

(** [x <= e] as Python compares an int with an int or with [inf]. *)
Definition le_extent (x : Z) (e : extent) : bool :=
  match e with
  | Finite n => x <=? n
  | Infinity => true
  end.

(** [range(n)] *)
Definition range (n : Z) : list Z := seqZ 0 n.

(** Keeps the entries of a tuple that were appended. *)
Definition appended (l : list (option cell)) : list cell := omap id l.

(** Coordinates differ by at most one along each axis. *)
Definition within_one_step (c d : cell) : Prop :=
  Z.abs (c.1 - d.1) ≤ 1 ∧ Z.abs (c.2 - d.2) ≤ 1.

(** 8-directional adjacency of distinct cells. *)
Definition adjacent (c d : cell) : Prop := c ≠ d ∧ within_one_step c d.

(** 4-directional adjacency. *)
Definition adjacent4 (c d : cell) : Prop :=
  (c.2 = d.2 ∧ Z.abs (c.1 - d.1) = 1) ∨ (c.1 = d.1 ∧ Z.abs (c.2 - d.2) = 1).

Definition inside (width height : extent) (c : cell) : Prop :=
  1 ≤ c.1 ∧ le_extent c.1 width = true ∧ 1 ≤ c.2 ∧ le_extent c.2 height = true.

(** ** class Ship *)

Module Ship.

Record t := mk {
  x_start : Z;
  y_start : Z;
  x_end : Z;
  y_end : Z;
  cells : gset cell;
  damaged_cells : gset cell;
  board_width : extent;
  board_height : extent
}.

Definition is_vertical (self : t) : bool := bool_decide (x_start self = x_end self).

Definition is_horizontal (self : t) : bool := bool_decide (y_start self = y_end self).

Definition get_cells (self : t) : outcome (gset cell) :=
  if is_vertical self && is_horizontal self then
    Ok {[ (x_start self, y_start self) ]}
  else if is_horizontal self then
    Ok (list_to_set
          ((λ x_coordinate, (x_start self + x_coordinate, y_start self))
             <$> range (x_end self - x_start self + 1)))
  else if is_vertical self then
    Ok (list_to_set
          ((λ y_coordinate, (x_start self, y_start self + y_coordinate))
             <$> range (y_end self - y_start self + 1)))
  else Raise ValueError.

(** [Ship.__init__]: the object is filled in field by field; [self0] is
    the object after the endpoints are normalised, on which the methods
    [is_horizontal], [is_vertical] and [get_cells] are called. *)
Definition init (start end_ : cell) (should_validate : bool)
    (board_width board_height : extent) : outcome t :=
  let self0 :=
    mk (Z.min start.1 end_.1) (Z.min start.2 end_.2)
       (Z.max start.1 end_.1) (Z.max start.2 end_.2)
       ∅ ∅ board_width board_height in
  if should_validate && (negb (is_horizontal self0) && negb (is_vertical self0))
  then Raise ValueError
  else
    obind (get_cells self0) (λ cs,
      Ok (mk (x_start self0) (y_start self0) (x_end self0) (y_end self0)
             cs ∅ board_width board_height)).

Definition length (self : t) : Z := Z.of_nat (size (cells self)).

Definition is_occupying_cell (self : t) (c : cell) : bool :=
  bool_decide (c ∈ cells self).

Definition with_damaged_cells (self : t) (d : gset cell) : t :=
  mk (x_start self) (y_start self) (x_end self) (y_end self)
     (cells self) d (board_width self) (board_height self).

(** Returns [ship_was_hit] and the ship after the call. *)
Definition receive_damage (self : t) (c : cell) : bool * t :=
  if is_occupying_cell self c
  then (true, with_damaged_cells self (damaged_cells self ∪ {[ c ]}))
  else (false, self).

Definition count_damaged_cells (self : t) : Z :=
  Z.of_nat (size (damaged_cells self)).

Definition has_sunk (self : t) : bool :=
  bool_decide (damaged_cells self = cells self).

Definition get_neighbours (self : t) (c : cell) : list cell :=
  let right :=
    if le_extent c.1 (board_width self) then Some (c.1 + 1, c.2) else None in
  let left := if 2 <=? c.1 then Some (c.1 - 1, c.2) else None in
  let bottom :=
    if le_extent c.2 (board_height self) then Some (c.1, c.2 + 1) else None in
  let top := if 2 <=? c.2 then Some (c.1, c.2 - 1) else None in
  let top_right :=
    if bool_decide (is_Some top) && bool_decide (is_Some right)
    then Some (c.1 + 1, c.2 - 1) else None in
  let top_left :=
    if bool_decide (is_Some top) && bool_decide (is_Some left)
    then Some (c.1 - 1, c.2 - 1) else None in
  let bottom_right :=
    if bool_decide (is_Some bottom) && bool_decide (is_Some right)
    then Some (c.1 + 1, c.2 + 1) else None in
  let bottom_left :=
    if bool_decide (is_Some bottom) && bool_decide (is_Some right)
    then Some (c.1 - 1, c.2 + 1) else None in
  appended [right; left; bottom; top; top_right; top_left; bottom_right; bottom_left].

(** The loop returns [True] at the first cell of the ship that has the
    cell among its neighbours; the iteration order of the set does not
    change the result. *)
Definition is_near_cell (self : t) (c : cell) : bool :=
  existsb (λ cell_of_ship, bool_decide (c ∈ get_neighbours self cell_of_ship))
          (elements (cells self)).

Definition is_near_ship (self other_ship : t) : bool :=
  existsb (λ cell_of_other_ship, is_near_cell self cell_of_other_ship)
          (elements (cells other_ship)).

End Ship.

(** ** The random source

    [random.randint] and [random.choice] read the next entry of a tape of
    integers.  Every value of the requested range is produced by some
    tape, and no other value is. *)

Record RNG := mkRNG { tape : nat → Z; pos : nat }.

Definition advance (g : RNG) : RNG := mkRNG (tape g) (S (pos g)).

(** Code that may draw random numbers. *)
Definition R (A : Type) : Type := RNG → outcome (A * RNG).

Definition ret {A} (a : A) : R A := λ g, Ok (a, g).

Definition bind {A B} (m : R A) (k : A → R B) : R B :=
  λ g, match m g with
       | Ok (a, g') => k a g'
       | Raise e => Raise e
       | OutOfFuel => OutOfFuel
       end.

Definition lift {A} (o : outcome A) : R A :=
  λ g, match o with
       | Ok a => Ok (a, g)
       | Raise e => Raise e
       | OutOfFuel => OutOfFuel
       end.

Notation "'let*' x ':=' m 'in' k" := (bind m (λ x, k))
  (at level 10, x name, m at level 100, k at level 200).

(** [random.randint(a, b)]: raises [ValueError] on an empty range. *)
Definition randint (a b : Z) : R Z :=
  λ g, if b <? a then Raise ValueError
       else Ok (a + tape g (pos g) `mod` (b - a + 1), advance g).

(** [random.choice(seq)]: raises [IndexError] on an empty sequence. *)
Definition choice {A} (seq : list A) : R A :=
  λ g, match seq !! Z.to_nat (tape g (pos g) `mod` Z.of_nat (List.length seq)) with
       | Some a => Ok (a, advance g)
       | None => Raise IndexError
       end.

(** ** class ShipFactory *)

Module ShipFactory.

(** [ships_per_length] is a dict, iterated in insertion order: a list of
    (length, count) items. *)
Record t := mk {
  board_size : Z * Z;
  ships_per_length : list (Z * Z)
}.

Definition init (board_size : Z * Z) (ships_per_length : option (list (Z * Z))) : t :=
  match ships_per_length with
  | None => mk board_size [(1, 1); (2, 1); (3, 1); (4, 1); (5, 1)]
  | Some d => mk board_size d
  end.

Definition is_ship_in_bound (self : t) (ship : Ship.t) : bool :=
  let condition := true in
  if negb ((1 <=? Ship.x_start ship) && (Ship.x_start ship <=? (board_size self).1) &&
           (1 <=? Ship.x_end ship) && (Ship.x_end ship <=? (board_size self).1) &&
           (1 <=? Ship.y_start ship) && (Ship.y_start ship <=? (board_size self).2) &&
           (1 <=? Ship.y_end ship) && (Ship.y_end ship <=? (board_size self).2))
  then false
  else condition.

Definition are_overlapping (self : t) (ship other_ship : Ship.t) : bool :=
  existsb (λ cell_of_ship, bool_decide (cell_of_ship ∈ Ship.cells other_ship))
          (elements (Ship.cells ship)).

(** The [for ship in ships] loop of [check_coordinates]. *)
Fixpoint check_against (self : t) (ships : list Ship.t) (ship_to_test : Ship.t) : bool :=
  match ships with
  | [] => true
  | ship :: rest =>
      if are_overlapping self ship ship_to_test then false
      else if Ship.is_near_ship ship ship_to_test then false
      else check_against self rest ship_to_test
  end.

(** The [len(ships) > 0] test only skips a loop over an empty list. *)
Definition check_coordinates (self : t) (ships : list Ship.t)
    (ship_to_test : option Ship.t) : bool :=
  match ship_to_test with
  | None => false
  | Some ship_to_test =>
      if negb (is_ship_in_bound self ship_to_test) then false
      else check_against self ships ship_to_test
  end.

Definition generate_random_coordinates (self : t) (dimension : Z) : R (cell * cell) :=
  let* condition_vertical := randint 0 1 in
  if negb (condition_vertical =? 0) then
    let* x_start := randint 1 (board_size self).1 in
    let x_end := x_start in
    let* y_start := randint 1 ((board_size self).2 - dimension + 1) in
    let y_end := y_start + dimension - 1 in
    ret ((x_start, y_start), (x_end, y_end))
  else
    let* x_start := randint 1 ((board_size self).1 - dimension + 1) in
    let x_end := x_start + dimension - 1 in
    let* y_start := randint 1 (board_size self).2 in
    let y_end := y_start in
    ret ((x_start, y_start), (x_end, y_end)).

Definition max_iterations : Z := 10 ^ 3.

(** How a loop of [generate_ships] ends: it falls through with its local
    variables, or the function has returned from inside it. *)
Inductive flow (L : Type) :=
| Continue (locals : L)
| Return (ships : list Ship.t).
Arguments Continue {L} locals.
Arguments Return {L} ships.

(** The [while not(self.check_coordinates(ships, ship_to_test))] loop.
    [restart] is the recursive call [self.generate_ships()].  The locals
    are [ship_to_test] and [number_of_iterations]; the counter caps the
    loop at [max_iterations + 1] rounds, which is what [rounds] counts
    down from. *)
Fixpoint place_ship (rounds : nat) (self : t) (restart : R (list Ship.t))
    (ships : list Ship.t) (ship_length : Z)
    (ship_to_test : option Ship.t) (number_of_iterations : Z)
    : R (flow (option Ship.t * Z)) :=
  if check_coordinates self ships ship_to_test
  then ret (Continue (ship_to_test, number_of_iterations))
  else
    match rounds with
    | O => λ _, OutOfFuel
    | S rounds =>
        let* coordinates := generate_random_coordinates self ship_length in
        let '(start, end_) := coordinates in
        let* ship_to_test := lift (Ship.init start end_ true
                                (Finite (board_size self).1)
                                (Finite (board_size self).2)) in
        let number_of_iterations := number_of_iterations + 1 in
        if max_iterations <? number_of_iterations then
          let* ships := restart in
          ret (Return ships)
        else
          place_ship rounds self restart ships ship_length
                     (Some ship_to_test) number_of_iterations
    end.

(** The [for ship_nb in range(number_of_ships)] loop; the locals are
    [ships] and [ship_to_test].  The [while] loop cannot end with
    [ship_to_test] still [None], on which [check_coordinates] is [False];
    that case is given an exception only to make the match total. *)
Fixpoint for_ship_nb (number_of_ships : nat) (self : t) (restart : R (list Ship.t))
    (ship_length : Z) (ships : list Ship.t) (ship_to_test : option Ship.t)
    : R (flow (list Ship.t * option Ship.t)) :=
  match number_of_ships with
  | O => ret (Continue (ships, ship_to_test))
  | S number_of_ships =>
      let* r := place_ship (Z.to_nat (max_iterations + 1)) self restart
                      ships ship_length ship_to_test 0 in
      match r with
      | Return fleet => ret (Return fleet)
      | Continue (None, _) => λ _, Raise TypeError
      | Continue (Some placed, _) =>
          for_ship_nb number_of_ships self restart ship_length
                      (ships ++ [placed]) (Some placed)
      end
  end.

(** The [for ship_length, number_of_ships in ...items()] loop. *)
Fixpoint for_items (items : list (Z * Z)) (self : t) (restart : R (list Ship.t))
    (ships : list Ship.t) (ship_to_test : option Ship.t)
    : R (flow (list Ship.t * option Ship.t)) :=
  match items with
  | [] => ret (Continue (ships, ship_to_test))
  | (ship_length, number_of_ships) :: items =>
      let* r := for_ship_nb (Z.to_nat number_of_ships) self restart
                       ship_length ships ship_to_test in
      match r with
      | Return fleet => ret (Return fleet)
      | Continue (ships, ship_to_test) =>
          for_items items self restart ships ship_to_test
      end
  end.

(** A restart is a nested call of [generate_ships].  [fuel] is the
    number of nested calls the recursion limit still allows; the call
    that exceeds it raises [RecursionError]. *)
Fixpoint generate_ships (fuel : nat) (self : t) : R (list Ship.t) :=
  match fuel with
  | O => λ _, Raise RecursionError
  | S fuel =>
      let* r := for_items (ships_per_length self) self (generate_ships fuel self) [] None in
      match r with
      | Return fleet => ret fleet
      | Continue (ships, _) => ret ships
      end
  end.

End ShipFactory.

(** ** class Board *)

Module Board.

Record t := mk {
  ships : list Ship.t;
  width : Z;
  height : Z
}.

(** Modelled from the spec: [battleship/board.py] is missing; "every
    ship's occupied cells lie within [1,width]x[1,height]". *)
Definition are_ships_within_bounds (self : t) : bool :=
  forallb (λ ship,
             forallb (λ c : cell, (1 <=? c.1) && (c.1 <=? width self) &&
                                  (1 <=? c.2) && (c.2 <=? height self))
                     (elements (Ship.cells ship)))
          (ships self).

(** Modelled from the spec: [battleship/board.py] is missing; two ships
    touch when "any cell of one [is] within one grid-step, including
    diagonals, of any cell of another", which covers a shared cell. *)
Definition touch (ship other_ship : Ship.t) : bool :=
  existsb (λ c : cell,
             existsb (λ d : cell, (Z.abs (c.1 - d.1) <=? 1) && (Z.abs (c.2 - d.2) <=? 1))
                     (elements (Ship.cells other_ship)))
          (elements (Ship.cells ship)).

(** Modelled from the spec: [battleship/board.py] is missing; "no two
    ships share a cell; no two ships are mutually adjacent". *)
Fixpoint are_ships_too_close_in (l : list Ship.t) : bool :=
  match l with
  | [] => false
  | ship :: rest => existsb (touch ship) rest || are_ships_too_close_in rest
  end.

Definition are_ships_too_close (self : t) : bool :=
  are_ships_too_close_in (ships self).

(** Modelled from the spec: [battleship/board.py] is missing;
    construction "fails with a bounds violation if any ship cell falls
    outside the grid; fails with an adjacency/overlap violation if any two
    ships overlap or are mutually near".  The tests expect [ValueError]
    for the first and [KeyError] for the second. *)
Definition init (ships : list Ship.t) (width height : Z) : outcome t :=
  let self := mk ships width height in
  if negb (are_ships_within_bounds self) then Raise ValueError
  else if are_ships_too_close self then Raise KeyError
  else Ok self.

End Board.

(** ** class AutomaticPlayer *)

(** Monadic left fold, for loops whose body can raise. *)
Fixpoint ofold {A B} (f : B → A → outcome B) (l : list A) (b : B) : outcome B :=
  match l with
  | [] => Ok b
  | a :: l => obind (f b a) (ofold f l)
  end.

(** [l.pop(l.index(v))]: drops the first occurrence; [ValueError] if absent. *)
Fixpoint pop_index {A} `{EqDecision A} (v : A) (l : list A) : outcome (list A) :=
  match l with
  | [] => Raise ValueError
  | a :: l => if decide (a = v) then Ok l else obind (pop_index v l) (λ l', Ok (a :: l'))
  end.

Module AutomaticPlayer.

(** [board_width] and [board_height] are [self.board.width] and
    [self.board.height], all the player reads of its board.  An entry of
    [successful_hits] is a cell or Python's [None]. *)
Record t := mk {
  board_width : Z;
  board_height : Z;
  tracker : gset cell;
  sunken_ships : list Ship.t;
  successful_hits : list (option cell);
  last_target : option cell
}.

Definition init (board_width board_height : Z) : t :=
  mk board_width board_height ∅ [] [] None.

Definition are_there_sunken_ships (self : t) : bool :=
  bool_decide (0 < List.length (sunken_ships self))%nat.

Definition get_neighbours (self : t) (c : cell) (cell_hunt : bool) : list cell :=
  let right :=
    if c.1 <=? board_width self - 1 then Some (c.1 + 1, c.2) else None in
  let left := if 2 <=? c.1 then Some (c.1 - 1, c.2) else None in
  let bottom :=
    if c.2 <=? board_height self - 1 then Some (c.1, c.2 + 1) else None in
  let top := if 2 <=? c.2 then Some (c.1, c.2 - 1) else None in
  let top_right :=
    if bool_decide (is_Some top) && bool_decide (is_Some right)
    then Some (c.1 + 1, c.2 - 1) else None in
  let top_left :=
    if bool_decide (is_Some top) && bool_decide (is_Some left)
    then Some (c.1 - 1, c.2 - 1) else None in
  let bottom_right :=
    if bool_decide (is_Some bottom) && bool_decide (is_Some right)
    then Some (c.1 + 1, c.2 + 1) else None in
  let bottom_left :=
    if bool_decide (is_Some bottom) && bool_decide (is_Some right)
    then Some (c.1 - 1, c.2 + 1) else None in
  appended ([right; left; bottom; top] ++
            (if negb cell_hunt
             then [top_right; top_left; bottom_right; bottom_left]
             else [])).

Definition is_it_within_bounds (self : t) (c : cell) : bool :=
  (1 <=? c.1) && (c.1 <=? board_width self) &&
  ((1 <=? c.2) && (c.2 <=? board_height self)).

(** [depth] is the number of nested calls the recursion limit still
    allows; the call that exceeds it raises [RecursionError]. *)
Fixpoint get_all_cells (depth : nat) (self : t) (c : cell) (except_cell : option cell)
    : outcome (list cell) :=
  match depth with
  | O => Raise RecursionError
  | S depth =>
      let neighbours := get_neighbours self c false in
      ofold (λ all_hit_cells_nearby neighbour,
               if bool_decide (Some neighbour ∈ successful_hits self) &&
                  negb (bool_decide (Some neighbour = except_cell))
               then
                 obind (get_all_cells depth self neighbour (Some c))
                       (λ new_neighbours,
                          Ok ((all_hit_cells_nearby ++ [neighbour]) ++ new_neighbours))
               else Ok all_hit_cells_nearby)
            neighbours []
  end.

Definition is_this_ship_vertical (self : t) (cells : list cell) : outcome bool :=
  match cells with
  | c0 :: c1 :: _ => Ok (bool_decide (c0.1 = c1.1))
  | _ => Raise IndexError
  end.

(** One round of a [for cell in cells] loop of [find_start_and_end] along
    the axis read by [coord]; the locals are the minimum, the maximum,
    [start] and [end]. *)
Definition extremity_step (coord : cell → Z)
    (locals : Z * Z * option cell * option cell) (c : cell)
    : Z * Z * option cell * option cell :=
  let '(min_, max_, start, end_) := locals in
  let '(min_, start) := if coord c <? min_ then (coord c, Some c) else (min_, start) in
  let '(max_, end_) := if max_ <? coord c then (coord c, Some c) else (max_, end_) in
  (min_, max_, start, end_).

Definition find_start_and_end (depth : nat) (self : t) (c : cell)
    : outcome (option cell * option cell) :=
  obind (get_all_cells depth self c (Some c)) (λ cells,
    let cells := cells ++ [c] in
    if bool_decide (List.length cells = 1%nat) then Ok (Some c, Some c)
    else
      let max_x := 0 in
      let min_x := board_width self + 1 in
      let max_y := 0 in
      let min_y := board_height self + 1 in
      obind (is_this_ship_vertical self cells) (λ vertical,
        if vertical then
          let '(_, _, start, end_) :=
            foldl (extremity_step snd) (min_y, max_y, None, None) cells in
          Ok (start, end_)
        else
          let '(_, _, start, end_) :=
            foldl (extremity_step fst) (min_x, max_x, None, None) cells in
          Ok (start, end_))).

(** [list_of_hits[0]] must be a cell: [find_start_and_end] subscripts it. *)
Definition get_better_target (depth : nat) (self : t) (list_of_hits : list (option cell))
    : R cell :=
  match list_of_hits with
  | [] => λ _, Raise IndexError
  | None :: _ => λ _, Raise TypeError
  | Some c :: _ =>
      let* ends := lift (find_start_and_end depth self c) in
      match ends with
      | (Some start, Some end_) =>
          let possible_cells :=
            if bool_decide (start.1 = end_.1)
            then [(start.1, start.2 - 1); (end_.1, end_.2 + 1)]
            else [(start.1 - 1, start.2); (end_.1 + 1, end_.2)] in
          choice possible_cells
      | _ => λ _, Raise TypeError
      end
  end.

(** The [print(new_target)] of the source is console output and is left
    out. *)
Definition hunting_cell (depth : nat) (self : t) (c : cell)
    (list_of_hits : list (option cell)) : R (bool * cell) :=
  if bool_decide (1 < List.length list_of_hits)%nat then
    let* new_target := get_better_target depth self list_of_hits in
    ret (true, new_target)
  else
    match list_of_hits with
    | [] => λ _, Raise IndexError
    | None :: _ => λ _, Raise TypeError
    | Some hit :: _ =>
        let neighbours := get_neighbours self hit true in
        if bool_decide (c ∈ neighbours) then ret (true, c) else ret (false, c)
    end.

(** The cells of a set are removed one by one; the order in which the set
    is iterated changes neither the list that is left nor whether
    [index] raises. *)
Definition is_there_a_hunt (self : t) : outcome (bool * list (option cell)) :=
  let list_of_hits := successful_hits self in
  obind
    (if bool_decide (0 < List.length (sunken_ships self))%nat then
       ofold (λ list_of_hits ship,
                ofold (λ list_of_hits c, pop_index (Some c) list_of_hits)
                      (elements (Ship.cells ship)) list_of_hits)
             (sunken_ships self) list_of_hits
     else Ok list_of_hits)
    (λ list_of_hits,
       Ok (bool_decide (0 < List.length list_of_hits)%nat, list_of_hits)).

Definition is_close_to_ship (self : t) (c : cell) : bool :=
  existsb (λ ship, Ship.is_near_cell ship c) (sunken_ships self).

Definition get_random_coordinates (self : t) : R cell :=
  let* x := randint 1 (board_width self) in
  let* y := randint 1 (board_height self) in
  ret (x, y).

(** The [while] loop of [generate_random_target].  Its condition holds on
    entry ([has_been_attacked] starts [True]), so the body runs before the
    condition is read from the locals it sets.  [fuel] bounds the number
    of rounds. *)
Fixpoint draw_target (fuel depth : nat) (self : t) (sunken_ships is_there_a_hunt : bool)
    (list_of_hits : list (option cell)) : R cell :=
  match fuel with
  | O => λ _, OutOfFuel
  | S fuel =>
      let* random_cell := get_random_coordinates self in
      let* hunted := (if is_there_a_hunt
                 then hunting_cell depth self random_cell list_of_hits
                 else ret (true, random_cell)) in
      let '(is_a_hunting_cell, random_cell) := hunted in
      let has_been_attacked := bool_decide (random_cell ∈ tracker self) in
      let within_bounds := is_it_within_bounds self random_cell in
      let is_close_to_ship :=
        if sunken_ships then is_close_to_ship self random_cell else false in
      if has_been_attacked || is_close_to_ship || negb is_a_hunting_cell
         || negb within_bounds
      then draw_target fuel depth self sunken_ships is_there_a_hunt list_of_hits
      else ret random_cell
  end.

Definition with_last_target (self : t) (c : option cell) : t :=
  mk (board_width self) (board_height self) (tracker self) (sunken_ships self)
     (successful_hits self) c.

Definition with_tracker (self : t) (s : gset cell) : t :=
  mk (board_width self) (board_height self) s (sunken_ships self)
     (successful_hits self) (last_target self).

Definition with_successful_hits (self : t) (l : list (option cell)) : t :=
  mk (board_width self) (board_height self) (tracker self) (sunken_ships self)
     l (last_target self).

Definition with_sunken_ships (self : t) (l : list Ship.t) : t :=
  mk (board_width self) (board_height self) (tracker self) l
     (successful_hits self) (last_target self).

(** Returns the target and the player after the call. *)
Definition generate_random_target (fuel depth : nat) (self : t) : R (cell * t) :=
  let sunken_ships := are_there_sunken_ships self in
  let* hunt := lift (is_there_a_hunt self) in
  let '(is_there_a_hunt, list_of_hits) := hunt in
  let* random_cell := draw_target fuel depth self sunken_ships is_there_a_hunt list_of_hits in
  ret (random_cell, with_last_target self (Some random_cell)).

Definition select_target (fuel depth : nat) (self : t) : R (cell * t) :=
  let* r := generate_random_target fuel depth self in
  let '(target_cell, self) := r in
  ret (target_cell, with_tracker self (tracker self ∪ {[ target_cell ]})).

(** Returns the player after the call.  With no target yet,
    [find_start_and_end(None)] subscripts [None]; [Ship(start, end)]
    unpacks its endpoints. *)
Definition receive_result (depth : nat) (self : t) (is_ship_hit has_ship_sunk : bool)
    : outcome t :=
  let self :=
    if is_ship_hit
    then with_successful_hits self (successful_hits self ++ [last_target self])
    else self in
  if is_ship_hit && has_ship_sunk then
    match last_target self with
    | None => Raise TypeError
    | Some target =>
        obind (find_start_and_end depth self target) (λ ends,
          match ends with
          | (Some start, Some end_) =>
              obind (Ship.init start end_ true Infinity Infinity) (λ ship,
                Ok (with_sunken_ships self (sunken_ships self ++ [ship])))
          | _ => Raise TypeError
          end)
    end
  else Ok self.

(** One turn of a game: the player proposes a cell and is told the
    outcome of the attack. *)
Inductive turn (p q : t) : Prop :=
| turn_intro fuel depth depth' g g' target p1 is_ship_hit has_ship_sunk :
    select_target fuel depth p g = Ok ((target, p1), g') →
    receive_result depth' p1 is_ship_hit has_ship_sunk = Ok q →
    turn p q.

(** The states of a player in a game, from its construction on. *)
Inductive reachable : t → Prop :=
| reachable_init w h : reachable (init w h)
| reachable_turn p q : reachable p → turn p q → reachable q.

End AutomaticPlayer.

(** ** class RandomPlayer *)

Module RandomPlayer.

(** [board_width] and [board_height] are [self.board.width] and
    [self.board.height]. *)
Record t := mk {
  board_width : Z;
  board_height : Z;
  tracker : gset cell
}.

Definition init (board_width board_height : Z) : t := mk board_width board_height ∅.

Definition get_random_coordinates (self : t) : R cell :=
  let* x := randint 1 (board_width self) in
  let* y := randint 1 (board_height self) in
  ret (x, y).

(** The [while has_been_attacked] loop: [has_been_attacked] starts
    [True], so a cell is drawn before the test.  [fuel] bounds the number
    of rounds. *)
Fixpoint generate_random_target (fuel : nat) (self : t) : R cell :=
  match fuel with
  | O => λ _, OutOfFuel
  | S fuel =>
      let* random_cell := get_random_coordinates self in
      let has_been_attacked := bool_decide (random_cell ∈ tracker self) in
      if has_been_attacked then generate_random_target fuel self
      else ret random_cell
  end.

(** Returns the target and the player after the call. *)
Definition select_target (fuel : nat) (self : t) : R (cell * t) :=
  let* target_cell := generate_random_target fuel self in
  ret (target_cell,
       mk (board_width self) (board_height self) (tracker self ∪ {[ target_cell ]})).

End RandomPlayer.

(** ** Scenarios *)

(** A sequence of [receive_damage] calls on one ship; the results of the
    calls are dropped. *)
Definition attack_all (ship : Ship.t) (attacks : list cell) : Ship.t :=
  foldl (λ s c, (Ship.receive_damage s c).2) ship attacks.

(** The cells of a ship are the cells of the box spanned by its
    normalised endpoints, which is a row or a column. *)
Definition straight (s : Ship.t) : Prop :=
  Ship.x_start s ≤ Ship.x_end s ∧ Ship.y_start s ≤ Ship.y_end s ∧
  (Ship.x_start s = Ship.x_end s ∨ Ship.y_start s = Ship.y_end s) ∧
  ∀ c : cell, c ∈ Ship.cells s ↔
    (Ship.x_start s ≤ c.1 ≤ Ship.x_end s ∧ Ship.y_start s ≤ c.2 ≤ Ship.y_end s).

(** Two ships share a cell. *)
Definition overlap (s1 s2 : Ship.t) : Prop :=
  ∃ c, c ∈ Ship.cells s1 ∧ c ∈ Ship.cells s2.

(** Some cell of one ship is one step, diagonals included, from a cell of
    the other. *)
Definition near (s1 s2 : Ship.t) : Prop :=
  ∃ c d, c ∈ Ship.cells s1 ∧ d ∈ Ship.cells s2 ∧ adjacent c d.

Definition within_board (width height : Z) (s : Ship.t) : Prop :=
  ∀ c : cell, c ∈ Ship.cells s → 1 ≤ c.1 ≤ width ∧ 1 ≤ c.2 ≤ height.

(** The legality invariants of a board: every cell on the grid, no two
    ships sharing a cell, no two ships near each other. *)
Definition legal_layout (width height : Z) (ships : list Ship.t) : Prop :=
  (∀ s, s ∈ ships → within_board width height s) ∧
  (∀ (i j : nat) s1 s2, i ≠ j → ships !! i = Some s1 → ships !! j = Some s2 →
                        ¬ overlap s1 s2 ∧ ¬ near s1 s2).

(** A ship as [generate_ships] builds it for a [width] by [height]
    board. *)
Definition placed_on (width height : Z) (s : Ship.t) : Prop :=
  straight s ∧ Ship.board_width s = Finite width ∧ Ship.board_height s = Finite height.

(** What [generate_ships] maintains of the ships placed so far. *)
Definition fleet_inv (width height : Z) (ships : list Ship.t) : Prop :=
  (∀ s, s ∈ ships → placed_on width height s) ∧ legal_layout width height ships.

(** The number of ships of a given length in a fleet. *)
Definition count_length (len : Z) (fleet : list Ship.t) : Z :=
  Z.of_nat (List.length (filter (λ s, Ship.length s = len) fleet)).

(** A legal layout with the requested number of ships of each length
    exists on the board of the factory. *)
Definition feasible (self : ShipFactory.t) : Prop :=
  ∃ layout : list Ship.t,
    (∀ s, s ∈ layout → straight s) ∧
    legal_layout (ShipFactory.board_size self).1 (ShipFactory.board_size self).2 layout ∧
    ∀ len n, (len, n) ∈ ShipFactory.ships_per_length self → count_length len layout = n.

(** The lengths of the ships in the order in which [generate_ships]
    places them. *)
Definition requested_lengths (items : list (Z * Z)) : list Z :=
  flat_map (λ item : Z * Z, replicate (Z.to_nat item.2) item.1) items.

(** The endpoint pairs [generate_random_coordinates] can return for a
    ship of [dimension] cells. *)
Definition candidate (self : ShipFactory.t) (dimension : Z) (start end_ : cell) : Prop :=
  (start.1 = end_.1 ∧ 1 ≤ start.1 ≤ (ShipFactory.board_size self).1 ∧
   1 ≤ start.2 ≤ (ShipFactory.board_size self).2 - dimension + 1 ∧
   end_.2 = start.2 + dimension - 1) ∨
  (start.2 = end_.2 ∧ 1 ≤ start.2 ≤ (ShipFactory.board_size self).2 ∧
   1 ≤ start.1 ≤ (ShipFactory.board_size self).1 - dimension + 1 ∧
   end_.1 = start.1 + dimension - 1).

(** A ship built from endpoints that [generate_random_coordinates] can
    return. *)
Definition fresh (self : ShipFactory.t) (dimension : Z) (s : Ship.t) : Prop :=
  ∃ start end_,
    candidate self dimension start end_ ∧
    Ship.init start end_ true (Finite (ShipFactory.board_size self).1)
                              (Finite (ShipFactory.board_size self).2) = Ok s.

(** A loop of [generate_ships] that is left by
    [return self.generate_ships()]: its outcome is the outcome of the
    nested call. *)
Definition returns_restart {L} (restart : R (list Ship.t)) : R (ShipFactory.flow L) :=
  let* ships := restart in ret (ShipFactory.Return ships).

(** A 1 by 1 board on which two single-cell ships are requested. *)
Definition crowded_factory : ShipFactory.t :=
  ShipFactory.init (1, 1) (Some [(1, 2)]).

(** Sample runs of the fleet generator. *)
Definition two_ship_factory : ShipFactory.t :=
  ShipFactory.init (10, 10) (Some [(2, 1); (3, 1)]).

Definition sample_tape (n : nat) : Z :=
  (Z.of_nat n * Z.of_nat n * 7919 + 13 * Z.of_nat n) `mod` 1009.

Definition two_ship_layout : list Ship.t :=
  [Ship.mk 1 1 2 1 {[ (1, 1); (2, 1) ]} ∅ (Finite 10) (Finite 10);
   Ship.mk 5 5 5 7 {[ (5, 5); (5, 6); (5, 7) ]} ∅ (Finite 10) (Finite 10)].




(** The fleets of [tests/test_board.py], as [Ship(start, end)] builds
    them; [None] if a constructor raises. *)
Definition fleet_of (endpoints : list (cell * cell)) : option (list Ship.t) :=
  mapM (λ e : cell * cell,
          match Ship.init e.1 e.2 true Infinity Infinity with
          | Ok s => Some s
          | _ => None
          end) endpoints.

Definition test_fleet_legal : list (cell * cell) :=
  [((3, 1), (3, 5)); ((9, 7), (9, 10)); ((1, 9), (3, 9)); ((5, 5), (6, 5)); ((8, 3), (8, 3))].

Definition test_fleet_out_of_map : list (cell * cell) :=
  [((3, 1), (3, 5)); ((9, 7), (9, 10)); ((1, 9), (3, 9)); ((5, 2), (6, 2)); ((11, 3), (11, 3))].

Definition test_fleet_too_close : list (cell * cell) :=
  [((3, 1), (3, 5)); ((9, 7), (9, 10)); ((1, 9), (3, 9)); ((6, 3), (7, 3)); ((8, 3), (8, 3))].

(** The open hits of a player: the recorded hits left once the cells of
    the recorded sunken ships are taken out, as [is_there_a_hunt] computes
    them. *)
Definition open_hits (self : AutomaticPlayer.t) : outcome (list (option cell)) :=
  obind (AutomaticPlayer.is_there_a_hunt self) (λ r, Ok r.2).

(** A player that has hit (1, 10) on a 10 by 10 board and nothing else. *)
Definition one_hit_player : AutomaticPlayer.t :=
  AutomaticPlayer.mk 10 10 {[ (1, 10) ]} [] [Some (1, 10)] (Some (1, 10)).

(** What holds of the memory of a player throughout a game: the last
    target and the recorded hits were attacked, and every recorded sunken
    ship is a straight segment built with the default, unbounded board
    whose first cell was attacked. *)
Definition player_inv (p : AutomaticPlayer.t) : Prop :=
  (∀ c, AutomaticPlayer.last_target p = Some c → c ∈ AutomaticPlayer.tracker p) ∧
  (∀ c, Some c ∈ AutomaticPlayer.successful_hits p → c ∈ AutomaticPlayer.tracker p) ∧
  (∀ s, s ∈ AutomaticPlayer.sunken_ships p →
        straight s ∧ Ship.board_width s = Infinity ∧ Ship.board_height s = Infinity ∧
        (Ship.x_start s, Ship.y_start s) ∈ AutomaticPlayer.tracker p).

(** A game in which the first three attacks sink a ship in column 1. *)
Definition after_attack (is_ship_hit has_ship_sunk : bool)
    (state : outcome (AutomaticPlayer.t * RNG)) : outcome (AutomaticPlayer.t * RNG) :=
  obind state (λ '(p, g),
    obind (AutomaticPlayer.select_target 500 50 p g) (λ '(_, p1, g1),
      obind (AutomaticPlayer.receive_result 50 p1 is_ship_hit has_ship_sunk) (λ p2,
        Ok (p2, g1)))).

Definition sample_game : outcome (AutomaticPlayer.t * RNG) :=
  after_attack true true
    (after_attack true false
       (after_attack true false (Ok (AutomaticPlayer.init 10 10, mkRNG sample_tape 0)))).

(** The cell at position [i] of a line of the grid: of column [fixed]
    when the line is vertical, of row [fixed] when it is horizontal. *)
Definition line_cell (vertical : bool) (fixed i : Z) : cell :=
  if vertical then (fixed, i) else (i, fixed).

(** Two or more open hits, all on one line, whose minimum and maximum
    along the line are at positions [a] and [b]. *)
Definition hits_on_line (hits : list (option cell))
    (vertical : bool) (fixed a b : Z) : Prop :=
  (2 ≤ List.length hits)%nat ∧
  (∀ o, o ∈ hits → ∃ i, o = Some (line_cell vertical fixed i) ∧ a ≤ i ≤ b) ∧
  Some (line_cell vertical fixed a) ∈ hits ∧
  Some (line_cell vertical fixed b) ∈ hits.

(** The open hits are a run of consecutive cells of the board, from
    position [a] to position [b] of the line, and no other recorded hit
    is within one step of the run. *)
Definition run_of_hits (self : AutomaticPlayer.t) (hits : list (option cell))
    (vertical : bool) (fixed a b : Z) : Prop :=
  a < b ∧
  (∀ i, a ≤ i ≤ b → Some (line_cell vertical fixed i) ∈ hits) ∧
  (∀ i, a ≤ i ≤ b →
        AutomaticPlayer.is_it_within_bounds self (line_cell vertical fixed i) = true) ∧
  (∀ n i, a ≤ i ≤ b → within_one_step n (line_cell vertical fixed i) →
          Some n ∈ AutomaticPlayer.successful_hits self →
          ∃ j, n = line_cell vertical fixed j ∧ a ≤ j ≤ b).

(** [l] lists each cell of a line from position [lo] to [hi] once, and
    nothing else. *)
Definition covers_line (vertical : bool) (fixed lo hi : Z) (l : list cell) : Prop :=
  NoDup l ∧ ∀ x, x ∈ l ↔ ∃ j, lo ≤ j ≤ hi ∧ x = line_cell vertical fixed j.

(** A hand-written memory with two open hits on row 1 that are four cells
    apart. *)
Definition gap_player : AutomaticPlayer.t :=
  AutomaticPlayer.mk 10 10 {[ (1, 1); (5, 1) ]} [] [Some (1, 1); Some (5, 1)] (Some (5, 1)).

(** The cells of a line of the grid from position [a] to position [b]. *)
Definition on_segment (vertical : bool) (fixed a b : Z) (c : cell) : Prop :=
  ∃ i, a ≤ i ≤ b ∧ c = line_cell vertical fixed i.

(** An open hit of a memory: a recorded hit that is a cell of no recorded
    sunken ship. *)
Definition open_cell (p : AutomaticPlayer.t) (c : cell) : Prop :=
  Some c ∈ AutomaticPlayer.successful_hits p ∧
  ∀ s, s ∈ AutomaticPlayer.sunken_ships p → c ∉ Ship.cells s.

(** What holds of the recorded hits throughout a game: they are distinct
    cells of the board, the open hits are the cells of one segment of a
    row or column (of no cell, when there is no open hit), and a recorded
    hit within one step of an open hit is an open hit. *)
Definition hunt_inv (p : AutomaticPlayer.t) : Prop :=
  NoDup (AutomaticPlayer.successful_hits p) ∧
  (∀ o, o ∈ AutomaticPlayer.successful_hits p →
        ∃ c, o = Some c ∧ AutomaticPlayer.is_it_within_bounds p c = true) ∧
  (∀ c n, open_cell p c → Some n ∈ AutomaticPlayer.successful_hits p →
          within_one_step n c → open_cell p n) ∧
  ∃ vertical fixed a b, ∀ c, open_cell p c ↔ on_segment vertical fixed a b c.

(** A game whose first two attacks are hits that sink nothing. *)
Definition two_hit_game : outcome (AutomaticPlayer.t * RNG) :=
  after_attack true false
    (after_attack true false (Ok (AutomaticPlayer.init 10 10, mkRNG sample_tape 0))).

(** The cell of a result of [select_target]. *)
Definition target_of (o : outcome (cell * AutomaticPlayer.t * RNG)) : option cell :=
  match o with
  | Ok (c, _, _) => Some c
  | _ => None
  end.

(** [n] turns of a random player: [select_target] is called [n] times in
    a row and the targets are collected. *)
Fixpoint random_targets (n fuel : nat) (self : RandomPlayer.t)
    : R (list cell * RandomPlayer.t) :=
  match n with
  | O => ret ([], self)
  | S n =>
      let* first := RandomPlayer.select_target fuel self in
      let* others := random_targets n fuel first.2 in
      ret (first.1 :: others.1, others.2)
  end.

(** The number of a cell of a board of the given height, column by
    column. *)
Definition cell_index (height : Z) (c : cell) : Z := (c.1 - 1) * height + (c.2 - 1).

(** A hunt around the corner hit (1, 1) whose two neighbours on the board
    were attacked already. *)
Definition cornered_player : AutomaticPlayer.t :=
  AutomaticPlayer.mk 10 10 {[ (1, 1); (2, 1); (1, 2) ]} [] [Some (1, 1)] (Some (1, 2)).


(** A memory with the recorded hits (3, 3) and (3, 4) whose last target,
    (3, 5), is about to be reported as the hit that sinks the ship. *)
Definition sinking_player : AutomaticPlayer.t :=
  AutomaticPlayer.mk 10 10 {[ (3, 3); (3, 4); (3, 5) ]} []
                     [Some (3, 4); Some (3, 3)] (Some (3, 5)).

(** A tape whose first two entries make [get_random_coordinates] return
    the given cell on a board that holds it. *)
Definition tape_for (c : cell) (n : nat) : Z :=
  match n with
  | O => c.1 - 1
  | _ => c.2 - 1
  end.

(** A random player that has attacked every cell of a 2 by 1 board. *)
Definition exhausted_player : RandomPlayer.t :=
  RandomPlayer.mk 2 1 {[ (1, 1); (2, 1) ]}.

(** * Properties of [Ship] *)

Section ship_construction.

Lemma is_vertical_spec s : Ship.is_vertical s = true ↔ Ship.x_start s = Ship.x_end s.
Proof. unfold Ship.is_vertical. apply bool_decide_eq_true. Qed.

Lemma is_horizontal_spec s : Ship.is_horizontal s = true ↔ Ship.y_start s = Ship.y_end s.
Proof. unfold Ship.is_horizontal. apply bool_decide_eq_true. Qed.

Lemma elem_of_row (x0 y0 n : Z) (c : cell) :
  c ∈ (list_to_set ((λ i, (x0 + i, y0)) <$> range n) : gset cell) ↔
  x0 ≤ c.1 < x0 + n ∧ c.2 = y0.
Proof.
  rewrite elem_of_list_to_set, list_elem_of_fmap. unfold range. split.
  - intros (i & -> & Hi). apply elem_of_seqZ in Hi. simpl. lia.
  - intros [Hx Hy]. exists (c.1 - x0). split.
    + destruct c as [a b]. simpl in *. f_equal; lia.
    + apply elem_of_seqZ. lia.
Qed.

Lemma elem_of_column (x0 y0 n : Z) (c : cell) :
  c ∈ (list_to_set ((λ i, (x0, y0 + i)) <$> range n) : gset cell) ↔
  c.1 = x0 ∧ y0 ≤ c.2 < y0 + n.
Proof.
  rewrite elem_of_list_to_set, list_elem_of_fmap. unfold range. split.
  - intros (i & -> & Hi). apply elem_of_seqZ in Hi. simpl. lia.
  - intros [Hx Hy]. exists (c.2 - y0). split.
    + destruct c as [a b]. simpl in *. f_equal; lia.
    + apply elem_of_seqZ. lia.
Qed.

(** What a successful construction returns. *)
Lemma init_Ok start end_ v bw bh s :
  Ship.init start end_ v bw bh = Ok s →
  Ship.x_start s = Z.min start.1 end_.1 ∧ Ship.x_end s = Z.max start.1 end_.1 ∧
  Ship.y_start s = Z.min start.2 end_.2 ∧ Ship.y_end s = Z.max start.2 end_.2 ∧
  Ship.damaged_cells s = ∅ ∧ Ship.board_width s = bw ∧ Ship.board_height s = bh ∧
  straight s.
Proof.
  unfold Ship.init, Ship.get_cells, straight.
  destruct (v && _); [discriminate |].
  set (s0 := Ship.mk _ _ _ _ _ _ _ _).
  destruct (Ship.is_vertical s0) eqn:Hv, (Ship.is_horizontal s0) eqn:Hh; simpl;
    try discriminate; intros [= <-]; simpl;
    try apply is_vertical_spec in Hv; try apply is_horizontal_spec in Hh;
    simpl in *;
    (split; [reflexivity |]); (split; [reflexivity |]); (split; [reflexivity |]);
    (split; [reflexivity |]); (split; [reflexivity |]); (split; [reflexivity |]);
    (split; [reflexivity |]); (split; [lia |]); (split; [lia |]);
    (split; [lia |]); intros c.
  - rewrite elem_of_singleton. destruct c as [a b]. simpl.
    split; [intros [= -> ->]; lia | intros; f_equal; lia].
  - rewrite elem_of_column. lia.
  - rewrite elem_of_row. lia.
Qed.

Lemma init_straight start end_ v bw bh s :
  Ship.init start end_ v bw bh = Ok s → straight s.
Proof. intros H. apply init_Ok in H. tauto. Qed.

(** Construction fails exactly on endpoints that share neither a row nor
    a column, whatever the validation flag, and never runs out of fuel. *)
Lemma init_cases start end_ v bw bh :
  (start.1 ≠ end_.1 ∧ start.2 ≠ end_.2 ∧ Ship.init start end_ v bw bh = Raise ValueError) ∨
  ((start.1 = end_.1 ∨ start.2 = end_.2) ∧ ∃ s, Ship.init start end_ v bw bh = Ok s).
Proof.
  unfold Ship.init, Ship.get_cells, Ship.is_horizontal, Ship.is_vertical. simpl.
  destruct (decide (start.1 = end_.1)) as [Hx | Hx],
           (decide (start.2 = end_.2)) as [Hy | Hy].
  - right. split; [auto |].
    rewrite !bool_decide_eq_true_2 by lia. simpl. rewrite andb_false_r. simpl. eauto.
  - right. split; [auto |].
    rewrite (bool_decide_eq_true_2 (Z.min start.1 _ = _)) by lia.
    rewrite (bool_decide_eq_false_2 (Z.min start.2 _ = _)) by lia.
    simpl. rewrite andb_false_r. simpl. eauto.
  - right. split; [auto |].
    rewrite (bool_decide_eq_false_2 (Z.min start.1 _ = _)) by lia.
    rewrite (bool_decide_eq_true_2 (Z.min start.2 _ = _)) by lia.
    simpl. rewrite andb_false_r. simpl. eauto.
  - left. split; [auto | split; [auto |]].
    rewrite (bool_decide_eq_false_2 (Z.min start.1 _ = _)) by lia.
    rewrite (bool_decide_eq_false_2 (Z.min start.2 _ = _)) by lia.
    simpl. destruct v; reflexivity.
Qed.

(** C8: with validation enabled, constructing a ship fails with
    [ValueError] if and only if the endpoints lie neither on the same row
    nor on the same column, and succeeds otherwise; a single-cell ship is
    accepted and is both horizontal and vertical. *)
Theorem ship_init_validated_fails_iff (start end_ : cell) (bw bh : extent) :
  (Ship.init start end_ true bw bh = Raise ValueError ↔
     start.1 ≠ end_.1 ∧ start.2 ≠ end_.2) ∧
  (Ship.init start end_ true bw bh = Raise ValueError ∨
     ∃ s, Ship.init start end_ true bw bh = Ok s) ∧
  (∃ s, Ship.init start start true bw bh = Ok s ∧
        Ship.is_horizontal s = true ∧ Ship.is_vertical s = true ∧
        Ship.cells s = {[ start ]} ∧ Ship.length s = 1).
Proof.
  split; [| split].
  - destruct (init_cases start end_ true bw bh) as [(Hx & Hy & ->) | (Hs & s & ->)].
    + tauto.
    + split; [discriminate | lia].
  - destruct (init_cases start end_ true bw bh) as [(Hx & Hy & ->) | (Hs & s & ->)]; eauto.
  - destruct (init_cases start start true bw bh) as [(Hx & _) | (_ & s & Hs)]; [done |].
    exists s. split; [done |].
    destruct (init_Ok _ _ _ _ _ _ Hs) as (Hxs & Hxe & Hys & Hye & _ & _ & _ & Hst).
    assert (Hcells : Ship.cells s = {[ start ]}).
    { apply set_eq. intros c. rewrite elem_of_singleton.
      destruct Hst as (_ & _ & _ & ->). rewrite Hxs, Hxe, Hys, Hye.
      destruct c, start; simpl. split; [intros; f_equal; lia | intros [= -> ->]; lia]. }
    rewrite is_horizontal_spec, is_vertical_spec. unfold Ship.length.
    rewrite Hcells, size_singleton. repeat split; lia.
Qed.

(** C10: for endpoints on neither a common row nor a common column the
    constructor raises [ValueError] also with validation disabled, so
    every ship that is constructed is a straight segment. *)
Theorem ship_init_unvalidated_raises (start end_ : cell) (v : bool) (bw bh : extent) :
  (start.1 ≠ end_.1 ∧ start.2 ≠ end_.2 →
     Ship.init start end_ false bw bh = Raise ValueError ∧
     Ship.init start end_ v bw bh = Raise ValueError) ∧
  (∀ s, Ship.init start end_ v bw bh = Ok s →
     (Ship.is_horizontal s = true ∨ Ship.is_vertical s = true) ∧
     (start.1 = end_.1 ∨ start.2 = end_.2) ∧ straight s).
Proof.
  split.
  - intros [Hx Hy]. split.
    + destruct (init_cases start end_ false bw bh) as [(_ & _ & ->) | ([?|?] & _)]; done.
    + destruct (init_cases start end_ v bw bh) as [(_ & _ & ->) | ([?|?] & _)]; done.
  - intros s Hs. pose proof (init_straight _ _ _ _ _ _ Hs) as Hst.
    rewrite is_horizontal_spec, is_vertical_spec.
    destruct (init_cases start end_ v bw bh) as [(_ & _ & H) | (Hal & _)]; [congruence |].
    destruct Hst as (? & ? & Hor & ?).
    split; [tauto | split; [exact Hal | done]].
Qed.

Lemma ship_init_unvalidated_raises_witness :
  (Ship.init (1, 1) (2, 2) false Infinity Infinity = Raise ValueError ∧
   Ship.init (1, 1) (2, 2) false Infinity Infinity = Raise ValueError) ∧
  (∀ s, Ship.init (3, 3) (5, 3) false Infinity Infinity = Ok s →
     (Ship.is_horizontal s = true ∨ Ship.is_vertical s = true) ∧
     ((3, 3).1 = (5, 3).1 ∨ (3, 3).2 = (5, 3).2) ∧ straight s).
Proof.
  split.
  - apply (ship_init_unvalidated_raises (1, 1) (2, 2) false Infinity Infinity).
    simpl. lia.
  - apply (ship_init_unvalidated_raises (3, 3) (5, 3) false Infinity Infinity).
Defined.

End ship_construction.

Section ship_damage.

Lemma receive_damage_cells s c : Ship.cells (Ship.receive_damage s c).2 = Ship.cells s.
Proof. unfold Ship.receive_damage. by destruct (Ship.is_occupying_cell s c). Qed.

Lemma receive_damage_damaged s c :
  Ship.damaged_cells (Ship.receive_damage s c).2 =
  Ship.damaged_cells s ∪ (Ship.cells s ∩ {[ c ]}).
Proof.
  unfold Ship.receive_damage, Ship.is_occupying_cell.
  case_bool_decide; simpl; set_solver.
Qed.

Lemma attack_all_cells attacks : ∀ s, Ship.cells (attack_all s attacks) = Ship.cells s.
Proof.
  induction attacks as [| c attacks IH]; intros s; simpl; [done |].
  unfold attack_all in *. simpl. by rewrite IH, receive_damage_cells.
Qed.

Lemma attack_all_damaged attacks : ∀ s,
  Ship.damaged_cells (attack_all s attacks) =
  Ship.damaged_cells s ∪ (Ship.cells s ∩ list_to_set attacks).
Proof.
  induction attacks as [| c attacks IH]; intros s; simpl.
  - set_solver.
  - unfold attack_all in *. simpl.
    rewrite IH, receive_damage_cells, receive_damage_damaged. set_solver.
Qed.

(** C2: on a validated ship, after any finite sequence of
    [receive_damage] calls the damaged cells are the occupied cells among
    the attacked ones, so the damaged set and [has_sunk] depend only on
    the set of attacked cells; [has_sunk] holds iff every occupied cell
    was attacked; attacking a damaged cell again returns [True] and keeps
    the count; attacking a cell that is not occupied returns [False] and
    changes nothing. *)
Theorem receive_damage_order_independent
    (start end_ : cell) (bw bh : extent) (ship : Ship.t) (attacks : list cell)
    (Hinit : Ship.init start end_ true bw bh = Ok ship) :
  let s := attack_all ship attacks in
  Ship.damaged_cells s = Ship.cells ship ∩ list_to_set attacks ∧
  (Ship.has_sunk s = true ↔ ∀ c, c ∈ Ship.cells ship → c ∈ attacks) ∧
  (∀ attacks' : list cell,
     (∀ c, c ∈ attacks ↔ c ∈ attacks') →
     Ship.damaged_cells (attack_all ship attacks') = Ship.damaged_cells s ∧
     Ship.has_sunk (attack_all ship attacks') = Ship.has_sunk s) ∧
  (∀ c, c ∈ Ship.damaged_cells s →
     (Ship.receive_damage s c).1 = true ∧
     Ship.count_damaged_cells (Ship.receive_damage s c).2 = Ship.count_damaged_cells s ∧
     Ship.damaged_cells (Ship.receive_damage s c).2 = Ship.damaged_cells s) ∧
  (∀ c, c ∉ Ship.cells ship → Ship.receive_damage s c = (false, s)).
Proof.
  intros s.
  destruct (init_Ok _ _ _ _ _ _ Hinit) as (_ & _ & _ & _ & Hd & _).
  assert (Hdam : ∀ l, Ship.damaged_cells (attack_all ship l) =
                      Ship.cells ship ∩ list_to_set l).
  { intros l. rewrite attack_all_damaged, Hd. set_solver. }
  assert (Hcs : Ship.cells s = Ship.cells ship) by apply attack_all_cells.
  split; [apply Hdam |]. split; [| split; [| split]].
  - unfold Ship.has_sunk. rewrite bool_decide_eq_true. fold s.
    rewrite Hcs. unfold s. rewrite Hdam. split.
    + intros Heq c Hc. rewrite <- Heq in Hc. set_solver.
    + intros Hall. apply set_eq. intros c. set_solver.
  - intros attacks' Hsame.
    assert (Hset : (list_to_set attacks' : gset cell) = list_to_set attacks).
    { apply set_eq. intros c. rewrite !elem_of_list_to_set. by rewrite Hsame. }
    assert (Heq : Ship.damaged_cells (attack_all ship attacks') = Ship.damaged_cells s).
    { unfold s. by rewrite !Hdam, Hset. }
    split; [done |]. unfold Ship.has_sunk. fold s.
    by rewrite Heq, Hcs, attack_all_cells.
  - intros c Hc.
    assert (Hocc : c ∈ Ship.cells s).
    { rewrite Hcs. unfold s in Hc. rewrite Hdam in Hc. set_solver. }
    assert (Hsame : Ship.damaged_cells (Ship.receive_damage s c).2 = Ship.damaged_cells s).
    { rewrite receive_damage_damaged. set_solver. }
    split; [| split; [| done]].
    + unfold Ship.receive_damage, Ship.is_occupying_cell.
      by rewrite bool_decide_eq_true_2.
    + unfold Ship.count_damaged_cells. by rewrite Hsame.
  - intros c Hc. unfold Ship.receive_damage, Ship.is_occupying_cell.
    rewrite bool_decide_eq_false_2; [done |]. by rewrite Hcs.
Qed.

Lemma receive_damage_order_independent_witness :
  let s := attack_all (Ship.mk 2 5 4 5 {[ (2, 5); (3, 5); (4, 5) ]} ∅ Infinity Infinity)
                      [(3, 5); (7, 5); (3, 5); (4, 5); (2, 5)] in
  Ship.init (4, 5) (2, 5) true Infinity Infinity =
    Ok (Ship.mk 2 5 4 5 {[ (2, 5); (3, 5); (4, 5) ]} ∅ Infinity Infinity) ∧
  Ship.has_sunk s = true ∧
  Ship.damaged_cells s =
    {[ (2, 5); (3, 5); (4, 5) ]} ∩ list_to_set [(3, 5); (7, 5); (3, 5); (4, 5); (2, 5)].
Proof.
  assert (Hinit : Ship.init (4, 5) (2, 5) true Infinity Infinity =
    Ok (Ship.mk 2 5 4 5 {[ (2, 5); (3, 5); (4, 5) ]} ∅ Infinity Infinity)).
  { vm_compute. reflexivity. }
  intros s. split; [exact Hinit |]. split; [vm_compute; reflexivity |].
  exact (proj1 (receive_damage_order_independent _ _ _ _ _
                  [(3, 5); (7, 5); (3, 5); (4, 5); (2, 5)] Hinit)).
Defined.

End ship_damage.

Section ship_adjacency.

Lemma existsb_elements_true (f : cell → bool) (X : gset cell) :
  existsb f (elements X) = true ↔ ∃ c, c ∈ X ∧ f c = true.
Proof.
  rewrite existsb_exists. split.
  - intros (c & Hc & Hf). exists c. split; [| done].
    apply elem_of_elements. by apply list_elem_of_In.
  - intros (c & Hc & Hf). exists c. split; [| done].
    apply list_elem_of_In. by apply elem_of_elements.
Qed.

Lemma cell_eq (a b a' b' : Z) : (a, b) = (a', b') ↔ a = a' ∧ b = b'.
Proof. split; [intros [= -> ->]; done | intros [-> ->]; done]. Qed.

(** Every cell [get_neighbours] lists is a distinct cell one step away. *)
Lemma ship_neighbours_sound s (d c : cell) :
  c ∈ Ship.get_neighbours s d → adjacent c d.
Proof.
  unfold Ship.get_neighbours, appended, adjacent, within_one_step.
  destruct c as [a b], d as [x y]. simpl.
  destruct (le_extent x _), (le_extent y _), (2 <=? x), (2 <=? y); simpl;
    rewrite ?elem_of_cons, ?elem_of_nil, ?cell_eq; lia.
Qed.

(** For a ship cell within the ship's board and a cell of positive
    coordinates the list is complete. *)
Lemma ship_neighbours_complete s (d c : cell) :
  le_extent d.1 (Ship.board_width s) = true →
  le_extent d.2 (Ship.board_height s) = true →
  1 ≤ c.1 → 1 ≤ c.2 →
  adjacent c d → c ∈ Ship.get_neighbours s d.
Proof.
  unfold Ship.get_neighbours, appended, adjacent, within_one_step.
  destruct c as [a b], d as [x y]. simpl. intros -> -> Ha Hb [Hne Hadj].
  assert (Hne' : ¬ (a = x ∧ b = y)) by (rewrite <- cell_eq; done).
  destruct (Z.leb_spec 2 x), (Z.leb_spec 2 y); simpl;
    rewrite ?elem_of_cons, ?elem_of_nil, ?cell_eq; lia.
Qed.

Lemma is_near_cell_true s c :
  Ship.is_near_cell s c = true ↔ ∃ d, d ∈ Ship.cells s ∧ c ∈ Ship.get_neighbours s d.
Proof.
  unfold Ship.is_near_cell. rewrite existsb_elements_true.
  by setoid_rewrite bool_decide_eq_true.
Qed.

Lemma is_near_ship_true s other :
  Ship.is_near_ship s other = true ↔
  ∃ c, c ∈ Ship.cells other ∧ Ship.is_near_cell s c = true.
Proof. unfold Ship.is_near_ship. apply existsb_elements_true. Qed.

Lemma is_near_cell_exact s c :
  (∀ d, d ∈ Ship.cells s →
        le_extent d.1 (Ship.board_width s) = true ∧
        le_extent d.2 (Ship.board_height s) = true) →
  1 ≤ c.1 → 1 ≤ c.2 →
  (Ship.is_near_cell s c = true ↔ ∃ d, d ∈ Ship.cells s ∧ adjacent c d).
Proof.
  intros Hin Hx Hy. rewrite is_near_cell_true. split.
  - intros (d & Hd & Hn). exists d. split; [done |]. by eapply ship_neighbours_sound.
  - intros (d & Hd & Hadj). exists d. split; [done |].
    destruct (Hin d Hd). by apply ship_neighbours_complete.
Qed.

(** C6: for a ship whose cells lie within its board and a cell inside the
    board, [is_near_cell] holds iff some occupied cell other than the
    given one is at most one step away along each axis; and
    [is_near_ship] holds iff some cell of the other ship is near in that
    sense. *)
Theorem is_near_cell_iff_adjacent (s other : Ship.t) (c : cell)
    (Hship : ∀ d, d ∈ Ship.cells s → inside (Ship.board_width s) (Ship.board_height s) d)
    (Hcell : inside (Ship.board_width s) (Ship.board_height s) c)
    (Hother : ∀ d, d ∈ Ship.cells other →
                   inside (Ship.board_width s) (Ship.board_height s) d) :
  (Ship.is_near_cell s c = true ↔
     ∃ d, d ∈ Ship.cells s ∧ d ≠ c ∧ within_one_step d c) ∧
  (Ship.is_near_ship s other = true ↔
     ∃ c', c' ∈ Ship.cells other ∧
           ∃ d, d ∈ Ship.cells s ∧ d ≠ c' ∧ within_one_step d c').
Proof.
  assert (Hin : ∀ d, d ∈ Ship.cells s →
                     le_extent d.1 (Ship.board_width s) = true ∧
                     le_extent d.2 (Ship.board_height s) = true).
  { intros d Hd. destruct (Hship d Hd) as (_ & ? & _ & ?). done. }
  assert (Hsym : ∀ a b : cell, adjacent a b ↔ b ≠ a ∧ within_one_step b a).
  { intros a b. unfold adjacent, within_one_step. split; intros [Hne ?];
      (split; [congruence | lia]). }
  split.
  - destruct Hcell as (? & _ & ? & _). rewrite is_near_cell_exact by done.
    split; intros (d & Hd & Hadj); exists d; (split; [done |]); by apply Hsym.
  - rewrite is_near_ship_true. split.
    + intros (c' & Hc' & Hn). exists c'. split; [done |].
      destruct (Hother c' Hc') as (? & _ & ? & _).
      apply is_near_cell_exact in Hn; [| done..].
      destruct Hn as (d & Hd & Hadj). exists d. split; [done |]. by apply Hsym.
    + intros (c' & Hc' & d & Hd & Hadj). exists c'. split; [done |].
      destruct (Hother c' Hc') as (? & _ & ? & _).
      apply is_near_cell_exact; [done.. |]. exists d. split; [done |]. by apply Hsym.
Qed.

Lemma is_near_cell_iff_adjacent_witness :
  let s := Ship.mk 2 5 4 5 {[ (2, 5); (3, 5); (4, 5) ]} ∅ (Finite 10) (Finite 10) in
  let other := Ship.mk 5 6 5 7 {[ (5, 6); (5, 7) ]} ∅ (Finite 10) (Finite 10) in
  Ship.is_near_cell s (5, 6) = true ∧
  ((Ship.is_near_cell s (5, 6) = true ↔
      ∃ d, d ∈ Ship.cells s ∧ d ≠ (5, 6) ∧ within_one_step d (5, 6)) ∧
   (Ship.is_near_ship s other = true ↔
      ∃ c', c' ∈ Ship.cells other ∧
            ∃ d, d ∈ Ship.cells s ∧ d ≠ c' ∧ within_one_step d c')).
Proof.
  intros s other. split; [vm_compute; reflexivity |].
  apply (is_near_cell_iff_adjacent s other (5, 6)).
  - intros d Hd. unfold s in Hd. cbn [Ship.cells] in Hd.
    rewrite !elem_of_union, !elem_of_singleton in Hd.
    destruct Hd as [[-> | ->] | ->]; vm_compute; repeat split; discriminate.
  - vm_compute; repeat split; discriminate.
  - intros d Hd. unfold other in Hd. cbn [Ship.cells] in Hd.
    rewrite !elem_of_union, !elem_of_singleton in Hd.
    destruct Hd as [-> | ->]; vm_compute; repeat split; discriminate.
Defined.

End ship_adjacency.

(** * Properties of [Board] *)

Section board_construction.

Lemma within_one_step_cases (c d : cell) :
  within_one_step c d ↔ c = d ∨ adjacent c d.
Proof.
  unfold adjacent, within_one_step. destruct c as [a b], d as [x y]. simpl.
  rewrite cell_eq. lia.
Qed.

Lemma touch_true s1 s2 : Board.touch s1 s2 = true ↔ overlap s1 s2 ∨ near s1 s2.
Proof.
  unfold Board.touch. rewrite existsb_elements_true.
  setoid_rewrite existsb_elements_true.
  assert (Hstep : ∀ c d : cell,
            (Z.abs (c.1 - d.1) <=? 1) && (Z.abs (c.2 - d.2) <=? 1) = true ↔
            within_one_step c d).
  { intros c d. unfold within_one_step. rewrite andb_true_iff, !Z.leb_le. done. }
  split.
  - intros (c & Hc & d & Hd & Hcd). apply Hstep, within_one_step_cases in Hcd.
    destruct Hcd as [-> | Hadj]; [left; by exists d | right; by exists c, d].
  - intros [(c & Hc1 & Hc2) | (c & d & Hc & Hd & Hadj)].
    + exists c. split; [done |]. exists c. split; [done |].
      apply Hstep, within_one_step_cases. by left.
    + exists c. split; [done |]. exists d. split; [done |].
      apply Hstep, within_one_step_cases. by right.
Qed.

Lemma adjacent_sym (c d : cell) : adjacent c d → adjacent d c.
Proof. unfold adjacent, within_one_step. intros [? ?]. split; [congruence | lia]. Qed.

Lemma overlap_sym s1 s2 : overlap s1 s2 → overlap s2 s1.
Proof. intros (c & ? & ?). by exists c. Qed.

Lemma near_sym s1 s2 : near s1 s2 → near s2 s1.
Proof. intros (c & d & ? & ? & ?). exists d, c. auto using adjacent_sym. Qed.

Lemma too_close_in_true l :
  Board.are_ships_too_close_in l = true ↔
  ∃ (i j : nat) s1 s2, i ≠ j ∧ l !! i = Some s1 ∧ l !! j = Some s2 ∧
                       (overlap s1 s2 ∨ near s1 s2).
Proof.
  induction l as [| s l IH]; simpl.
  - split; [discriminate |]. intros (i & j & s1 & s2 & _ & Hi & _). done.
  - rewrite orb_true_iff, IH, existsb_exists. split.
    + intros [(s2 & Hin & Ht) | (i & j & s1 & s2 & Hne & Hi & Hj & Ht)].
      * apply list_elem_of_In, list_elem_of_lookup in Hin as [j Hj].
        exists 0%nat, (S j), s, s2. repeat split; try done. by apply touch_true.
      * exists (S i), (S j), s1, s2. repeat split; try done. lia.
    + intros (i & j & s1 & s2 & Hne & Hi & Hj & Ht).
      destruct i as [| i], j as [| j]; simpl in *; try done.
      * left. exists s2. split.
        -- apply list_elem_of_In, list_elem_of_lookup. eauto.
        -- injection Hi as <-. by apply touch_true.
      * left. exists s1. split.
        -- apply list_elem_of_In, list_elem_of_lookup. eauto.
        -- injection Hj as <-. apply touch_true.
           destruct Ht; [left; by apply overlap_sym | right; by apply near_sym].
      * right. exists i, j, s1, s2. repeat split; try done. lia.
Qed.

Lemma within_bounds_true ships w h :
  Board.are_ships_within_bounds (Board.mk ships w h) = true ↔
  ∀ s, s ∈ ships → within_board w h s.
Proof.
  unfold Board.are_ships_within_bounds, within_board. simpl.
  rewrite forallb_forall. split.
  - intros H s Hs c Hc. apply list_elem_of_In, H in Hs.
    rewrite forallb_forall in Hs.
    apply elem_of_elements, list_elem_of_In, Hs in Hc.
    rewrite !andb_true_iff, !Z.leb_le in Hc. lia.
  - intros H s Hs. apply forallb_forall. intros c Hc.
    apply list_elem_of_In in Hs. apply list_elem_of_In, elem_of_elements in Hc.
    specialize (H s Hs c Hc). rewrite !andb_true_iff, !Z.leb_le. lia.
Qed.

Lemma board_init_Ok ships width height b :
  Board.init ships width height = Ok b →
  b = Board.mk ships width height ∧ legal_layout width height ships.
Proof.
  unfold Board.init, Board.are_ships_too_close. simpl.
  destruct (Board.are_ships_within_bounds _) eqn:Hb; simpl; [| discriminate].
  pose proof (proj1 (within_bounds_true _ _ _) Hb) as Hin.
  destruct (Board.are_ships_too_close_in ships) eqn:Hc; [discriminate |].
  intros [= <-]. split; [done |]. split; [done |].
  intros i j s1 s2 Hne Hi Hj.
  assert (Hno : ¬ (overlap s1 s2 ∨ near s1 s2)).
  { intros Ht. apply not_true_iff_false in Hc. apply Hc, too_close_in_true.
    by exists i, j, s1, s2. }
  tauto.
Qed.

Lemma board_init_out_of_bounds ships width height :
  (∃ s c, s ∈ ships ∧ c ∈ Ship.cells s ∧ ¬ (1 ≤ c.1 ≤ width ∧ 1 ≤ c.2 ≤ height)) →
  Board.init ships width height = Raise ValueError.
Proof.
  intros (s & c & Hs & Hc & Hout). unfold Board.init.
  destruct (Board.are_ships_within_bounds _) eqn:Hb; [| done].
  destruct Hout. by apply (proj1 (within_bounds_true _ _ _) Hb s Hs c).
Qed.

Lemma board_init_too_close ships width height :
  (∃ (i j : nat) s1 s2, i ≠ j ∧ ships !! i = Some s1 ∧ ships !! j = Some s2 ∧
                        (overlap s1 s2 ∨ near s1 s2)) →
  (∃ e, Board.init ships width height = Raise e) ∧
  ((∀ s, s ∈ ships → within_board width height s) →
     Board.init ships width height = Raise KeyError).
Proof.
  intros Hex. apply too_close_in_true in Hex.
  unfold Board.init, Board.are_ships_too_close. cbn [Board.ships].
  destruct (Board.are_ships_within_bounds _) eqn:Hb; cbn [negb].
  - rewrite Hex. split; [by exists KeyError | done].
  - split; [by exists ValueError |].
    intros Hall. apply (proj2 (within_bounds_true _ _ _)) in Hall. congruence.
Qed.

(** C9: construction of a board raises the bounds violation when some
    ship cell is off the grid, raises the adjacency/overlap violation when
    the ships are on the grid and two of them overlap or are near each
    other, fails in any case when two ships overlap or are near, and a
    board that is returned holds the given ships and is legal. *)
Theorem board_init_rejects_illegal (ships : list Ship.t) (width height : Z) :
  ((∃ s c, s ∈ ships ∧ c ∈ Ship.cells s ∧ ¬ (1 ≤ c.1 ≤ width ∧ 1 ≤ c.2 ≤ height)) →
     Board.init ships width height = Raise ValueError) ∧
  ((∃ (i j : nat) s1 s2, i ≠ j ∧ ships !! i = Some s1 ∧ ships !! j = Some s2 ∧
                         (overlap s1 s2 ∨ near s1 s2)) →
     (∃ e, Board.init ships width height = Raise e) ∧
     ((∀ s, s ∈ ships → within_board width height s) →
        Board.init ships width height = Raise KeyError)) ∧
  (∀ b, Board.init ships width height = Ok b →
        b = Board.mk ships width height ∧ legal_layout width height ships).
Proof.
  split; [apply board_init_out_of_bounds |].
  split; [apply board_init_too_close | apply board_init_Ok].
Qed.

(** The three fleets of [tests/test_board.py] on the default 10 by 10
    board. *)
Example test_board_legal_fleet :
  ∃ ships, fleet_of test_fleet_legal = Some ships ∧
           Board.init ships 10 10 = Ok (Board.mk ships 10 10).
Proof. eexists. split; vm_compute; reflexivity. Qed.

Example test_board_out_of_map :
  ∃ ships, fleet_of test_fleet_out_of_map = Some ships ∧
           Board.init ships 10 10 = Raise ValueError.
Proof. eexists. split; vm_compute; reflexivity. Qed.

Example test_board_too_close :
  ∃ ships, fleet_of test_fleet_too_close = Some ships ∧
           Board.init ships 10 10 = Raise KeyError.
Proof. eexists. split; vm_compute; reflexivity. Qed.

Lemma board_init_rejects_illegal_witness :
  let a := Ship.mk 6 3 7 3 {[ (6, 3); (7, 3) ]} ∅ Infinity Infinity in
  let b := Ship.mk 8 3 8 3 {[ (8, 3) ]} ∅ Infinity Infinity in
  let c := Ship.mk 11 3 11 3 {[ (11, 3) ]} ∅ Infinity Infinity in
  Board.init [a; c] 10 10 = Raise ValueError ∧
  ((∃ e, Board.init [a; b] 10 10 = Raise e) ∧
   ((∀ s, s ∈ [a; b] → within_board 10 10 s) →
      Board.init [a; b] 10 10 = Raise KeyError)) ∧
  (∀ brd, Board.init [a] 10 10 = Ok brd →
          brd = Board.mk [a] 10 10 ∧ legal_layout 10 10 [a]).
Proof.
  intros a b c. split; [| split].
  - apply (board_init_rejects_illegal [a; c] 10 10).
    exists c, (11, 3). split; [set_solver |]. split; [set_solver |]. simpl. lia.
  - apply (board_init_rejects_illegal [a; b] 10 10).
    exists 0%nat, 1%nat, a, b. split; [done |]. split; [done |]. split; [done |].
    right. exists (7, 3), (8, 3). split; [set_solver |]. split; [set_solver |].
    unfold adjacent, within_one_step. simpl. split; [done | lia].
  - apply (board_init_rejects_illegal [a] 10 10).
Defined.

End board_construction.

(** * Properties of [ShipFactory] *)

Section random_source.

Lemma bind_Ok {A B} (m : R A) (k : A → R B) g b g' :
  bind m k g = Ok (b, g') → ∃ a g1, m g = Ok (a, g1) ∧ k a g1 = Ok (b, g').
Proof.
  unfold bind. destruct (m g) as [[a g1] | e |]; try discriminate. eauto.
Qed.

Lemma lift_Ok {A} (o : outcome A) g a g' :
  lift o g = Ok (a, g') → o = Ok a ∧ g' = g.
Proof. unfold lift. destruct o; try discriminate. by intros [= -> ->]. Qed.

Lemma ret_Ok {A} (a b : A) g g' : ret a g = Ok (b, g') → b = a ∧ g' = g.
Proof. by intros [= -> ->]. Qed.

Lemma randint_Ok a b g x g' :
  randint a b g = Ok (x, g') → a ≤ x ≤ b ∧ g' = advance g.
Proof.
  unfold randint. destruct (Z.ltb_spec b a); [done |]. intros [= <- <-].
  split; [| done]. pose proof (Z.mod_pos_bound (tape g (pos g)) (b - a + 1)). lia.
Qed.

Lemma generate_random_coordinates_Ok self dimension g start end_ g' :
  ShipFactory.generate_random_coordinates self dimension g = Ok ((start, end_), g') →
  candidate self dimension start end_ ∧ tape g' = tape g ∧ pos g' = (pos g + 3)%nat.
Proof.
  unfold ShipFactory.generate_random_coordinates, candidate.
  intros (v & g1 & Hv & H)%bind_Ok. apply randint_Ok in Hv as [_ ->].
  destruct (negb (v =? 0)).
  - apply bind_Ok in H as (x & g2 & Hx & H). apply randint_Ok in Hx as [Hx ->].
    apply bind_Ok in H as (y & g3 & Hy & H). apply randint_Ok in Hy as [Hy ->].
    apply ret_Ok in H as [[= -> ->] ->]. simpl.
    split; [left; lia |]. split; [done | lia].
  - apply bind_Ok in H as (x & g2 & Hx & H). apply randint_Ok in Hx as [Hx ->].
    apply bind_Ok in H as (y & g3 & Hy & H). apply randint_Ok in Hy as [Hy ->].
    apply ret_Ok in H as [[= -> ->] ->]. simpl.
    split; [right; lia |]. split; [done | lia].
Qed.

Lemma randint_cases a b g :
  (∃ x, randint a b g = Ok (x, advance g)) ∨ randint a b g = Raise ValueError.
Proof. unfold randint. destruct (b <? a); eauto. Qed.

Lemma generate_random_coordinates_fuel self dimension g :
  ShipFactory.generate_random_coordinates self dimension g ≠ OutOfFuel.
Proof.
  unfold ShipFactory.generate_random_coordinates. unfold bind at 1.
  destruct (randint_cases 0 1 g) as [[v ->] | ->]; [| done].
  destruct (negb (v =? 0)).
  - unfold bind at 1.
    destruct (randint_cases 1 (ShipFactory.board_size self).1 (advance g))
      as [[x ->] | ->]; [| done].
    unfold bind.
    destruct (randint_cases 1 ((ShipFactory.board_size self).2 - dimension + 1)
                (advance (advance g))) as [[y ->] | ->]; done.
  - unfold bind at 1.
    destruct (randint_cases 1 ((ShipFactory.board_size self).1 - dimension + 1)
                (advance g)) as [[x ->] | ->]; [| done].
    unfold bind.
    destruct (randint_cases 1 (ShipFactory.board_size self).2
                (advance (advance g))) as [[y ->] | ->]; done.
Qed.

End random_source.

Section ship_length.

Lemma size_row (x0 y0 n : Z) :
  size (list_to_set ((λ i, (x0 + i, y0)) <$> range n) : gset cell) = Z.to_nat n.
Proof.
  rewrite size_list_to_set.
  - unfold range. by rewrite length_fmap, length_seqZ.
  - apply NoDup_fmap_2_strong; [| apply NoDup_seqZ]. intros i j _ _ [= ?]. lia.
Qed.

Lemma size_column (x0 y0 n : Z) :
  size (list_to_set ((λ i, (x0, y0 + i)) <$> range n) : gset cell) = Z.to_nat n.
Proof.
  rewrite size_list_to_set.
  - unfold range. by rewrite length_fmap, length_seqZ.
  - apply NoDup_fmap_2_strong; [| apply NoDup_seqZ]. intros i j _ _ [= ?]. lia.
Qed.

(** The occupied cells number the axis distance plus one. *)
Lemma init_length start end_ v bw bh s :
  Ship.init start end_ v bw bh = Ok s →
  Ship.length s = Z.abs (start.1 - end_.1) + Z.abs (start.2 - end_.2) + 1.
Proof.
  unfold Ship.init, Ship.get_cells, Ship.length.
  destruct (v && _); [discriminate |].
  set (s0 := Ship.mk _ _ _ _ _ _ _ _).
  destruct (Ship.is_vertical s0) eqn:Hv, (Ship.is_horizontal s0) eqn:Hh;
    cbn [andb obind]; try discriminate; intros [= <-]; cbn [Ship.cells];
    try apply is_vertical_spec in Hv; try apply is_horizontal_spec in Hh;
    try apply not_true_iff_false in Hv; try apply not_true_iff_false in Hh;
    try rewrite is_vertical_spec in Hv; try rewrite is_horizontal_spec in Hh;
    simpl in Hv, Hh; cbn [Ship.x_start Ship.x_end Ship.y_start Ship.y_end s0].
  - rewrite size_singleton. lia.
  - rewrite size_column. lia.
  - rewrite size_row. lia.
Qed.

Lemma straight_length_pos s : straight s → 1 ≤ Ship.length s.
Proof.
  intros (Hx & Hy & _ & Hc). unfold Ship.length.
  assert (Hin : (Ship.x_start s, Ship.y_start s) ∈ Ship.cells s).
  { apply Hc. simpl. lia. }
  assert (size (Ship.cells s) ≠ 0%nat); [| lia].
  apply size_non_empty_iff. intros He. rewrite He in Hin. set_solver.
Qed.

Lemma straight_start_cell s : straight s → (Ship.x_start s, Ship.y_start s) ∈ Ship.cells s.
Proof. intros (Hx & Hy & _ & Hc). apply Hc. simpl. lia. Qed.

End ship_length.

Section placement_checks.

Variable self : ShipFactory.t.
Let W := (ShipFactory.board_size self).1.
Let H := (ShipFactory.board_size self).2.

Lemma is_ship_in_bound_true s :
  straight s → ShipFactory.is_ship_in_bound self s = true → within_board W H s.
Proof.
  unfold ShipFactory.is_ship_in_bound, within_board. intros (_ & _ & _ & Hc) Hb c Hin.
  apply Hc in Hin. destruct (negb _) eqn:Hn; [discriminate |].
  apply negb_false_iff in Hn. rewrite !andb_true_iff, !Z.leb_le in Hn.
  subst W H. lia.
Qed.

Lemma are_overlapping_true s1 s2 :
  ShipFactory.are_overlapping self s1 s2 = true ↔ overlap s1 s2.
Proof.
  unfold ShipFactory.are_overlapping, overlap. rewrite existsb_elements_true.
  by setoid_rewrite bool_decide_eq_true.
Qed.

Lemma check_against_true ships s :
  ShipFactory.check_against self ships s = true ↔
  ∀ ship, ship ∈ ships →
          ShipFactory.are_overlapping self ship s = false ∧
          Ship.is_near_ship ship s = false.
Proof.
  induction ships as [| ship ships IH]; simpl.
  - split; [| done]. intros _ ship Hin. by apply elem_of_nil in Hin.
  - destruct (ShipFactory.are_overlapping self ship s) eqn:Ho.
    { split; [discriminate |]. intros Hall.
      destruct (Hall ship) as [Hf _]; [left |]. congruence. }
    destruct (Ship.is_near_ship ship s) eqn:Hn.
    { split; [discriminate |]. intros Hall.
      destruct (Hall ship) as [_ Hf]; [left |]. congruence. }
    rewrite IH. split.
    + intros Hall ship' [-> | Hin]%elem_of_cons; auto.
    + intros Hall ship' Hin. apply Hall. by right.
Qed.

Lemma is_near_ship_exact ship s :
  placed_on W H ship → within_board W H ship → within_board W H s →
  (Ship.is_near_ship ship s = true ↔ near ship s).
Proof.
  intros (_ & Hbw & Hbh) Hship Hs.
  assert (Hin : ∀ d, d ∈ Ship.cells ship →
                     le_extent d.1 (Ship.board_width ship) = true ∧
                     le_extent d.2 (Ship.board_height ship) = true).
  { intros d Hd. rewrite Hbw, Hbh. simpl. rewrite !Z.leb_le.
    specialize (Hship d Hd). lia. }
  rewrite is_near_ship_true. unfold near. split.
  - intros (c & Hc & Hn). apply is_near_cell_exact in Hn; [| done | |].
    + destruct Hn as (d & Hd & Hadj). exists d, c. auto using adjacent_sym.
    + specialize (Hs c Hc). lia.
    + specialize (Hs c Hc). lia.
  - intros (d & c & Hd & Hc & Hadj). exists c. split; [done |].
    apply is_near_cell_exact; [done | | |].
    + specialize (Hs c Hc). lia.
    + specialize (Hs c Hc). lia.
    + exists d. auto using adjacent_sym.
Qed.

(** The ship placed last is in [ships], overlaps itself, and so fails the
    check: the [while] loop is entered for every ship. *)
Lemma check_coordinates_member ships s :
  straight s → s ∈ ships → ShipFactory.check_coordinates self ships (Some s) = false.
Proof.
  intros Hst Hin. unfold ShipFactory.check_coordinates.
  destruct (negb _); [done |]. apply not_true_iff_false. intros Hc.
  destruct (proj1 (check_against_true ships s) Hc s Hin) as [Ho _].
  apply not_true_iff_false in Ho. apply Ho, are_overlapping_true.
  exists (Ship.x_start s, Ship.y_start s). split; by apply straight_start_cell.
Qed.

Lemma legal_layout_snoc ships s :
  legal_layout W H ships → within_board W H s →
  (∀ ship, ship ∈ ships → ¬ overlap ship s ∧ ¬ near ship s) →
  legal_layout W H (ships ++ [s]).
Proof.
  intros [Hb Hp] Hs Hnew. split.
  - intros s' [Hin | ->%list_elem_of_singleton]%elem_of_app; auto.
  - intros i j s1 s2 Hne Hi Hj.
    apply lookup_snoc_Some in Hi as [[Hil Hi] | [Hil <-]],
                              Hj as [[Hjl Hj] | [Hjl <-]].
    + by eapply Hp.
    + apply Hnew. apply list_elem_of_lookup. eauto.
    + destruct (Hnew s2) as [Ho Hn]; [apply list_elem_of_lookup; eauto |].
      split; [intros ?%overlap_sym; done | intros ?%near_sym; done].
    + lia.
Qed.

Lemma fresh_placed_on len s : fresh self len s → placed_on W H s.
Proof.
  intros (start & end_ & _ & Hinit). apply init_Ok in Hinit.
  unfold placed_on. tauto.
Qed.

Lemma fresh_length len s : 1 ≤ len → fresh self len s → Ship.length s = len.
Proof.
  intros Hlen (start & end_ & Hc & Hinit). apply init_length in Hinit.
  rewrite Hinit. destruct Hc as [(? & ? & ? & ?) | (? & ? & ? & ?)]; lia.
Qed.

(** An accepted ship extends a legal fleet to a legal fleet. *)
Lemma fleet_inv_snoc ships len s :
  fleet_inv W H ships → fresh self len s →
  ShipFactory.check_coordinates self ships (Some s) = true →
  fleet_inv W H (ships ++ [s]).
Proof.
  intros [Hpl Hlegal] Hfresh Hcheck.
  pose proof (fresh_placed_on _ _ Hfresh) as Hs.
  unfold ShipFactory.check_coordinates in Hcheck.
  destruct (negb _) eqn:Hb; [discriminate |]. apply negb_false_iff in Hb.
  assert (Hin : within_board W H s) by (apply is_ship_in_bound_true; [apply Hs | done]).
  split.
  - intros s' [Hin' | ->%list_elem_of_singleton]%elem_of_app; auto.
  - apply legal_layout_snoc; [done.. |]. intros ship Hship.
    destruct (proj1 (check_against_true ships s) Hcheck ship Hship) as [Ho Hn].
    split.
    + intros Hov. apply are_overlapping_true in Hov. congruence.
    + intros Hnear. apply is_near_ship_exact in Hnear; [congruence | | |done].
      * by apply Hpl.
      * by apply Hlegal.
Qed.

End placement_checks.

Section generation_loops.

Variable self : ShipFactory.t.
Variable restart : R (list Ship.t).
Let W := (ShipFactory.board_size self).1.
Let H := (ShipFactory.board_size self).2.

Lemma max_iterations_eq : ShipFactory.max_iterations = 1000.
Proof. reflexivity. Qed.

Lemma place_ship_unfold rounds ships len st n :
  ShipFactory.place_ship rounds self restart ships len st n =
  if ShipFactory.check_coordinates self ships st
  then ret (ShipFactory.Continue (st, n))
  else
    match rounds with
    | O => λ _, OutOfFuel
    | S rounds =>
        let* coordinates := ShipFactory.generate_random_coordinates self len in
        let '(start, end_) := coordinates in
        let* ship_to_test := lift (Ship.init start end_ true
                                (Finite (ShipFactory.board_size self).1)
                                (Finite (ShipFactory.board_size self).2)) in
        let number_of_iterations := n + 1 in
        if ShipFactory.max_iterations <? number_of_iterations then
          let* ships := restart in
          ret (ShipFactory.Return ships)
        else
          ShipFactory.place_ship rounds self restart ships len
                                 (Some ship_to_test) number_of_iterations
    end.
Proof. by destruct rounds. Qed.

(** The [while] loop: a ship that leaves it passed the check and was
    generated in this loop, after at most [max_iterations] attempts of
    three random draws each; otherwise [max_iterations + 1] candidates
    were drawn and the result is that of the restarted generation. *)
Lemma place_ship_Ok rounds : ∀ ships len st n g r g',
  0 ≤ n ≤ ShipFactory.max_iterations →
  ShipFactory.place_ship rounds self restart ships len st n g = Ok (r, g') →
  match r with
  | ShipFactory.Continue (st', n') =>
      (∃ s, st' = Some s ∧ (st' = st ∨ fresh self len s) ∧
            ShipFactory.check_coordinates self ships (Some s) = true) ∧
      n ≤ n' ≤ ShipFactory.max_iterations ∧
      (ShipFactory.check_coordinates self ships st = false → n < n') ∧
      tape g' = tape g ∧ pos g' = (pos g + 3 * Z.to_nat (n' - n))%nat
  | ShipFactory.Return fleet =>
      ∃ g1, restart g1 = Ok (fleet, g') ∧ tape g1 = tape g ∧
            pos g1 = (pos g + 3 * Z.to_nat (ShipFactory.max_iterations + 1 - n))%nat
  end.
Proof.
  induction rounds as [| rounds IH]; intros ships len st n g r g' Hn;
    rewrite place_ship_unfold;
    destruct (ShipFactory.check_coordinates self ships st) eqn:Hcheck.
  - intros [-> ->]%ret_Ok. destruct st as [s |]; [| done].
    split; [exists s; auto |]. split; [lia |]. split; [congruence |]. split; [done |].
    replace (n - n) with 0 by lia. simpl. lia.
  - discriminate.
  - intros [-> ->]%ret_Ok. destruct st as [s |]; [| done].
    split; [exists s; auto |]. split; [lia |]. split; [congruence |]. split; [done |].
    replace (n - n) with 0 by lia. simpl. lia.
  - intros ([start end_] & g1 & Hgen & Hrest)%bind_Ok.
    apply generate_random_coordinates_Ok in Hgen as (Hcand & Htape & Hpos).
    apply bind_Ok in Hrest as (s & g2 & Hinit & Hrest).
    apply lift_Ok in Hinit as [Hinit ->]. cbv zeta in Hrest.
    destruct (Z.ltb_spec ShipFactory.max_iterations (n + 1)) as [Hcap | Hcap].
    + apply bind_Ok in Hrest as (fleet & g3 & Hre & Hrest).
      apply ret_Ok in Hrest as [-> ->].
      exists g1. split; [done |]. split; [done |].
      replace (ShipFactory.max_iterations + 1 - n) with 1 by lia. simpl. lia.
    + apply IH in Hrest; [| lia].
      * destruct r as [[st' n'] | fleet].
        -- destruct Hrest as ((s' & -> & Hor & Hch) & Hn' & _ & Ht & Hp).
           split.
           { exists s'. split; [done |]. split; [| done]. right.
             destruct Hor as [[= ->] | Hf]; [by exists start, end_ | done]. }
           split; [lia |]. split; [lia |]. split; [congruence |].
           rewrite Hp, Hpos. replace (n' - n) with (1 + (n' - (n + 1))) by lia.
           rewrite Z2Nat.inj_add by lia. simpl. lia.
        -- destruct Hrest as (g3 & Hre & Ht & Hp). exists g3.
           split; [done |]. split; [congruence |]. rewrite Hp, Hpos.
           replace (ShipFactory.max_iterations + 1 - n)
             with (1 + (ShipFactory.max_iterations + 1 - (n + 1))) by lia.
           rewrite Z2Nat.inj_add by lia. simpl. lia.
Qed.

(** The loop budget of the model is never what stops the [while] loop:
    its counter does. *)
Lemma place_ship_OutOfFuel rounds : ∀ ships len st n g,
  0 ≤ n ≤ ShipFactory.max_iterations →
  ShipFactory.max_iterations + 1 - n ≤ Z.of_nat rounds →
  ShipFactory.place_ship rounds self restart ships len st n g = OutOfFuel →
  ∃ g1, restart g1 = OutOfFuel.
Proof.
  induction rounds as [| rounds IH]; intros ships len st n g Hn Hr;
    rewrite place_ship_unfold;
    destruct (ShipFactory.check_coordinates self ships st) eqn:Hcheck; try done.
  - lia.
  - unfold bind at 1.
    destruct (ShipFactory.generate_random_coordinates self len g)
      as [[[start end_] g1] | e |] eqn:Hgen; [| done |].
    + unfold bind at 1, lift.
      destruct (Ship.init start end_ true _ _) as [s | e |] eqn:Hinit; [| done |].
      * cbv zeta.
        destruct (Z.ltb_spec ShipFactory.max_iterations (n + 1)) as [Hcap | Hcap].
        -- unfold bind. destruct (restart g1) as [[fleet g2] | e |] eqn:Hre; try done.
           intros _. by exists g1.
        -- apply IH; lia.
      * destruct (init_cases start end_ true (Finite (ShipFactory.board_size self).1)
                    (Finite (ShipFactory.board_size self).2))
          as [(_ & _ & Hi) | (_ & s & Hi)]; congruence.
    + by apply generate_random_coordinates_fuel in Hgen.
Qed.

Lemma for_ship_nb_Ok count : ∀ (len : Z) ships st g r g',
  ((0 < count)%nat → 1 ≤ len) →
  fleet_inv W H ships → (∀ s, st = Some s → s ∈ ships) →
  ShipFactory.for_ship_nb count self restart len ships st g = Ok (r, g') →
  match r with
  | ShipFactory.Continue (ships', st') =>
      fleet_inv W H ships' ∧ (∀ s, st' = Some s → s ∈ ships') ∧
      Ship.length <$> ships' = (Ship.length <$> ships) ++ replicate count len ∧
      tape g' = tape g ∧ (pos g ≤ pos g')%nat
  | ShipFactory.Return fleet =>
      ∃ g1, restart g1 = Ok (fleet, g') ∧ tape g1 = tape g ∧
            (pos g + 3 * Z.to_nat (ShipFactory.max_iterations + 1) ≤ pos g1)%nat
  end.
Proof.
  induction count as [| count IH]; intros len ships st g r g' Hlen Hinv Hst.
  - intros [-> ->]%ret_Ok. split; [done |]. split; [done |]. simpl.
    by rewrite app_nil_r.
  - cbn [ShipFactory.for_ship_nb].
    intros (r1 & g1 & Hplace & Hrest)%bind_Ok.
    apply place_ship_Ok in Hplace.
    + destruct r1 as [[st1 n1] | fleet].
      * destruct Hplace as ((s & -> & Hfresh & Hcheck) & _ & _ & Ht1 & Hp1).
        destruct Hfresh as [<- | Hfresh].
        { specialize (Hst s eq_refl).
          rewrite check_coordinates_member in Hcheck; [done | | done].
          by apply Hinv. }
        apply IH in Hrest.
        -- destruct r as [[ships' st'] | fleet].
           ++ destruct Hrest as (Hinv' & Hst' & Hlens & Ht & Hp).
              split; [done |]. split; [done |]. split; [| split; [congruence | lia]].
              rewrite Hlens, fmap_app. simpl.
              rewrite (fresh_length self len s) by (done || lia).
              by rewrite <- app_assoc.
           ++ destruct Hrest as (g2 & Hre & Ht & Hp). exists g2.
              split; [done |]. split; [congruence | lia].
        -- lia.
        -- by eapply fleet_inv_snoc.
        -- intros s' [= <-]. apply elem_of_app. right. by left.
      * apply ret_Ok in Hrest as [-> ->]. destruct Hplace as (g2 & Hre & Ht & Hp).
        exists g2. split; [done |]. split; [done |].
        rewrite Hp. replace (ShipFactory.max_iterations + 1 - 0)
          with (ShipFactory.max_iterations + 1) by lia. lia.
    + rewrite max_iterations_eq. lia.
Qed.

(** Without any assumption on the ships placed so far: a loop that ends
    in a return hands back the fleet of a restart that began after at
    least [max_iterations + 1] candidates were drawn. *)
Lemma for_ship_nb_flow count : ∀ (len : Z) ships st g r g',
  ShipFactory.for_ship_nb count self restart len ships st g = Ok (r, g') →
  match r with
  | ShipFactory.Continue _ => tape g' = tape g ∧ (pos g ≤ pos g')%nat
  | ShipFactory.Return fleet =>
      ∃ g1, restart g1 = Ok (fleet, g') ∧ tape g1 = tape g ∧
            (pos g + 3 * Z.to_nat (ShipFactory.max_iterations + 1) ≤ pos g1)%nat
  end.
Proof.
  induction count as [| count IH]; intros len ships st g r g'.
  - by intros [-> ->]%ret_Ok.
  - cbn [ShipFactory.for_ship_nb].
    intros (r1 & g1 & Hplace & Hrest)%bind_Ok.
    apply place_ship_Ok in Hplace; [| rewrite max_iterations_eq; lia].
    destruct r1 as [[st1 n1] | fleet].
    + destruct Hplace as ((s & -> & _) & _ & _ & Ht1 & Hp1).
      apply IH in Hrest. destruct r as [locals | fleet].
      * destruct Hrest as [Ht Hp]. split; [congruence | lia].
      * destruct Hrest as (g2 & Hre & Ht & Hp). exists g2.
        split; [done |]. split; [congruence | lia].
    + apply ret_Ok in Hrest as [-> ->]. destruct Hplace as (g2 & Hre & Ht & Hp).
      exists g2. split; [done |]. split; [done |].
      rewrite Hp. replace (ShipFactory.max_iterations + 1 - 0)
        with (ShipFactory.max_iterations + 1) by lia. lia.
Qed.

Lemma for_items_flow items : ∀ ships st g r g',
  ShipFactory.for_items items self restart ships st g = Ok (r, g') →
  match r with
  | ShipFactory.Continue _ => tape g' = tape g ∧ (pos g ≤ pos g')%nat
  | ShipFactory.Return fleet =>
      ∃ g1, restart g1 = Ok (fleet, g') ∧ tape g1 = tape g ∧
            (pos g + 3 * Z.to_nat (ShipFactory.max_iterations + 1) ≤ pos g1)%nat
  end.
Proof.
  induction items as [| [len n] items IH]; intros ships st g r g'.
  - by intros [-> ->]%ret_Ok.
  - cbn [ShipFactory.for_items].
    intros (r1 & g1 & Hnb & Hrest)%bind_Ok.
    apply for_ship_nb_flow in Hnb.
    destruct r1 as [[ships1 st1] | fleet].
    + destruct Hnb as [Ht1 Hp1]. apply IH in Hrest. destruct r as [locals | fleet].
      * destruct Hrest as [Ht Hp]. split; [congruence | lia].
      * destruct Hrest as (g2 & Hre & Ht & Hp). exists g2.
        split; [done |]. split; [congruence | lia].
    + apply ret_Ok in Hrest as [-> ->]. done.
Qed.

Lemma for_items_Ok items : ∀ ships st g r g',
  (∀ len n, (len, n) ∈ items → 0 < n → 1 ≤ len) →
  fleet_inv W H ships → (∀ s, st = Some s → s ∈ ships) →
  ShipFactory.for_items items self restart ships st g = Ok (r, g') →
  match r with
  | ShipFactory.Continue (ships', st') =>
      fleet_inv W H ships' ∧
      Ship.length <$> ships' = (Ship.length <$> ships) ++ requested_lengths items ∧
      tape g' = tape g ∧ (pos g ≤ pos g')%nat
  | ShipFactory.Return fleet =>
      ∃ g1, restart g1 = Ok (fleet, g') ∧ tape g1 = tape g ∧
            (pos g + 3 * Z.to_nat (ShipFactory.max_iterations + 1) ≤ pos g1)%nat
  end.
Proof.
  induction items as [| [len n] items IH]; intros ships st g r g' Hpos Hinv Hst.
  - intros [-> ->]%ret_Ok. split; [done |]. simpl. by rewrite app_nil_r.
  - cbn [ShipFactory.for_items].
    intros (r1 & g1 & Hnb & Hrest)%bind_Ok.
    apply for_ship_nb_Ok in Hnb; [| | done..].
    + destruct r1 as [[ships1 st1] | fleet].
      * destruct Hnb as (Hinv1 & Hst1 & Hlens1 & Ht1 & Hp1).
        apply IH in Hrest; [| | done..].
        -- destruct r as [[ships' st'] | fleet].
           ++ destruct Hrest as (Hinv' & Hlens & Ht & Hp). split; [done |].
              split; [| split; [congruence | lia]].
              rewrite Hlens, Hlens1. simpl. by rewrite <- app_assoc.
           ++ destruct Hrest as (g2 & Hre & Ht & Hp). exists g2.
              split; [done |]. split; [congruence | lia].
        -- intros len' n' Hin. apply Hpos. by right.
      * apply ret_Ok in Hrest as [-> ->]. done.
    + intros Hn. apply (Hpos len n); [by left | lia].
Qed.

End generation_loops.

Section generation_restarts.

Variable self : ShipFactory.t.
Variable restart : R (list Ship.t).
Let W := (ShipFactory.board_size self).1.
Let H := (ShipFactory.board_size self).2.

(** A ship that fits the board both ways can always be proposed. *)
Lemma generate_random_coordinates_fits len g :
  1 ≤ len ≤ W → len ≤ H →
  ∃ start end_ g',
    ShipFactory.generate_random_coordinates self len g = Ok ((start, end_), g').
Proof.
  intros Hw Hh.
  unfold ShipFactory.generate_random_coordinates, bind, randint, ret. fold W H.
  simpl. destruct (negb _).
  - destruct (Z.ltb_spec W 1); [lia |].
    destruct (Z.ltb_spec (H - len + 1) 1); [lia |]. eauto.
  - destruct (Z.ltb_spec (W - len + 1) 1); [lia |].
    destruct (Z.ltb_spec H 1); [lia |]. eauto.
Qed.

Lemma rng_eta g t p : tape g = t → pos g = p → g = mkRNG t p.
Proof. destruct g. simpl. by intros -> ->. Qed.

(** The [while] loop either leaves with an accepted ship or, after
    [max_iterations + 1] candidates, is the [return] of the restart. *)
Lemma place_ship_total rounds : ∀ ships len st n g,
  1 ≤ len ≤ W → len ≤ H →
  0 ≤ n ≤ ShipFactory.max_iterations →
  ShipFactory.max_iterations + 1 - n ≤ Z.of_nat rounds →
  (∃ r g', ShipFactory.place_ship rounds self restart ships len st n g =
           Ok (ShipFactory.Continue r, g')) ∨
  ShipFactory.place_ship rounds self restart ships len st n g =
  returns_restart restart
    (mkRNG (tape g) (pos g + 3 * Z.to_nat (ShipFactory.max_iterations + 1 - n))).
Proof.
  induction rounds as [| rounds IH]; intros ships len st n g Hw Hh Hn Hr;
    destruct (ShipFactory.check_coordinates self ships st) eqn:Hcheck;
    try (left; rewrite place_ship_unfold, Hcheck; by eauto).
  - lia.
  - destruct (generate_random_coordinates_fits len g Hw Hh)
      as (start & end_ & g1 & Hgen).
    pose proof (generate_random_coordinates_Ok _ _ _ _ _ _ Hgen) as (Hcand & Ht & Hp).
    destruct (init_cases start end_ true (Finite (ShipFactory.board_size self).1)
                (Finite (ShipFactory.board_size self).2))
      as [(Hx & Hy & _) | (_ & s & Hinit)].
    { destruct Hcand as [(? & _) | (? & _)]; done. }
    assert (Hbody :
      ShipFactory.place_ship (S rounds) self restart ships len st n g =
      if ShipFactory.max_iterations <? n + 1
      then returns_restart restart g1
      else ShipFactory.place_ship rounds self restart ships len (Some s) (n + 1) g1).
    { rewrite place_ship_unfold, Hcheck. unfold bind at 1. rewrite Hgen.
      cbv beta iota. unfold bind at 1, lift. rewrite Hinit. cbv beta iota zeta.
      by destruct (ShipFactory.max_iterations <? n + 1). }
    rewrite Hbody.
    destruct (Z.ltb_spec ShipFactory.max_iterations (n + 1)) as [Hcap | Hcap].
    + right. f_equal. apply rng_eta; [done |].
      rewrite Hp. replace (ShipFactory.max_iterations + 1 - n) with 1 by lia. simpl. lia.
    + destruct (IH ships len (Some s) (n + 1) g1 Hw Hh ltac:(lia) ltac:(lia))
        as [Hcont | Hre]; [by left |].
      right. rewrite Hre. f_equal. rewrite Ht. f_equal. rewrite Hp.
      replace (ShipFactory.max_iterations + 1 - n)
        with (1 + (ShipFactory.max_iterations + 1 - (n + 1))) by lia.
      rewrite Z2Nat.inj_add by lia. simpl (Z.to_nat 1). lia.
Qed.


Lemma bind_returns_restart {L L'} (m : R (ShipFactory.flow L))
    (k : ShipFactory.flow L → R (ShipFactory.flow L')) g g1 :
  (∀ fleet, k (ShipFactory.Return fleet) = ret (ShipFactory.Return fleet)) →
  m g = returns_restart restart g1 →
  bind m k g = returns_restart restart g1.
Proof.
  intros Hk Hm. unfold bind at 1. rewrite Hm. unfold returns_restart, bind.
  destruct (restart g1) as [[fleet g2] | e |]; [| done..].
  unfold ret at 1. by rewrite Hk.
Qed.

Lemma for_ship_nb_total count : ∀ len ships st g,
  ((0 < count)%nat → 1 ≤ len ≤ W ∧ len ≤ H) →
  (∃ r g', ShipFactory.for_ship_nb count self restart len ships st g =
           Ok (ShipFactory.Continue r, g')) ∨
  (∃ g1, tape g1 = tape g ∧ (pos g + 3 * 1001 ≤ pos g1)%nat ∧
         ShipFactory.for_ship_nb count self restart len ships st g =
         returns_restart restart g1).
Proof.
  induction count as [| count IH]; intros len ships st g Hfit; [left; by eauto |].
  destruct (Hfit ltac:(lia)) as [Hw Hh].
  destruct (place_ship_total (Z.to_nat (ShipFactory.max_iterations + 1))
              ships len st 0 g Hw Hh) as [([st' n'] & g' & Hrun) | Hre].
  - rewrite max_iterations_eq. lia.
  - rewrite max_iterations_eq. lia.
  - pose proof Hrun as Hplace.
    apply place_ship_Ok in Hplace; [| rewrite max_iterations_eq; lia].
    destruct Hplace as ((s & -> & _) & _ & _ & Ht & Hp).
    assert (Hbody :
      ShipFactory.for_ship_nb (S count) self restart len ships st g =
      ShipFactory.for_ship_nb count self restart len (ships ++ [s]) (Some s) g').
    { cbn [ShipFactory.for_ship_nb]. unfold bind at 1. by rewrite Hrun. }
    rewrite Hbody.
    destruct (IH len (ships ++ [s]) (Some s) g' (λ _, conj Hw Hh))
      as [Hcont | (g1 & Ht1 & Hp1 & Hre)]; [by left |].
    right. exists g1. split; [congruence |]. split; [lia | done].
  - right. exists (mkRNG (tape g) (pos g + 3 * 1001)). split; [| split].
    + reflexivity.
    + cbn [pos]. lia.
    + cbn [ShipFactory.for_ship_nb]. by apply bind_returns_restart.
Qed.

Lemma for_items_total items : ∀ ships st g,
  (∀ len n, (len, n) ∈ items → 0 < n → 1 ≤ len ≤ W ∧ len ≤ H) →
  (∃ r g', ShipFactory.for_items items self restart ships st g =
           Ok (ShipFactory.Continue r, g')) ∨
  (∃ g1, tape g1 = tape g ∧ (pos g + 3 * 1001 ≤ pos g1)%nat ∧
         ShipFactory.for_items items self restart ships st g =
         returns_restart restart g1).
Proof.
  induction items as [| [len n] items IH]; intros ships st g Hfit; [left; by eauto |].
  destruct (for_ship_nb_total (Z.to_nat n) len ships st g)
    as [([ships1 st1] & g' & Hrun) | (g1 & Ht1 & Hp1 & Hre)].
  - intros Hn. apply (Hfit len n); [by left | lia].
  - pose proof (for_ship_nb_flow _ _ _ _ _ _ _ _ _ Hrun) as [Ht Hp].
    assert (Hbody :
      ShipFactory.for_items ((len, n) :: items) self restart ships st g =
      ShipFactory.for_items items self restart ships1 st1 g').
    { cbn [ShipFactory.for_items]. unfold bind at 1. by rewrite Hrun. }
    rewrite Hbody.
    destruct (IH ships1 st1 g') as [Hcont | (g1 & Ht1 & Hp1 & Hre)]; [| by left |].
    + intros len' n' Hin. apply Hfit. by right.
    + right. exists g1. split; [congruence |]. split; [lia | done].
  - right. exists g1. split; [done |]. split; [done |].
    cbn [ShipFactory.for_items]. by apply bind_returns_restart.
Qed.

End generation_restarts.

Section fleet_generation.

Variable self : ShipFactory.t.
Let W := (ShipFactory.board_size self).1.
Let H := (ShipFactory.board_size self).2.

Lemma fleet_inv_nil : fleet_inv W H [].
Proof.
  split; [intros s Hs; by apply elem_of_nil in Hs |]. split.
  - intros s Hs. by apply elem_of_nil in Hs.
  - intros i j s1 s2 _ Hi. done.
Qed.

Lemma generate_ships_Ok fuel : ∀ g fleet g',
  (∀ len n, (len, n) ∈ ShipFactory.ships_per_length self → 0 < n → 1 ≤ len) →
  ShipFactory.generate_ships fuel self g = Ok (fleet, g') →
  fleet_inv W H fleet ∧
  Ship.length <$> fleet = requested_lengths (ShipFactory.ships_per_length self).
Proof.
  induction fuel as [| fuel IH]; intros g fleet g' Hpos; [done |].
  cbn [ShipFactory.generate_ships].
  intros (r & g1 & Hloop & Hret)%bind_Ok.
  apply for_items_Ok in Hloop; [| done | apply fleet_inv_nil | done].
  destruct r as [[ships st] | fl].
  - apply ret_Ok in Hret as [-> ->]. tauto.
  - apply ret_Ok in Hret as [-> ->]. destruct Hloop as (g2 & Hre & _). by eapply IH.
Qed.

Lemma count_length_fmap len fleet :
  count_length len fleet =
  Z.of_nat (List.length (filter (λ x, x = len) (Ship.length <$> fleet))).
Proof.
  unfold count_length. f_equal.
  induction fleet as [| s fleet IH]; [done |].
  rewrite fmap_cons, !filter_cons. destruct (decide (Ship.length s = len)); simpl; lia.
Qed.

Lemma count_replicate (len x : Z) (k : nat) :
  List.length (filter (λ y, y = len) (replicate k x)) = if decide (x = len) then k else 0%nat.
Proof.
  induction k as [| k IH]; simpl; [by destruct (decide _) |].
  rewrite filter_cons. destruct (decide (x = len)); simpl; lia.
Qed.

Lemma count_requested_absent len items :
  len ∉ items.*1 →
  List.length (filter (λ y, y = len) (requested_lengths items)) = 0%nat.
Proof.
  induction items as [| [l n] items IH]; [done |].
  rewrite fmap_cons, not_elem_of_cons. simpl. intros [Hne Hnot].
  rewrite filter_app, length_app, IH, count_replicate by done.
  rewrite decide_False by done. done.
Qed.

Lemma count_requested len n items :
  NoDup items.*1 → (len, n) ∈ items →
  List.length (filter (λ y, y = len) (requested_lengths items)) = Z.to_nat n.
Proof.
  induction items as [| [l k] items IH]; [intros _ Hin; by apply elem_of_nil in Hin |].
  rewrite fmap_cons, NoDup_cons. simpl. intros [Hfresh Hnd] Hin.
  rewrite filter_app, length_app, count_replicate.
  apply elem_of_cons in Hin as [[= <- <-] | Hin].
  - rewrite decide_True by done. rewrite count_requested_absent by done. lia.
  - rewrite decide_False.
    + rewrite IH by done. lia.
    + intros ->. apply Hfresh. apply list_elem_of_fmap. by exists (len, n).
Qed.

Lemma elem_of_requested_lengths len items :
  len ∈ requested_lengths items → ∃ n, (len, n) ∈ items.
Proof.
  induction items as [| [l k] items IH]; simpl; [intros Hin; by apply elem_of_nil in Hin |].
  intros [Hin | Hin]%elem_of_app.
  - apply elem_of_replicate in Hin as [-> _]. exists k. by left.
  - destruct (IH Hin) as [n Hn]. exists n. by right.
Qed.

Lemma feasible_lengths :
  feasible self →
  ∀ len n, (len, n) ∈ ShipFactory.ships_per_length self → 0 ≤ n ∧ (0 < n → 1 ≤ len).
Proof.
  intros (layout & Hst & _ & Hcount) len n Hin. specialize (Hcount len n Hin).
  unfold count_length in Hcount. split; [lia |]. intros Hn.
  destruct (filter (λ s, Ship.length s = len) layout) as [| s rest] eqn:Hf;
    [simpl in Hcount; lia |].
  assert (Hs : s ∈ filter (λ s, Ship.length s = len) layout) by (rewrite Hf; by left).
  apply list_elem_of_filter in Hs as [<- Hs]. by apply straight_length_pos, Hst.
Qed.

(** C1: for a mapping from ship length to count and board dimensions for
    which a legal layout exists, every list of ships that
    [generate_ships] returns has exactly the requested number of ships
    of each requested length and no others, every occupied cell is on
    the board, and no two distinct ships share a cell or are near each
    other. *)
Theorem generate_ships_legal (fuel : nat) (g g' : RNG) (fleet : list Ship.t)
    (Hdict : NoDup (ShipFactory.ships_per_length self).*1)
    (Hfeasible : feasible self)
    (Hrun : ShipFactory.generate_ships fuel self g = Ok (fleet, g')) :
  (∀ len n, (len, n) ∈ ShipFactory.ships_per_length self → count_length len fleet = n) ∧
  (∀ s, s ∈ fleet → ∃ n, (Ship.length s, n) ∈ ShipFactory.ships_per_length self) ∧
  (∀ s c, s ∈ fleet → c ∈ Ship.cells s → 1 ≤ c.1 ≤ W ∧ 1 ≤ c.2 ≤ H) ∧
  (∀ (i j : nat) s1 s2, i ≠ j → fleet !! i = Some s1 → fleet !! j = Some s2 →
     (¬ ∃ c, c ∈ Ship.cells s1 ∧ c ∈ Ship.cells s2) ∧
     (¬ ∃ c d, c ∈ Ship.cells s1 ∧ d ∈ Ship.cells s2 ∧ c ≠ d ∧ within_one_step c d)).
Proof.
  pose proof (feasible_lengths Hfeasible) as Hlen.
  apply generate_ships_Ok in Hrun as [[_ [Hin Hpair]] Hlens].
  2:{ intros len n Hi. by apply Hlen. }
  split; [| split; [| split]].
  - intros len n Hi. rewrite count_length_fmap, Hlens, (count_requested len n) by done.
    destruct (Hlen len n Hi). lia.
  - intros s Hs. apply elem_of_requested_lengths. rewrite <- Hlens.
    apply list_elem_of_fmap. by exists s.
  - intros s c Hs Hc. by apply (Hin s Hs c).
  - intros i j s1 s2 Hne Hi Hj. apply (Hpair i j s1 s2 Hne Hi Hj).
Qed.

End fleet_generation.

Section fleet_generation_run.

Lemma two_ship_feasible : feasible two_ship_factory.
Proof.
  exists two_ship_layout. split; [| split].
  - intros s Hs. unfold two_ship_layout in Hs.
    apply elem_of_cons in Hs as [-> | Hs];
      [| apply list_elem_of_singleton in Hs as ->].
    + apply (init_straight (1, 1) (2, 1) true (Finite 10) (Finite 10)).
      vm_compute. reflexivity.
    + apply (init_straight (5, 5) (5, 7) true (Finite 10) (Finite 10)).
      vm_compute. reflexivity.
  - apply (board_init_Ok two_ship_layout 10 10 (Board.mk two_ship_layout 10 10)).
    vm_compute. reflexivity.
  - intros len n Hin. unfold two_ship_factory in Hin. cbn in Hin.
    apply elem_of_cons in Hin as [[= -> ->] | Hin];
      [| apply list_elem_of_singleton in Hin as [= -> ->]];
      vm_compute; reflexivity.
Qed.

Lemma two_ship_keys : NoDup (ShipFactory.ships_per_length two_ship_factory).*1.
Proof. cbn. apply NoDup_cons. split; [set_solver |]. apply NoDup_singleton. Qed.

Lemma generate_ships_legal_witness :
  ∃ fleet g',
    ShipFactory.generate_ships 3 two_ship_factory (mkRNG sample_tape 0) = Ok (fleet, g') ∧
    (∀ len n, (len, n) ∈ ShipFactory.ships_per_length two_ship_factory →
              count_length len fleet = n) ∧
    (∀ s, s ∈ fleet →
          ∃ n, (Ship.length s, n) ∈ ShipFactory.ships_per_length two_ship_factory) ∧
    (∀ s c, s ∈ fleet → c ∈ Ship.cells s → 1 ≤ c.1 ≤ 10 ∧ 1 ≤ c.2 ≤ 10) ∧
    (∀ (i j : nat) s1 s2, i ≠ j → fleet !! i = Some s1 → fleet !! j = Some s2 →
       (¬ ∃ c, c ∈ Ship.cells s1 ∧ c ∈ Ship.cells s2) ∧
       (¬ ∃ c d, c ∈ Ship.cells s1 ∧ d ∈ Ship.cells s2 ∧ c ≠ d ∧ within_one_step c d)).
Proof.
  destruct (ShipFactory.generate_ships 3 two_ship_factory (mkRNG sample_tape 0))
    as [[fleet g'] | e |] eqn:Hrun.
  - exists fleet, g'. split; [reflexivity |].
    exact (generate_ships_legal two_ship_factory 3 (mkRNG sample_tape 0) g' fleet
             two_ship_keys two_ship_feasible Hrun).
  - exfalso. vm_compute in Hrun. discriminate Hrun.
  - exfalso. vm_compute in Hrun. discriminate Hrun.
Defined.

Example two_ship_run :
  (λ o, match o with
        | Ok (fleet, g') =>
            Some ((λ s, (Ship.x_start s, Ship.y_start s, Ship.x_end s, Ship.y_end s))
                    <$> fleet, pos g')
        | _ => None
        end)
    (ShipFactory.generate_ships 3 two_ship_factory (mkRNG sample_tape 0)) =
  Some ([(6, 4, 7, 4); (8, 7, 10, 7)], 6%nat).
Proof. vm_compute. reflexivity. Qed.

End fleet_generation_run.

Section retry_cap.

(** A call of [generate_ships] whose requested lengths fit the board
    either runs its loops to the end or is the nested call. *)
Lemma generate_ships_total (self : ShipFactory.t) fuel g :
  (∀ len n, (len, n) ∈ ShipFactory.ships_per_length self → 0 < n → 1 ≤ len ≤ (ShipFactory.board_size self).1 ∧
                len ≤ (ShipFactory.board_size self).2) →
  (∃ fleet st g',
     ShipFactory.for_items (ShipFactory.ships_per_length self) self
       (ShipFactory.generate_ships fuel self) [] None g =
     Ok (ShipFactory.Continue (fleet, st), g') ∧
     ShipFactory.generate_ships (S fuel) self g = Ok (fleet, g')) ∨
  (∃ g1, tape g1 = tape g ∧ (pos g + 3 * 1001 ≤ pos g1)%nat ∧
         ShipFactory.generate_ships (S fuel) self g =
         ShipFactory.generate_ships fuel self g1).
Proof.
  intros Hfit. cbn [ShipFactory.generate_ships].
  destruct (for_items_total self (ShipFactory.generate_ships fuel self)
              (ShipFactory.ships_per_length self) [] None g Hfit)
    as [([fleet st] & g' & Hrun) | (g1 & Ht1 & Hp1 & Hre)].
  - left. exists fleet, st, g'. split; [done |]. unfold bind. by rewrite Hrun.
  - right. exists g1. split; [done |]. split; [done |].
    unfold bind at 1. rewrite Hre. unfold returns_restart, bind.
    by destruct (ShipFactory.generate_ships fuel self g1) as [[fleet g2] | e |].
Qed.



End retry_cap.

(** * Properties of [AutomaticPlayer] *)

Section target_selection.

Variable self : AutomaticPlayer.t.
Let W := AutomaticPlayer.board_width self.
Let H := AutomaticPlayer.board_height self.

Lemma is_it_within_bounds_true c :
  AutomaticPlayer.is_it_within_bounds self c = true ↔ 1 ≤ c.1 ≤ W ∧ 1 ≤ c.2 ≤ H.
Proof.
  unfold AutomaticPlayer.is_it_within_bounds. rewrite !andb_true_iff, !Z.leb_le.
  subst W H. lia.
Qed.

(** In a hunt around one hit only the four direct neighbours are listed. *)
Lemma hunt_neighbours_adjacent4 (hit c : cell) :
  c ∈ AutomaticPlayer.get_neighbours self hit true → adjacent4 c hit.
Proof.
  unfold AutomaticPlayer.get_neighbours, appended, adjacent4.
  destruct c as [a b], hit as [x y]. simpl.
  destruct (x <=? _), (y <=? _), (2 <=? x), (2 <=? y); simpl;
    rewrite ?elem_of_cons, ?elem_of_nil, ?cell_eq; lia.
Qed.

(** What the [while] loop of [generate_random_target] guarantees of the
    cell it leaves with. *)
Lemma draw_target_Ok fuel depth sunk hunt hits : ∀ g c g',
  AutomaticPlayer.draw_target fuel depth self sunk hunt hits g = Ok (c, g') →
  (c ∉ AutomaticPlayer.tracker self) ∧
  AutomaticPlayer.is_it_within_bounds self c = true ∧
  (sunk = true → AutomaticPlayer.is_close_to_ship self c = false) ∧
  (hunt = true →
     ∃ random_cell g1 g2,
       AutomaticPlayer.hunting_cell depth self random_cell hits g1 = Ok ((true, c), g2)).
Proof.
  induction fuel as [| fuel IH]; intros g c g'; [done |].
  cbn [AutomaticPlayer.draw_target].
  intros (rc & g1 & Hrc & Hrest)%bind_Ok.
  apply bind_Ok in Hrest as ([is_hunting rc'] & g2 & Hhunt & Hrest).
  destruct (bool_decide (rc' ∈ AutomaticPlayer.tracker self)) eqn:Hatt;
    [(by apply IH in Hrest) |].
  destruct (if sunk then AutomaticPlayer.is_close_to_ship self rc' else false) eqn:Hclose;
    [(by apply IH in Hrest) |].
  destruct is_hunting; [| by apply IH in Hrest].
  destruct (AutomaticPlayer.is_it_within_bounds self rc') eqn:Hin;
    [| by apply IH in Hrest].
  cbn in Hrest. apply ret_Ok in Hrest as [-> ->].
  split; [by apply bool_decide_eq_false in Hatt |]. split; [done |]. split.
  - intros ->. done.
  - intros ->. eexists _, _, _. exact Hhunt.
Qed.

Lemma select_target_Ok fuel depth g c self' g' :
  AutomaticPlayer.select_target fuel depth self g = Ok ((c, self'), g') →
  ∃ hunt hits g1,
    AutomaticPlayer.is_there_a_hunt self = Ok (hunt, hits) ∧
    AutomaticPlayer.draw_target fuel depth self
      (AutomaticPlayer.are_there_sunken_ships self) hunt hits g1 = Ok (c, g') ∧
    self' = AutomaticPlayer.mk W H (AutomaticPlayer.tracker self ∪ {[ c ]})
              (AutomaticPlayer.sunken_ships self)
              (AutomaticPlayer.successful_hits self) (Some c).
Proof.
  unfold AutomaticPlayer.select_target, AutomaticPlayer.generate_random_target.
  intros ([c1 p1] & g1 & Hgen & Hret)%bind_Ok.
  apply ret_Ok in Hret as [[= -> ->] ->].
  apply bind_Ok in Hgen as ([hunt hits] & g2 & Hhunt & Hgen).
  apply lift_Ok in Hhunt as [Hhunt ->].
  apply bind_Ok in Hgen as (rc & g3 & Hdraw & Hret).
  apply ret_Ok in Hret as [[= -> ->] ->].
  exists hunt, hits, g. done.
Qed.

End target_selection.

Section single_open_hit.

(** C3: when exactly one open hit is recorded, the cell [select_target]
    returns is a 4-directional neighbour of that hit, lies within the
    board and was not attacked before; it is then recorded as attacked
    and as the last target. *)
Theorem select_target_next_to_single_hit
    (self self' : AutomaticPlayer.t) (fuel depth : nat) (g g' : RNG) (hit c : cell)
    (Hopen : open_hits self = Ok [Some hit])
    (Hrun : AutomaticPlayer.select_target fuel depth self g = Ok ((c, self'), g')) :
  adjacent4 c hit ∧
  (1 ≤ c.1 ≤ AutomaticPlayer.board_width self ∧
   1 ≤ c.2 ≤ AutomaticPlayer.board_height self) ∧
  (c ∉ AutomaticPlayer.tracker self) ∧
  AutomaticPlayer.tracker self' = AutomaticPlayer.tracker self ∪ {[ c ]} ∧
  AutomaticPlayer.last_target self' = Some c.
Proof.
  apply select_target_Ok in Hrun as (hunt & hits & g1 & Hhunt & Hdraw & ->).
  unfold open_hits in Hopen. rewrite Hhunt in Hopen. injection Hopen as ->.
  assert (hunt = true) as ->.
  { unfold AutomaticPlayer.is_there_a_hunt in Hhunt.
    destruct (if bool_decide _ then _ else _) as [l | |]; try discriminate.
    by injection Hhunt as <- ->. }
  apply draw_target_Ok in Hdraw as (Hfresh & Hin & _ & Hh).
  destruct (Hh eq_refl) as (rc & g2 & g3 & Hcell).
  unfold AutomaticPlayer.hunting_cell in Hcell.
  rewrite bool_decide_eq_false_2 in Hcell by (simpl; lia).
  case_bool_decide as Hn; apply ret_Ok in Hcell as [[= <-] _].
  split; [by eapply hunt_neighbours_adjacent4 |].
  split; [by apply is_it_within_bounds_true |]. done.
Qed.

Lemma select_target_next_to_single_hit_witness :
  ∃ self' g',
    open_hits one_hit_player = Ok [Some (1, 10)] ∧
    AutomaticPlayer.select_target 500 50 one_hit_player (mkRNG sample_tape 2) =
      Ok (((1, 9), self'), g') ∧
    adjacent4 (1, 9) (1, 10) ∧
    (1 ≤ (1, 9).1 ≤ AutomaticPlayer.board_width one_hit_player ∧
     1 ≤ (1, 9).2 ≤ AutomaticPlayer.board_height one_hit_player) ∧
    ((1, 9) ∉ AutomaticPlayer.tracker one_hit_player) ∧
    AutomaticPlayer.tracker self' = AutomaticPlayer.tracker one_hit_player ∪ {[ (1, 9) ]} ∧
    AutomaticPlayer.last_target self' = Some (1, 9).
Proof.
  assert (Hopen : open_hits one_hit_player = Ok [Some (1, 10)])
    by (vm_compute; reflexivity).
  destruct (AutomaticPlayer.select_target 500 50 one_hit_player (mkRNG sample_tape 2))
    as [[[c self'] g'] | e |] eqn:Hrun.
  - assert (c = (1, 9)) as ->.
    { apply (f_equal (λ o, match o with Ok (c, _, _) => c | _ => (0, 0) end)) in Hrun.
      vm_compute in Hrun. congruence. }
    exists self', g'. split; [exact Hopen |]. split; [reflexivity |].
    exact (select_target_next_to_single_hit one_hit_player self' 500 50
             (mkRNG sample_tape 2) g' (1, 10) (1, 9) Hopen Hrun).
  - exfalso. vm_compute in Hrun. discriminate Hrun.
  - exfalso. vm_compute in Hrun. discriminate Hrun.
Defined.

End single_open_hit.

Section player_memory.

Lemma ofold_ind {A B} (f : B → A → outcome B) (P : B → Prop) (l : list A) :
  (∀ b a b', a ∈ l → P b → f b a = Ok b' → P b') →
  ∀ b b', P b → ofold f l b = Ok b' → P b'.
Proof.
  induction l as [| a l IH]; intros Hstep b b' Hb; simpl.
  - by intros [= <-].
  - destruct (f b a) as [b1 | e |] eqn:Hf; simpl; try discriminate.
    apply IH.
    + intros b0 a0 b0' Hin. apply Hstep. by right.
    + eapply Hstep; [by left | exact Hb | exact Hf].
Qed.

(** The flood fill over the recorded hits collects recorded hits only. *)
Lemma get_all_cells_hits self depth : ∀ c e l,
  AutomaticPlayer.get_all_cells depth self c e = Ok l →
  ∀ x, x ∈ l → Some x ∈ AutomaticPlayer.successful_hits self.
Proof.
  induction depth as [| depth IH]; intros c e l; [done |].
  cbn [AutomaticPlayer.get_all_cells].
  apply (ofold_ind _ (λ l, ∀ x, x ∈ l → Some x ∈ AutomaticPlayer.successful_hits self)).
  - intros acc n acc' _ Hacc. case_bool_decide as Hhit; simpl.
    + destruct (negb _).
      * destruct (AutomaticPlayer.get_all_cells depth self n (Some c)) as [new | |] eqn:Hnew;
          simpl; try discriminate.
        intros [= <-] x [[Hx | ->%list_elem_of_singleton]%elem_of_app | Hx]%elem_of_app;
          eauto.
      * by intros [= <-].
    + by intros [= <-].
  - intros x Hx. by apply elem_of_nil in Hx.
Qed.

Lemma extremity_fold_members (coord : cell → Z) (l : list cell) :
  ∀ mn mx st en mn' mx' st' en',
    foldl (AutomaticPlayer.extremity_step coord) (mn, mx, st, en) l = (mn', mx', st', en') →
    (∀ x, st' = Some x → st = Some x ∨ x ∈ l) ∧
    (∀ x, en' = Some x → en = Some x ∨ x ∈ l).
Proof.
  induction l as [| c l IH]; intros mn mx st en mn' mx' st' en'; simpl.
  - intros [= <- <- <- <-]. auto.
  - destruct (coord c <? mn), (mx <? coord c); intros Hf; apply IH in Hf as [Hs He];
      (split; intros x Hx; [apply Hs in Hx | apply He in Hx]);
      destruct Hx as [Hx | Hx]; try (right; by right); try (by left);
      injection Hx as <-; right; by left.
Qed.

Lemma find_start_and_end_members self depth c start end_ :
  AutomaticPlayer.find_start_and_end depth self c = Ok (Some start, Some end_) →
  (start = c ∨ Some start ∈ AutomaticPlayer.successful_hits self) ∧
  (end_ = c ∨ Some end_ ∈ AutomaticPlayer.successful_hits self).
Proof.
  unfold AutomaticPlayer.find_start_and_end.
  destruct (AutomaticPlayer.get_all_cells depth self c (Some c)) as [l | |] eqn:Hl;
    simpl; try discriminate.
  pose proof (get_all_cells_hits _ _ _ _ _ Hl) as Hhits.
  case_bool_decide; [intros [= <- <-]; auto |].
  destruct (AutomaticPlayer.is_this_ship_vertical self (l ++ [c])) as [v | |];
    simpl; try discriminate.
  assert (Hmem : ∀ x, x ∈ l ++ [c] → x = c ∨ Some x ∈ AutomaticPlayer.successful_hits self).
  { intros x [Hx | ->%list_elem_of_singleton]%elem_of_app; auto. }
  destruct v.
  - destruct (foldl _ _ _) as [[[mn mx] st] en] eqn:Hf. intros [= -> ->].
    apply extremity_fold_members in Hf as [Hs He].
    destruct (Hs start eq_refl) as [? | ?], (He end_ eq_refl) as [? | ?]; try done; auto.
  - destruct (foldl _ _ _) as [[[mn mx] st] en] eqn:Hf. intros [= -> ->].
    apply extremity_fold_members in Hf as [Hs He].
    destruct (Hs start eq_refl) as [? | ?], (He end_ eq_refl) as [? | ?]; try done; auto.
Qed.

Lemma init_start_cell start end_ bw bh s :
  Ship.init start end_ true bw bh = Ok s →
  (Ship.x_start s, Ship.y_start s) = start ∨ (Ship.x_start s, Ship.y_start s) = end_.
Proof.
  intros Hs. destruct (init_Ok _ _ _ _ _ _ Hs) as (-> & _ & -> & _).
  destruct (init_cases start end_ true bw bh) as [(_ & _ & Hr) | (Hal & _)]; [congruence |].
  destruct start as [a b], end_ as [x y]. simpl in *. rewrite !cell_eq. lia.
Qed.

Lemma init_player_inv w h : player_inv (AutomaticPlayer.init w h).
Proof.
  unfold player_inv, AutomaticPlayer.init. simpl. split; [done |].
  split; intros x Hx; by apply elem_of_nil in Hx.
Qed.

Lemma select_target_player_inv p fuel depth g c p1 g' :
  player_inv p →
  AutomaticPlayer.select_target fuel depth p g = Ok ((c, p1), g') →
  player_inv p1 ∧ AutomaticPlayer.sunken_ships p1 = AutomaticPlayer.sunken_ships p.
Proof.
  intros (Hlast & Hhits & Hsunk) Hrun.
  apply select_target_Ok in Hrun as (hunt & hits & g1 & _ & _ & ->).
  split; [| done]. unfold player_inv. simpl. split; [| split].
  - intros x [= <-]. set_solver.
  - intros x Hx. apply Hhits in Hx. set_solver.
  - intros s Hs. destruct (Hsunk s Hs) as (? & ? & ? & ?). set_solver.
Qed.

Lemma receive_result_player_inv p depth hit sunk q :
  player_inv p →
  AutomaticPlayer.receive_result depth p hit sunk = Ok q →
  player_inv q ∧
  ∀ s, s ∈ AutomaticPlayer.sunken_ships p → s ∈ AutomaticPlayer.sunken_ships q.
Proof.
  intros (Hlast & Hhits & Hsunk). unfold AutomaticPlayer.receive_result.
  set (p1 := if hit then _ else p).
  assert (Hp1 : player_inv p1 ∧
                AutomaticPlayer.sunken_ships p1 = AutomaticPlayer.sunken_ships p ∧
                AutomaticPlayer.tracker p1 = AutomaticPlayer.tracker p ∧
                AutomaticPlayer.last_target p1 = AutomaticPlayer.last_target p).
  { unfold p1. destruct hit; [| done]. split; [| done]. unfold player_inv. simpl.
    split; [done |]. split; [| done].
    intros x [Hx | Hx%list_elem_of_singleton]%elem_of_app; auto. }
  destruct Hp1 as ((Hlast1 & Hhits1 & Hsunk1) & Hss & Htr & Hlt).
  destruct (hit && sunk).
  - destruct (AutomaticPlayer.last_target p1) as [target |] eqn:Htarget; [| done].
    destruct (AutomaticPlayer.find_start_and_end depth p1 target)
      as [[[start |] [end_ |]] | |] eqn:Hends; simpl; try discriminate.
    destruct (Ship.init start end_ true Infinity Infinity) as [ship | |] eqn:Hship;
      simpl; try discriminate.
    intros [= <-]. apply find_start_and_end_members in Hends as [Hs He].
    assert (Htrs : start ∈ AutomaticPlayer.tracker p1)
      by (destruct Hs as [-> | Hs]; auto).
    assert (Htre : end_ ∈ AutomaticPlayer.tracker p1)
      by (destruct He as [-> | He]; auto).
    split.
    + unfold player_inv. simpl. rewrite Htarget.
      split; [exact Hlast1 |]. split; [exact Hhits1 |].
      intros s [Hin | ->%list_elem_of_singleton]%elem_of_app; [by apply Hsunk1 |].
      destruct (init_Ok _ _ _ _ _ _ Hship) as (_ & _ & _ & _ & _ & Hbw & Hbh & Hst).
      split; [done |]. split; [done |]. split; [done |].
      destruct (init_start_cell _ _ _ _ _ Hship) as [-> | ->]; done.
    + intros s Hin. simpl. apply elem_of_app. left. by rewrite Hss.
  - intros [= <-]. split; [done |]. intros s Hin. by rewrite Hss.
Qed.

Lemma turn_player_inv p q :
  player_inv p → AutomaticPlayer.turn p q →
  player_inv q ∧
  ∀ s, s ∈ AutomaticPlayer.sunken_ships p → s ∈ AutomaticPlayer.sunken_ships q.
Proof.
  intros Hp [fuel depth depth' g g' target p1 hit sunk Hsel Hrec].
  destruct (select_target_player_inv _ _ _ _ _ _ _ Hp Hsel) as [Hp1 Hss].
  destruct (receive_result_player_inv _ _ _ _ _ Hp1 Hrec) as [Hq Hmono].
  split; [done |]. intros s Hs. apply Hmono. by rewrite Hss.
Qed.

Lemma reachable_player_inv p : AutomaticPlayer.reachable p → player_inv p.
Proof.
  induction 1 as [w h | p q _ IH Hturn]; [apply init_player_inv |].
  by apply (turn_player_inv p q).
Qed.

Lemma later_turns p q :
  rtc AutomaticPlayer.turn p q → AutomaticPlayer.reachable p →
  AutomaticPlayer.reachable q ∧
  ∀ s, s ∈ AutomaticPlayer.sunken_ships p → s ∈ AutomaticPlayer.sunken_ships q.
Proof.
  induction 1 as [p | p p' q Hturn _ IH]; intros Hp; [done |].
  assert (Hp' : AutomaticPlayer.reachable p')
    by (by eapply AutomaticPlayer.reachable_turn).
  destruct (IH Hp') as [Hq Hmono]. split; [done |].
  intros s Hs. apply Hmono.
  by apply (turn_player_inv p p'); [apply reachable_player_inv |..].
Qed.

End player_memory.

Section dead_zone.

(** Every cell of a straight ship but its first has another cell of the
    ship next to it. *)
Lemma straight_cell_cases s (d : cell) :
  straight s → d ∈ Ship.cells s →
  d = (Ship.x_start s, Ship.y_start s) ∨ ∃ d', d' ∈ Ship.cells s ∧ adjacent d d'.
Proof.
  intros (Hx & Hy & Hline & Hc) Hd. apply Hc in Hd. destruct d as [a b]. simpl in Hd.
  destruct (decide (a = Ship.x_start s)) as [-> | Ha].
  - destruct (decide (b = Ship.y_start s)) as [-> | Hb]; [by left |].
    right. exists (Ship.x_start s, b - 1). split; [apply Hc; simpl; lia |].
    unfold adjacent, within_one_step. rewrite cell_eq. simpl. lia.
  - right. exists (a - 1, b). split; [apply Hc; simpl; lia |].
    unfold adjacent, within_one_step. rewrite cell_eq. simpl. lia.
Qed.

Lemma is_close_to_ship_false self c ship :
  AutomaticPlayer.is_close_to_ship self c = false →
  ship ∈ AutomaticPlayer.sunken_ships self → Ship.is_near_cell ship c = false.
Proof.
  unfold AutomaticPlayer.is_close_to_ship. intros Hclose Hin.
  apply not_true_iff_false. intros Hnear. apply not_true_iff_false in Hclose.
  apply Hclose, existsb_exists. exists ship. split; [by apply list_elem_of_In | done].
Qed.

(** C5: once a sunken ship is recorded in the memory of a player, in
    every later turn of the game the cell [select_target] returns is not
    within one step, diagonals included, of any cell of that ship. *)
Theorem select_target_avoids_sunken_ships
    (p q q' : AutomaticPlayer.t) (ship : Ship.t) (fuel depth : nat) (g g' : RNG) (c : cell)
    (Hreach : AutomaticPlayer.reachable p)
    (Hsunk : ship ∈ AutomaticPlayer.sunken_ships p)
    (Hlater : rtc AutomaticPlayer.turn p q)
    (Hrun : AutomaticPlayer.select_target fuel depth q g = Ok ((c, q'), g')) :
  Ship.is_near_cell ship c = false ∧
  ∀ d, d ∈ Ship.cells ship → ¬ within_one_step c d.
Proof.
  destruct (later_turns p q Hlater Hreach) as [Hq Hmono].
  pose proof (Hmono ship Hsunk) as Hin.
  destruct (reachable_player_inv q Hq) as (_ & _ & Hships).
  destruct (Hships ship Hin) as (Hst & Hbw & Hbh & Hfirst).
  apply select_target_Ok in Hrun as (hunt & hits & g1 & _ & Hdraw & _).
  apply draw_target_Ok in Hdraw as (Hfresh & Hbounds & Hclose & _).
  apply is_it_within_bounds_true in Hbounds.
  assert (Hsome : AutomaticPlayer.are_there_sunken_ships q = true).
  { unfold AutomaticPlayer.are_there_sunken_ships. apply bool_decide_eq_true.
    destruct (AutomaticPlayer.sunken_ships q); [by apply elem_of_nil in Hin | simpl; lia]. }
  pose proof (is_close_to_ship_false q c ship (Hclose Hsome) Hin) as Hfar.
  split; [done |].
  assert (Hnone : ¬ ∃ d, d ∈ Ship.cells ship ∧ adjacent c d).
  { intros Hex. apply not_true_iff_false in Hfar. apply Hfar.
    apply is_near_cell_exact; [| lia | lia | done].
    intros d _. by rewrite Hbw, Hbh. }
  intros d Hd [-> | Hadj]%within_one_step_cases.
  - destruct (straight_cell_cases ship d Hst Hd) as [-> | (d' & Hd' & Hadj)]; [done |].
    apply Hnone. by exists d'.
  - apply Hnone. by exists d.
Qed.

Lemma after_attack_turn hit sunk state q g' :
  after_attack hit sunk state = Ok (q, g') →
  ∃ p g, state = Ok (p, g) ∧ AutomaticPlayer.turn p q.
Proof.
  unfold after_attack. destruct state as [[p g] | |]; simpl; try discriminate.
  destruct (AutomaticPlayer.select_target 500 50 p g) as [[[c p1] g1] | |] eqn:Hsel;
    simpl; try discriminate.
  destruct (AutomaticPlayer.receive_result 50 p1 hit sunk) as [p2 | |] eqn:Hrec;
    simpl; try discriminate.
  intros [= <- <-]. exists p, g. split; [done |]. by econstructor.
Qed.

Lemma sample_game_reachable p g :
  sample_game = Ok (p, g) → AutomaticPlayer.reachable p.
Proof.
  unfold sample_game.
  intros (p2 & g2 & H2 & Ht3)%after_attack_turn.
  apply after_attack_turn in H2 as (p1 & g1 & H1 & Ht2).
  apply after_attack_turn in H1 as (p0 & g0 & [= <- <-] & Ht1).
  do 3 (eapply AutomaticPlayer.reachable_turn; [| eassumption]).
  apply AutomaticPlayer.reachable_init.
Qed.

Lemma sample_game_Ok : ∃ p g, sample_game = Ok (p, g).
Proof.
  destruct sample_game as [[p g] | e |] eqn:Hgame; [by exists p, g | |];
    exfalso; vm_compute in Hgame; discriminate Hgame.
Qed.

Lemma sample_game_sunken p g :
  sample_game = Ok (p, g) →
  ∃ ship, AutomaticPlayer.sunken_ships p = [ship] ∧
          Ship.cells ship = {[ (1, 8); (1, 9); (1, 10) ]}.
Proof.
  intros Hgame.
  assert (Hx : obind sample_game
                 (λ '(p, _), Ok (Ship.cells <$> AutomaticPlayer.sunken_ships p)) =
               Ok [ {[ (1, 8); (1, 9); (1, 10) ]} ]) by (vm_compute; reflexivity).
  rewrite Hgame in Hx. cbn [obind] in Hx. injection Hx as Hx.
  destruct (AutomaticPlayer.sunken_ships p) as [| ship [| ? ?]];
    [discriminate Hx | | discriminate Hx].
  exists ship. split; [reflexivity |]. by injection Hx.
Qed.

Lemma sample_game_next p g :
  sample_game = Ok (p, g) →
  ∃ c q' g', AutomaticPlayer.select_target 500 50 p g = Ok ((c, q'), g').
Proof.
  intros Hgame.
  assert (Hx : ∃ r, obind sample_game
                      (λ '(p, g), AutomaticPlayer.select_target 500 50 p g) = Ok r)
    by (eexists; vm_compute; reflexivity).
  destruct Hx as ([[c q'] g'] & Hx). rewrite Hgame in Hx. cbn [obind] in Hx.
  by exists c, q', g'.
Qed.

Lemma select_target_avoids_sunken_ships_witness :
  ∃ p g ship c q' g',
    sample_game = Ok (p, g) ∧
    AutomaticPlayer.sunken_ships p = [ship] ∧
    Ship.cells ship = {[ (1, 8); (1, 9); (1, 10) ]} ∧
    AutomaticPlayer.select_target 500 50 p g = Ok ((c, q'), g') ∧
    Ship.is_near_cell ship c = false ∧
    ∀ d, d ∈ Ship.cells ship → ¬ within_one_step c d.
Proof.
  destruct sample_game_Ok as (p & g & Hgame).
  destruct (sample_game_sunken p g Hgame) as (ship & Hships & Hcells).
  destruct (sample_game_next p g Hgame) as (c & q' & g' & Hrun).
  exists p, g, ship, c, q', g'.
  split; [exact Hgame |]. split; [exact Hships |]. split; [exact Hcells |].
  split; [exact Hrun |].
  apply (select_target_avoids_sunken_ships p p q' ship 500 50 g g' c).
  - exact (sample_game_reachable p g Hgame).
  - rewrite Hships. apply list_elem_of_here.
  - apply rtc_refl.
  - exact Hrun.
Defined.

End dead_zone.

Section flood_fill.

Variable self : AutomaticPlayer.t.
Variable vertical : bool.
Variables fixed a b : Z.

Let L (i : Z) : cell := line_cell vertical fixed i.

Hypothesis Hbounds : ∀ i, a ≤ i ≤ b →
  AutomaticPlayer.is_it_within_bounds self (L i) = true.
Hypothesis Hrec : ∀ i, a ≤ i ≤ b → Some (L i) ∈ AutomaticPlayer.successful_hits self.
Hypothesis Hiso : ∀ n i, a ≤ i ≤ b → within_one_step n (L i) →
  Some n ∈ AutomaticPlayer.successful_hits self → ∃ j, n = L j ∧ a ≤ j ≤ b.

Lemma line_cell_inj i j : L i = L j → i = j.
Proof. unfold L, line_cell. destruct vertical; by intros [= ?]. Qed.

Local Ltac miss k Hk :=
  let Hq := fresh "Hq" in
  let j := fresh "j" in
  let Hj := fresh "Hj" in
  let Hr := fresh "Hr" in
  intros Hq;
  apply (Hiso _ k Hk) in Hq as (j & Hj & Hr);
  [ unfold L, line_cell in Hj; injection Hj; intros; lia
  | unfold within_one_step, L, line_cell; simpl; lia ].

(** The neighbours of a cell of the run that are recorded hits, in the
    order in which [get_all_cells] meets them: the next cell of the run,
    then the previous one. *)
Lemma qualifying_neighbours k (Hk : a ≤ k ≤ b) :
  filter (λ n, Some n ∈ AutomaticPlayer.successful_hits self)
         (AutomaticPlayer.get_neighbours self (L k) false) =
  (if bool_decide (k + 1 ≤ b) then [L (k + 1)] else []) ++
  (if bool_decide (a ≤ k - 1) then [L (k - 1)] else []).
Proof.
  pose proof (proj1 (is_it_within_bounds_true self _) (Hbounds k Hk)) as Hin.
  assert (Hnext : k + 1 ≤ b →
                  1 ≤ (L (k + 1)).1 ≤ AutomaticPlayer.board_width self ∧
                  1 ≤ (L (k + 1)).2 ≤ AutomaticPlayer.board_height self).
  { intros ?. apply is_it_within_bounds_true, Hbounds. lia. }
  assert (Hprev : a ≤ k - 1 →
                  1 ≤ (L (k - 1)).1 ≤ AutomaticPlayer.board_width self ∧
                  1 ≤ (L (k - 1)).2 ≤ AutomaticPlayer.board_height self).
  { intros ?. apply is_it_within_bounds_true, Hbounds. lia. }
  assert (Hup : k + 1 ≤ b → Some (L (k + 1)) ∈ AutomaticPlayer.successful_hits self)
    by (intros ?; apply Hrec; lia).
  assert (Hdown : a ≤ k - 1 → Some (L (k - 1)) ∈ AutomaticPlayer.successful_hits self)
    by (intros ?; apply Hrec; lia).
  unfold AutomaticPlayer.get_neighbours, appended.
  unfold L, line_cell in Hin, Hnext, Hprev, Hup, Hdown |- *.
  destruct vertical; cbn [fst snd] in *;
    destruct (Z.leb_spec fixed (AutomaticPlayer.board_width self - 1)),
             (Z.leb_spec k (AutomaticPlayer.board_height self - 1)),
             (Z.leb_spec 2 fixed), (Z.leb_spec 2 k),
             (Z.leb_spec k (AutomaticPlayer.board_width self - 1)),
             (Z.leb_spec fixed (AutomaticPlayer.board_height self - 1));
    try lia; simpl;
    do 2 case_bool_decide; try lia;
    repeat first
      [ rewrite filter_cons_True by (first [apply Hup; lia | apply Hdown; lia])
      | rewrite filter_cons_False by (miss k Hk) ];
    reflexivity.
Qed.

(** The fold of [get_all_cells] only acts on the neighbours that pass
    its test. *)
Lemma ofold_filter {A B} (q : A → bool) (F : B → A → outcome B) (l : list A) :
  ∀ acc, ofold (λ acc n, if q n then F acc n else Ok acc) l acc =
         ofold F (filter (λ n, q n = true) l) acc.
Proof.
  induction l as [| n l IH]; intros acc; [done |].
  rewrite filter_cons. simpl. destruct (q n) eqn:Hq.
  - rewrite decide_True by done. simpl. destruct (F acc n); simpl; auto.
  - rewrite decide_False by congruence. simpl. apply IH.
Qed.

Lemma filter_test_split (e : option cell) (l : list cell) :
  filter (λ n, bool_decide (Some n ∈ AutomaticPlayer.successful_hits self) &&
               negb (bool_decide (Some n = e)) = true) l =
  filter (λ n, Some n ≠ e)
         (filter (λ n, Some n ∈ AutomaticPlayer.successful_hits self) l).
Proof.
  rewrite list_filter_filter. apply list_filter_iff. intros n.
  rewrite andb_true_iff, negb_true_iff, bool_decide_eq_true, bool_decide_eq_false.
  tauto.
Qed.

(** One level of [get_all_cells] at a cell of the run. *)
Lemma get_all_cells_step depth k e (Hk : a ≤ k ≤ b) :
  AutomaticPlayer.get_all_cells (S depth) self (L k) e =
  ofold (λ acc n,
           obind (AutomaticPlayer.get_all_cells depth self n (Some (L k)))
                 (λ new, Ok ((acc ++ [n]) ++ new)))
        (filter (λ n, Some n ≠ e)
                ((if bool_decide (k + 1 ≤ b) then [L (k + 1)] else []) ++
                 (if bool_decide (a ≤ k - 1) then [L (k - 1)] else [])))
        [].
Proof.
  cbn [AutomaticPlayer.get_all_cells].
  rewrite (ofold_filter
             (λ n, bool_decide (Some n ∈ AutomaticPlayer.successful_hits self) &&
                   negb (bool_decide (Some n = e)))
             (λ acc n,
                obind (AutomaticPlayer.get_all_cells depth self n (Some (L k)))
                      (λ new, Ok ((acc ++ [n]) ++ new)))).
  by rewrite filter_test_split, qualifying_neighbours.
Qed.

Let covers := covers_line vertical fixed.

Lemma covers_nil lo hi : hi < lo → covers lo hi [].
Proof.
  intros Hlt. split; [apply NoDup_nil_2 |]. intros x. split.
  - intros Hx. by apply elem_of_nil in Hx.
  - intros (j & ? & _). lia.
Qed.

Lemma covers_cons_up lo hi l : lo ≤ hi → covers (lo + 1) hi l → covers lo hi (L lo :: l).
Proof.
  intros Hle [Hnd Hel]. split.
  - apply NoDup_cons. split; [| done]. intros (j & Hj & Heq%line_cell_inj)%Hel. lia.
  - intros x. rewrite elem_of_cons, Hel. split.
    + intros [-> | (j & Hj & ->)]; [exists lo | exists j]; split; (done || lia).
    + intros (j & Hj & ->). destruct (decide (j = lo)) as [-> | ?]; [by left |].
      right. exists j. split; [lia | done].
Qed.

Lemma covers_cons_down lo hi l : lo ≤ hi → covers lo (hi - 1) l → covers lo hi (L hi :: l).
Proof.
  intros Hle [Hnd Hel]. split.
  - apply NoDup_cons. split; [| done]. intros (j & Hj & Heq%line_cell_inj)%Hel. lia.
  - intros x. rewrite elem_of_cons, Hel. split.
    + intros [-> | (j & Hj & ->)]; [exists hi | exists j]; split; (done || lia).
    + intros (j & Hj & ->). destruct (decide (j = hi)) as [-> | ?]; [by left |].
      right. exists j. split; [lia | done].
Qed.

(** Entered from the previous cell, the flood fill walks to the end of
    the run. *)
Lemma get_all_cells_up depth : ∀ k l, a ≤ k ≤ b →
  AutomaticPlayer.get_all_cells depth self (L k) (Some (L (k - 1))) = Ok l →
  covers (k + 1) b l.
Proof.
  induction depth as [| depth IH]; intros k l Hk; [done |].
  rewrite get_all_cells_step by done.
  destruct (decide (k + 1 ≤ b)) as [Hup | Hup].
  - rewrite (bool_decide_eq_true_2 (k + 1 ≤ b)) by done.
    assert (Hfilter :
      filter (λ n, Some n ≠ Some (L (k - 1)))
             ([L (k + 1)] ++ (if bool_decide (a ≤ k - 1) then [L (k - 1)] else [])) =
      [L (k + 1)]).
    { rewrite filter_app, filter_cons_True, filter_nil.
      - case_bool_decide; [| done].
        rewrite filter_cons_False, filter_nil; [done |]. intros Hne. by apply Hne.
      - intros [= Heq%line_cell_inj]. lia. }
    rewrite Hfilter. simpl.
    destruct (AutomaticPlayer.get_all_cells depth self (L (k + 1)) (Some (L k)))
      as [new | |] eqn:Hnew; simpl; try discriminate.
    intros [= <-]. apply covers_cons_up; [lia |].
    apply (IH (k + 1)); [lia |]. by replace (k + 1 - 1) with k by lia.
  - rewrite (bool_decide_eq_false_2 (k + 1 ≤ b)) by done.
    assert (Hfilter :
      filter (λ n, Some n ≠ Some (L (k - 1)))
             ([] ++ (if bool_decide (a ≤ k - 1) then [L (k - 1)] else [])) = []).
    { simpl. case_bool_decide; [| done].
      rewrite filter_cons_False, filter_nil; [done |]. intros Hne. by apply Hne. }
    rewrite Hfilter. simpl. intros [= <-]. apply covers_nil. lia.
Qed.

(** Entered from the next cell, it walks to the start of the run. *)
Lemma get_all_cells_down depth : ∀ k l, a ≤ k ≤ b →
  AutomaticPlayer.get_all_cells depth self (L k) (Some (L (k + 1))) = Ok l →
  covers a (k - 1) l.
Proof.
  induction depth as [| depth IH]; intros k l Hk; [done |].
  rewrite get_all_cells_step by done.
  assert (Hskip :
    filter (λ n, Some n ≠ Some (L (k + 1)))
           (if bool_decide (k + 1 ≤ b) then [L (k + 1)] else []) = []).
  { case_bool_decide; [| done].
    rewrite filter_cons_False, filter_nil; [done |]. intros Hne. by apply Hne. }
  rewrite filter_app, Hskip. simpl.
  destruct (decide (a ≤ k - 1)) as [Hdown | Hdown].
  - rewrite (bool_decide_eq_true_2 (a ≤ k - 1)) by done.
    rewrite filter_cons_True, filter_nil by (intros [= Heq%line_cell_inj]; lia).
    simpl.
    destruct (AutomaticPlayer.get_all_cells depth self (L (k - 1)) (Some (L k)))
      as [new | |] eqn:Hnew; simpl; try discriminate.
    intros [= <-]. apply covers_cons_down; [lia |].
    apply (IH (k - 1)); [lia |]. by replace (k - 1 + 1) with k by lia.
  - rewrite (bool_decide_eq_false_2 (a ≤ k - 1)) by done.
    rewrite filter_nil. simpl. intros [= <-]. apply covers_nil. lia.
Qed.

(** From a cell of the run the flood fill collects the rest of the run:
    the cells after it, then the cells before it. *)
Lemma get_all_cells_run depth k l (Hk : a ≤ k ≤ b) :
  AutomaticPlayer.get_all_cells depth self (L k) (Some (L k)) = Ok l →
  ∃ lu ld, l = lu ++ ld ∧ covers (k + 1) b lu ∧ covers a (k - 1) ld.
Proof.
  destruct depth as [| depth]; [done |].
  rewrite get_all_cells_step by done.
  assert (Hkeep : ∀ l' : list cell, (∀ x, x ∈ l' → x ≠ L k) →
                        filter (λ n, Some n ≠ Some (L k)) l' = l').
  { intros l' Hl'. induction l' as [| x l' IH]; [done |].
    rewrite filter_cons_True
      by (intros [= Heq]; apply (Hl' x); [by left | exact Heq]).
    rewrite IH; [done |]. intros y Hy. apply Hl'. by right. }
  rewrite Hkeep.
  2:{ intros x [Hx | Hx]%elem_of_app; case_bool_decide;
        try (by apply elem_of_nil in Hx);
        apply list_elem_of_singleton in Hx as ->; intros Heq%line_cell_inj; lia. }
  assert (Hup : ∀ new, AutomaticPlayer.get_all_cells depth self (L (k + 1)) (Some (L k)) =
                         Ok new → k + 1 ≤ b → covers (k + 1) b (L (k + 1) :: new)).
  { intros new Hnew Hle. apply covers_cons_up; [lia |].
    apply (get_all_cells_up depth (k + 1)); [lia |].
    by replace (k + 1 - 1) with k by lia. }
  assert (Hdown : ∀ new, AutomaticPlayer.get_all_cells depth self (L (k - 1)) (Some (L k)) =
                           Ok new → a ≤ k - 1 → covers a (k - 1) (L (k - 1) :: new)).
  { intros new Hnew Hle. apply covers_cons_down; [lia |].
    apply (get_all_cells_down depth (k - 1)); [lia |].
    by replace (k - 1 + 1) with k by lia. }
  do 2 case_bool_decide; simpl.
  - destruct (AutomaticPlayer.get_all_cells depth self (L (k + 1)) (Some (L k)))
      as [new1 | |] eqn:Hnew1; simpl; try discriminate.
    destruct (AutomaticPlayer.get_all_cells depth self (L (k - 1)) (Some (L k)))
      as [new2 | |] eqn:Hnew2; simpl; try discriminate.
    intros [= <-]. exists (L (k + 1) :: new1), (L (k - 1) :: new2).
    split; [by rewrite <- !app_assoc | auto].
  - destruct (AutomaticPlayer.get_all_cells depth self (L (k + 1)) (Some (L k)))
      as [new1 | |] eqn:Hnew1; simpl; try discriminate.
    intros [= <-]. exists (L (k + 1) :: new1), [].
    split; [by rewrite app_nil_r |]. split; [auto |]. apply covers_nil. lia.
  - destruct (AutomaticPlayer.get_all_cells depth self (L (k - 1)) (Some (L k)))
      as [new2 | |] eqn:Hnew2; simpl; try discriminate.
    intros [= <-]. exists [], (L (k - 1) :: new2).
    split; [done |]. split; [apply covers_nil; lia | auto].
  - intros [= <-]. exists [], []. split; [done |]. split; apply covers_nil; lia.
Qed.

(** With one nested call per cell that is left, the walk to the end of
    the run returns. *)
Lemma get_all_cells_up_returns depth : ∀ k, a ≤ k ≤ b →
  b - k < Z.of_nat depth →
  ∃ l, AutomaticPlayer.get_all_cells depth self (L k) (Some (L (k - 1))) = Ok l.
Proof.
  induction depth as [| depth IH]; intros k Hk Hd; [lia |].
  rewrite get_all_cells_step by done.
  destruct (decide (k + 1 ≤ b)) as [Hup | Hup].
  - rewrite (bool_decide_eq_true_2 (k + 1 ≤ b)) by done.
    assert (Hfilter :
      filter (λ n, Some n ≠ Some (L (k - 1)))
             ([L (k + 1)] ++ (if bool_decide (a ≤ k - 1) then [L (k - 1)] else [])) =
      [L (k + 1)]).
    { rewrite filter_app, filter_cons_True, filter_nil.
      - case_bool_decide; [| done].
        rewrite filter_cons_False, filter_nil; [done |]. intros Hne. by apply Hne.
      - intros [= Heq%line_cell_inj]. lia. }
    rewrite Hfilter. simpl.
    destruct (IH (k + 1)) as [new Hnew]; [lia.. |].
    replace (k + 1 - 1) with k in Hnew by lia. rewrite Hnew. simpl. eauto.
  - rewrite (bool_decide_eq_false_2 (k + 1 ≤ b)) by done.
    assert (Hfilter :
      filter (λ n, Some n ≠ Some (L (k - 1)))
             ([] ++ (if bool_decide (a ≤ k - 1) then [L (k - 1)] else [])) = []).
    { simpl. case_bool_decide; [| done].
      rewrite filter_cons_False, filter_nil; [done |]. intros Hne. by apply Hne. }
    rewrite Hfilter. simpl. eauto.
Qed.

Lemma get_all_cells_down_returns depth : ∀ k, a ≤ k ≤ b →
  k - a < Z.of_nat depth →
  ∃ l, AutomaticPlayer.get_all_cells depth self (L k) (Some (L (k + 1))) = Ok l.
Proof.
  induction depth as [| depth IH]; intros k Hk Hd; [lia |].
  rewrite get_all_cells_step by done.
  assert (Hskip :
    filter (λ n, Some n ≠ Some (L (k + 1)))
           (if bool_decide (k + 1 ≤ b) then [L (k + 1)] else []) = []).
  { case_bool_decide; [| done].
    rewrite filter_cons_False, filter_nil; [done |]. intros Hne. by apply Hne. }
  rewrite filter_app, Hskip. simpl.
  destruct (decide (a ≤ k - 1)) as [Hdown | Hdown].
  - rewrite (bool_decide_eq_true_2 (a ≤ k - 1)) by done.
    rewrite filter_cons_True, filter_nil by (intros [= Heq%line_cell_inj]; lia).
    simpl. destruct (IH (k - 1)) as [new Hnew]; [lia.. |].
    replace (k - 1 + 1) with k in Hnew by lia. rewrite Hnew. simpl. eauto.
  - rewrite (bool_decide_eq_false_2 (a ≤ k - 1)) by done.
    rewrite filter_nil. simpl. eauto.
Qed.

(** The flood fill from a cell of the run returns when the recursion
    limit allows one nested call per cell of the run. *)
Lemma get_all_cells_run_returns depth k (Hk : a ≤ k ≤ b) :
  b - a + 1 ≤ Z.of_nat depth →
  ∃ l, AutomaticPlayer.get_all_cells depth self (L k) (Some (L k)) = Ok l.
Proof.
  destruct depth as [| depth]; [lia |]. intros Hd.
  rewrite get_all_cells_step by done.
  assert (Hkeep : ∀ l' : list cell, (∀ x, x ∈ l' → x ≠ L k) →
                        filter (λ n, Some n ≠ Some (L k)) l' = l').
  { intros l' Hl'. induction l' as [| x l' IH]; [done |].
    rewrite filter_cons_True
      by (intros [= Heq]; apply (Hl' x); [by left | exact Heq]).
    rewrite IH; [done |]. intros y Hy. apply Hl'. by right. }
  rewrite Hkeep.
  2:{ intros x [Hx | Hx]%elem_of_app; case_bool_decide;
        try (by apply elem_of_nil in Hx);
        apply list_elem_of_singleton in Hx as ->; intros Heq%line_cell_inj; lia. }
  assert (Hup : k + 1 ≤ b →
    ∃ new, AutomaticPlayer.get_all_cells depth self (L (k + 1)) (Some (L k)) = Ok new).
  { intros Hle. destruct (get_all_cells_up_returns depth (k + 1)) as [new Hnew]; [lia.. |].
    exists new. by replace (k + 1 - 1) with k in Hnew by lia. }
  assert (Hdown : a ≤ k - 1 →
    ∃ new, AutomaticPlayer.get_all_cells depth self (L (k - 1)) (Some (L k)) = Ok new).
  { intros Hle. destruct (get_all_cells_down_returns depth (k - 1)) as [new Hnew]; [lia.. |].
    exists new. by replace (k - 1 + 1) with k in Hnew by lia. }
  do 2 case_bool_decide; simpl.
  - destruct Hup as [new1 ->]; [done |]. destruct Hdown as [new2 Hn2]; [done |]. simpl.
    rewrite Hn2. simpl. eauto.
  - destruct Hup as [new1 ->]; [done |]. simpl. eauto.
  - destruct Hdown as [new2 ->]; [done |]. simpl. eauto.
  - eauto.
Qed.

Lemma find_start_and_end_returns depth k (Hk : a ≤ k ≤ b) :
  b - a + 1 ≤ Z.of_nat depth →
  ∃ ends, AutomaticPlayer.find_start_and_end depth self (L k) = Ok ends.
Proof.
  intros Hd. unfold AutomaticPlayer.find_start_and_end.
  destruct (get_all_cells_run_returns depth k Hk Hd) as [l ->]. cbn [obind].
  case_bool_decide as Hlen; [eauto |].
  destruct l as [| c0 [| c1 l]]; [done | |];
    cbn [app AutomaticPlayer.is_this_ship_vertical obind];
    destruct (bool_decide _);
    destruct (foldl _ _ _) as [[[? ?] ?] ?]; eauto.
Qed.

Lemma covers_run lu ld k :
  a ≤ k ≤ b → covers (k + 1) b lu → covers a (k - 1) ld →
  covers a b ((lu ++ ld) ++ [L k]).
Proof.
  intros Hk [Hndu Hu] [Hndd Hd]. split.
  - apply NoDup_app. split; [| split].
    + apply NoDup_app. split; [done |]. split; [| done].
      intros x (j & Hj & ->)%Hu (j' & Hj' & Heq%line_cell_inj)%Hd. lia.
    + intros x [(j & Hj & ->)%Hu | (j & Hj & ->)%Hd]%elem_of_app
               Heq%list_elem_of_singleton; apply line_cell_inj in Heq; lia.
    + apply NoDup_singleton.
  - intros x. rewrite !elem_of_app, list_elem_of_singleton, Hu, Hd. split.
    + intros [[(j & Hj & ->) | (j & Hj & ->)] | ->];
        [exists j | exists j | exists k]; split; (done || lia).
    + intros (j & Hj & ->).
      destruct (Z.lt_trichotomy j k) as [Hlt | [-> | Hgt]].
      * left. right. exists j. split; [lia | done].
      * by right.
      * left. left. exists j. split; [lia | done].
Qed.

(** The position of a cell along the line. *)
Let coord : cell → Z := if vertical then snd else fst.

Lemma coord_line_cell j : coord (L j) = j.
Proof. unfold coord, L, line_cell. by destruct vertical. Qed.

Lemma extremity_fold_spec (l : list cell) :
  ∀ mn mx st en mn' mx' st' en',
    foldl (AutomaticPlayer.extremity_step coord) (mn, mx, st, en) l = (mn', mx', st', en') →
    ((∀ x, x ∈ l → mn' ≤ coord x) ∧
     ((mn' = mn ∧ st' = st) ∨
      (mn' < mn ∧ ∃ x, x ∈ l ∧ st' = Some x ∧ coord x = mn'))) ∧
    ((∀ x, x ∈ l → coord x ≤ mx') ∧
     ((mx' = mx ∧ en' = en) ∨
      (mx < mx' ∧ ∃ x, x ∈ l ∧ en' = Some x ∧ coord x = mx'))).
Proof.
  induction l as [| c l IH]; intros mn mx st en mn' mx' st' en'; simpl.
  - intros [= <- <- <- <-]. split; (split; [intros x Hx; by apply elem_of_nil in Hx | by left]).
  - destruct (Z.ltb_spec (coord c) mn) as [Hlo | Hlo],
             (Z.ltb_spec mx (coord c)) as [Hhi | Hhi];
      intros Hf; apply IH in Hf as [[Hmin Hst] [Hmax Hen]]; split; split.
    all: try (intros x [-> | Hx]%elem_of_cons; [| by auto]).
    all: try (destruct Hst as [[-> ->] | (? & x & ? & ? & ?)]; lia).
    all: try (destruct Hen as [[-> ->] | (? & x & ? & ? & ?)]; lia).
    all: try (destruct Hst as [[-> ->] | (? & x & ? & ? & ?)];
              [ first [ by left | right; split; [lia |]; exists c; split; [by left | done] ]
              | right; split; [lia |]; exists x; split; [by right | done] ]).
    all: try (destruct Hen as [[-> ->] | (? & x & ? & ? & ?)];
              [ first [ by left | right; split; [lia |]; exists c; split; [by left | done] ]
              | right; split; [lia |]; exists x; split; [by right | done] ]).
Qed.

Hypothesis Hab : a < b.

(** On a run of recorded hits [find_start_and_end] returns the two ends
    of the run, whichever cell of the run it starts from. *)
Lemma find_start_and_end_run depth k ends (Hk : a ≤ k ≤ b) :
  AutomaticPlayer.find_start_and_end depth self (L k) = Ok ends →
  ends = (Some (L a), Some (L b)).
Proof.
  unfold AutomaticPlayer.find_start_and_end.
  destruct (AutomaticPlayer.get_all_cells depth self (L k) (Some (L k)))
    as [l | |] eqn:Hl; simpl; try discriminate.
  apply get_all_cells_run in Hl as (lu & ld & -> & Hu & Hd); [| done].
  pose proof (covers_run lu ld k Hk Hu Hd) as [Hnd Hel].
  set (cells := (lu ++ ld) ++ [L k]) in *.
  assert (Ha : L a ∈ cells) by (apply Hel; exists a; split; [lia | done]).
  assert (Hb : L b ∈ cells) by (apply Hel; exists b; split; [lia | done]).
  pose proof (proj1 (is_it_within_bounds_true self _) (Hbounds a ltac:(lia))) as Hina.
  pose proof (proj1 (is_it_within_bounds_true self _) (Hbounds b ltac:(lia))) as Hinb.
  destruct cells as [| c0 [| c1 rest]] eqn:Hcells.
  { by apply elem_of_nil in Ha. }
  { apply list_elem_of_singleton in Ha, Hb. rewrite <- Hb in Ha.
    apply line_cell_inj in Ha. lia. }
  rewrite bool_decide_eq_false_2 by (simpl; lia).
  cbn [AutomaticPlayer.is_this_ship_vertical obind].
  destruct (proj1 (Hel c0) ltac:(by left)) as (j0 & Hj0 & Hc0).
  destruct (proj1 (Hel c1) ltac:(right; by left)) as (j1 & Hj1 & Hc1).
  assert (Hne : j0 ≠ j1).
  { intros ->. apply NoDup_cons in Hnd as [Hnot _]. apply Hnot. subst c0 c1. by left. }
  assert (Hv : bool_decide (c0.1 = c1.1) = vertical).
  { subst c0 c1. unfold L, line_cell. destruct vertical; simpl.
    - by apply bool_decide_eq_true_2.
    - by apply bool_decide_eq_false_2. }
  rewrite Hv.
  assert (Hfold : ∀ mn mx st en,
            foldl (AutomaticPlayer.extremity_step coord)
                  (if vertical then AutomaticPlayer.board_height self + 1
                   else AutomaticPlayer.board_width self + 1, 0, None, None)
                  (c0 :: c1 :: rest) = (mn, mx, st, en) →
            st = Some (L a) ∧ en = Some (L b)).
  { intros mn mx st en Hf. apply extremity_fold_spec in Hf as [[Hmin Hst] [Hmax Hen]].
    pose proof (Hmin _ Ha) as Hmina. pose proof (Hmax _ Hb) as Hmaxb.
    rewrite coord_line_cell in Hmina, Hmaxb.
    assert (Hbig : b < (if vertical then AutomaticPlayer.board_height self + 1
                        else AutomaticPlayer.board_width self + 1)).
    { unfold L, line_cell in Hinb. destruct vertical; simpl in Hinb; lia. }
    assert (Hsmall : 0 < a).
    { unfold L, line_cell in Hina. destruct vertical; simpl in Hina; lia. }
    split.
    - destruct Hst as [[-> _] | (_ & x & Hx & -> & Hcx)]; [lia |].
      apply Hel in Hx as (j & Hj & ->). rewrite coord_line_cell in Hcx.
      f_equal. f_equal. lia.
    - destruct Hen as [[-> _] | (_ & x & Hx & -> & Hcx)]; [lia |].
      apply Hel in Hx as (j & Hj & ->). rewrite coord_line_cell in Hcx.
      f_equal. f_equal. lia. }
  unfold coord in Hfold. destruct vertical.
  - destruct (foldl _ _ _) as [[[mn mx] st] en] eqn:Hf.
    destruct (Hfold _ _ _ _ eq_refl) as [-> ->]. by intros [= <-].
  - destruct (foldl _ _ _) as [[[mn mx] st] en] eqn:Hf.
    destruct (Hfold _ _ _ _ eq_refl) as [-> ->]. by intros [= <-].
Qed.

End flood_fill.

Section open_run.

Lemma pop_index_subset {A} `{EqDecision A} (v : A) (l : list A) :
  ∀ l', pop_index v l = Ok l' → ∀ x, x ∈ l' → x ∈ l.
Proof.
  induction l as [| y l IH]; intros l'; simpl; [done |].
  destruct (decide (y = v)).
  - intros [= <-] x Hx. by right.
  - destruct (pop_index v l) as [l1 | |]; simpl; try discriminate.
    intros [= <-] x [-> | Hx]%elem_of_cons; [by left |]. right. by eapply IH.
Qed.

(** The open hits are recorded hits. *)
Lemma open_hits_recorded self hits :
  open_hits self = Ok hits →
  ∀ o, o ∈ hits → o ∈ AutomaticPlayer.successful_hits self.
Proof.
  unfold open_hits, AutomaticPlayer.is_there_a_hunt.
  destruct (if bool_decide _ then _ else _) as [l | |] eqn:Hl; simpl; try discriminate.
  intros [= <-]. revert Hl. case_bool_decide; [| by intros [= <-]].
  apply (ofold_ind _ (λ l, ∀ o, o ∈ l → o ∈ AutomaticPlayer.successful_hits self));
    [| done].
  intros l1 ship l2 _ Hl1.
  apply (ofold_ind _ (λ l, ∀ o, o ∈ l → o ∈ AutomaticPlayer.successful_hits self));
    [| done].
  intros l3 c l4 _ Hl3 Hpop o Ho. apply Hl3. by eapply pop_index_subset.
Qed.

Lemma open_hits_hunt self hits :
  open_hits self = Ok hits →
  AutomaticPlayer.is_there_a_hunt self =
  Ok (bool_decide (0 < List.length hits)%nat, hits).
Proof.
  unfold open_hits, AutomaticPlayer.is_there_a_hunt.
  destruct (if bool_decide _ then _ else _) as [l | |]; simpl; try discriminate.
  by intros [= <-].
Qed.

Lemma choice_Ok {A} (l : list A) g x g' : choice l g = Ok (x, g') → x ∈ l.
Proof.
  unfold choice. destruct (l !! _) as [y |] eqn:Hy; [| done].
  intros [= <- <-]. by eapply list_elem_of_lookup_2.
Qed.

(** When the open hits are two or more cells of the board that form a
    run of consecutive cells of one row or column, and no other recorded
    hit is within one step of the run, the cell [select_target] returns
    is the cell just before the first or just after the last cell of the
    run. *)
Lemma select_target_beyond_run
    (self self' : AutomaticPlayer.t) (fuel depth : nat) (g g' : RNG) (c : cell)
    (hits : list (option cell)) (vertical : bool) (fixed a b : Z)
    (Hopen : open_hits self = Ok hits)
    (Hline : hits_on_line hits vertical fixed a b)
    (Hrun : run_of_hits self hits vertical fixed a b)
    (Hsel : AutomaticPlayer.select_target fuel depth self g = Ok ((c, self'), g')) :
  c = line_cell vertical fixed (a - 1) ∨ c = line_cell vertical fixed (b + 1).
Proof.
  destruct Hline as (Hlen & Hon & _ & _).
  destruct Hrun as (Hab & Hcons & Hbounds & Hiso).
  assert (Hrec : ∀ i, a ≤ i ≤ b →
                      Some (line_cell vertical fixed i) ∈
                      AutomaticPlayer.successful_hits self).
  { intros i Hi. eapply open_hits_recorded; [exact Hopen | by apply Hcons]. }
  apply select_target_Ok in Hsel as (hunt & hits' & g1 & Hhunt & Hdraw & _).
  rewrite (open_hits_hunt self hits Hopen) in Hhunt. injection Hhunt as <- <-.
  rewrite bool_decide_eq_true_2 in Hdraw by lia.
  apply draw_target_Ok in Hdraw as (_ & _ & _ & Hh).
  destruct (Hh eq_refl) as (rc & g2 & g3 & Hcell).
  unfold AutomaticPlayer.hunting_cell in Hcell.
  rewrite bool_decide_eq_true_2 in Hcell by lia.
  apply bind_Ok in Hcell as (target & g4 & Hbetter & Hret).
  apply ret_Ok in Hret as [[= <-] _].
  unfold AutomaticPlayer.get_better_target in Hbetter.
  destruct hits as [| o hits]; [simpl in Hlen; lia |].
  destruct (Hon o ltac:(by left)) as (k & -> & Hk).
  apply bind_Ok in Hbetter as (ends & g5 & Hends & Hchoice).
  apply lift_Ok in Hends as [Hends ->].
  apply (find_start_and_end_run self vertical fixed a b Hbounds Hrec Hiso Hab) in Hends;
    [| done].
  subst ends. cbv iota beta in Hchoice. apply choice_Ok in Hchoice.
  unfold line_cell in *. destruct vertical; simpl in Hchoice.
  - rewrite bool_decide_eq_true_2 in Hchoice by done.
    apply elem_of_cons in Hchoice as [-> | ->%list_elem_of_singleton]; auto.
  - rewrite bool_decide_eq_false_2 in Hchoice by lia.
    apply elem_of_cons in Hchoice as [-> | ->%list_elem_of_singleton]; auto.
Qed.

Lemma two_hits_on_line : hits_on_line [Some (1, 10); Some (1, 9)] true 1 9 10.
Proof.
  split; [simpl; lia |]. split; [| split; set_solver].
  intros o [-> | ->%list_elem_of_singleton]%elem_of_cons;
    [exists 10 | exists 9]; split; (reflexivity || lia).
Qed.

(** In a hand-written memory with the open hits (1, 1) and (5, 1), which
    lie on row 1 with minimum 1 and maximum 5, the flood fill from (1, 1)
    finds no recorded hit next to it, the lone cell is taken for a
    vertical ship, and the target is (1, 2). *)
Example gap_player_target :
  open_hits gap_player = Ok [Some (1, 1); Some (5, 1)] ∧
  AutomaticPlayer.find_start_and_end 10 gap_player (1, 1) = Ok (Some (1, 1), Some (1, 1)) ∧
  target_of (AutomaticPlayer.select_target 50 10 gap_player (mkRNG sample_tape 0)) =
    Some (1, 2).
Proof. repeat split; vm_compute; reflexivity. Qed.

End open_run.

(** * Further properties of [Ship] *)

Section ship_more.

(** X1: the order of the two endpoints does not matter to the
    constructor. *)
Theorem ship_init_endpoint_order (start end_ : cell) (v : bool) (bw bh : extent) :
  Ship.init start end_ v bw bh = Ship.init end_ start v bw bh.
Proof.
  unfold Ship.init.
  by rewrite (Z.min_comm start.1), (Z.max_comm start.1),
             (Z.min_comm start.2), (Z.max_comm start.2).
Qed.

(** X2: a constructed ship occupies the axis distance of its endpoints
    plus one cells, both endpoints among them, and [is_occupying_cell]
    holds exactly of the cells between the endpoints. *)
Theorem ship_cells_span (start end_ : cell) (v : bool) (bw bh : extent) (s : Ship.t)
    (Hinit : Ship.init start end_ v bw bh = Ok s) :
  Ship.length s = Z.abs (start.1 - end_.1) + Z.abs (start.2 - end_.2) + 1 ∧
  Ship.is_occupying_cell s start = true ∧
  Ship.is_occupying_cell s end_ = true ∧
  ∀ c : cell, Ship.is_occupying_cell s c = true ↔
    Z.min start.1 end_.1 ≤ c.1 ≤ Z.max start.1 end_.1 ∧
    Z.min start.2 end_.2 ≤ c.2 ≤ Z.max start.2 end_.2.
Proof.
  destruct (init_Ok _ _ _ _ _ _ Hinit) as (Hxs & Hxe & Hys & Hye & _ & _ & _ & Hst).
  destruct Hst as (_ & _ & _ & Hc).
  assert (Hocc : ∀ c : cell, Ship.is_occupying_cell s c = true ↔
            Z.min start.1 end_.1 ≤ c.1 ≤ Z.max start.1 end_.1 ∧
            Z.min start.2 end_.2 ≤ c.2 ≤ Z.max start.2 end_.2).
  { intros c. unfold Ship.is_occupying_cell.
    rewrite bool_decide_eq_true, Hc, Hxs, Hxe, Hys, Hye. done. }
  split; [by eapply init_length |].
  split; [apply Hocc; lia |]. split; [apply Hocc; lia | exact Hocc].
Qed.

Lemma ship_cells_span_witness :
  ∃ s, Ship.init (4, 5) (2, 5) true Infinity Infinity = Ok s ∧
       Ship.length s = Z.abs ((4, 5).1 - (2, 5).1) + Z.abs ((4, 5).2 - (2, 5).2) + 1.
Proof.
  destruct (Ship.init (4, 5) (2, 5) true Infinity Infinity) as [s | e |] eqn:Hinit.
  - exists s. split; [reflexivity |].
    exact (proj1 (ship_cells_span (4, 5) (2, 5) true Infinity Infinity s Hinit)).
  - exfalso. vm_compute in Hinit. discriminate Hinit.
  - exfalso. vm_compute in Hinit. discriminate Hinit.
Defined.

(** X3: on a constructed ship, after any sequence of attacks the damaged
    cells are occupied cells, their count is at most the length, one
    attack raises the count by at most one and never lowers it, and the
    ship has sunk exactly when the count equals the length; a ship that
    was never attacked has not sunk. *)
Theorem ship_damage_count_bounds
    (start end_ : cell) (v : bool) (bw bh : extent) (ship : Ship.t) (attacks : list cell)
    (Hinit : Ship.init start end_ v bw bh = Ok ship) :
  let s := attack_all ship attacks in
  Ship.damaged_cells s ⊆ Ship.cells s ∧
  0 ≤ Ship.count_damaged_cells s ≤ Ship.length s ∧
  (Ship.has_sunk s = true ↔ Ship.count_damaged_cells s = Ship.length s) ∧
  (∀ c, Ship.count_damaged_cells s ≤
        Ship.count_damaged_cells (Ship.receive_damage s c).2 ≤
        Ship.count_damaged_cells s + 1) ∧
  Ship.has_sunk ship = false.
Proof.
  intros s.
  destruct (init_Ok _ _ _ _ _ _ Hinit) as (_ & _ & _ & _ & Hd & _ & _ & Hst).
  assert (Hsub : Ship.damaged_cells s ⊆ Ship.cells s).
  { unfold s. rewrite attack_all_damaged, attack_all_cells, Hd. set_solver. }
  pose proof (subseteq_size _ _ Hsub) as Hsize.
  split; [done |]. unfold Ship.count_damaged_cells, Ship.length.
  split; [lia |]. split; [| split].
  - unfold Ship.has_sunk. rewrite bool_decide_eq_true. split.
    + by intros ->.
    + intros Heq. apply set_subseteq_size_eq; [done | lia].
  - intros c. rewrite receive_damage_damaged.
    assert (Hle : (size (Ship.damaged_cells s) ≤
                   size (Ship.damaged_cells s ∪ Ship.cells s ∩ {[c]}))%nat)
      by (apply subseteq_size; set_solver).
    assert (Hge : (size (Ship.damaged_cells s ∪ Ship.cells s ∩ {[c]}) ≤
                   size (Ship.damaged_cells s ∪ {[c]}))%nat)
      by (apply subseteq_size; set_solver).
    pose proof (size_union_alt (Ship.damaged_cells s) ({[c]} : gset cell)) as Hu.
    assert (Hone : (size (({[c]} : gset cell) ∖ Ship.damaged_cells s) ≤ 1)%nat).
    { rewrite <- (size_singleton (C := gset cell) c). apply subseteq_size. set_solver. }
    lia.
  - unfold Ship.has_sunk. apply bool_decide_eq_false. rewrite Hd. intros Hempty.
    pose proof (straight_start_cell ship Hst) as Hin. rewrite <- Hempty in Hin.
    set_solver.
Qed.

Lemma ship_damage_count_bounds_witness :
  let ship := Ship.mk 2 5 4 5 {[ (2, 5); (3, 5); (4, 5) ]} ∅ Infinity Infinity in
  let s := attack_all ship [(3, 5); (7, 5); (3, 5)] in
  Ship.count_damaged_cells s = 1 ∧
  0 ≤ Ship.count_damaged_cells s ≤ Ship.length s.
Proof.
  intros ship s. split; [vm_compute; reflexivity |].
  assert (Hinit : Ship.init (4, 5) (2, 5) true Infinity Infinity = Ok ship)
    by (vm_compute; reflexivity).
  exact (proj1 (proj2 (ship_damage_count_bounds (4, 5) (2, 5) true Infinity Infinity
                         ship [(3, 5); (7, 5); (3, 5)] Hinit))).
Defined.

(** X4: [get_neighbours] never lists a cell twice and lists at most
    eight cells, whatever the cell; for a cell of the ship's board it
    lists exactly the distinct cells one step away that have a positive
    row and either a positive column or the row below: the cell
    below-left is listed even on column 1, where the cells left and
    above-left are left out. *)
Theorem ship_get_neighbours_exact (s : Ship.t) (d n : cell) :
  NoDup (Ship.get_neighbours s d) ∧
  (List.length (Ship.get_neighbours s d) ≤ 8)%nat ∧
  (inside (Ship.board_width s) (Ship.board_height s) d →
   (n ∈ Ship.get_neighbours s d ↔
      adjacent n d ∧ 1 ≤ n.2 ∧ (1 ≤ n.1 ∨ n.2 = d.2 + 1))).
Proof.
  unfold Ship.get_neighbours, appended, adjacent, within_one_step, inside.
  destruct n as [a b], d as [x y]. cbn [fst snd].
  assert (Hne : (a, b) ≠ (x, y) ↔ ¬ (a = x ∧ b = y)) by (by rewrite cell_eq).
  rewrite Hne.
  destruct (le_extent x (Ship.board_width s)), (le_extent y (Ship.board_height s)),
    (Z.leb_spec 2 x), (Z.leb_spec 2 y); simpl; (split; [| split]);
    try (repeat (apply NoDup_cons; split;
                 [rewrite ?elem_of_cons, ?elem_of_nil, ?cell_eq; lia |]);
         apply NoDup_nil_2);
    try lia;
    intros (Hx & Hw & Hy & Hh); try discriminate;
    rewrite ?elem_of_cons, ?elem_of_nil, ?cell_eq; lia.
Qed.

Lemma ship_get_neighbours_exact_witness :
  let s := Ship.mk 1 1 1 3 {[ (1, 1); (1, 2); (1, 3) ]} ∅ (Finite 10) (Finite 10) in
  (0, 3) ∈ Ship.get_neighbours s (1, 2) ∧
  NoDup (Ship.get_neighbours s (0, 12)) ∧
  ((0, 2) ∈ Ship.get_neighbours s (1, 2) ↔
     adjacent (0, 2) (1, 2) ∧ 1 ≤ (0, 2).2 ∧ (1 ≤ (0, 2).1 ∨ (0, 2).2 = (1, 2).2 + 1)).
Proof.
  intros s. split; [vm_compute; set_solver |].
  split; [exact (proj1 (ship_get_neighbours_exact s (0, 12) (0, 0))) |].
  apply (proj2 (proj2 (ship_get_neighbours_exact s (1, 2) (0, 2)))).
  vm_compute. repeat split; discriminate.
Defined.

(** X5: a ship of two or more cells that lies within its board is near
    each of its own cells, and a single-cell ship is not near its own
    cell; so a ship is near itself exactly when it has two or more
    cells. *)
Theorem ship_near_own_cells (start end_ : cell) (v : bool) (bw bh : extent) (s : Ship.t)
    (Hinit : Ship.init start end_ v bw bh = Ok s)
    (Hin : ∀ d, d ∈ Ship.cells s → inside bw bh d) :
  (∀ c, c ∈ Ship.cells s → (Ship.is_near_cell s c = true ↔ 2 ≤ Ship.length s)) ∧
  (Ship.is_near_ship s s = true ↔ 2 ≤ Ship.length s).
Proof.
  destruct (init_Ok _ _ _ _ _ _ Hinit) as (Hxs & Hxe & Hys & Hye & _ & Hbw & Hbh & Hst).
  pose proof (init_length _ _ _ _ _ _ Hinit) as Hlen.
  assert (Hext : ∀ d, d ∈ Ship.cells s →
                      le_extent d.1 (Ship.board_width s) = true ∧
                      le_extent d.2 (Ship.board_height s) = true).
  { intros d Hd. rewrite Hbw, Hbh. destruct (Hin d Hd) as (_ & ? & _ & ?). done. }
  assert (Hown : ∀ c, c ∈ Ship.cells s →
                      (Ship.is_near_cell s c = true ↔ 2 ≤ Ship.length s)).
  { intros c Hc. destruct (Hin c Hc) as (Hc1 & _ & Hc2 & _).
    rewrite is_near_cell_exact by done.
    destruct Hst as (Hx & Hy & Hline & Hbox). split.
    - intros (d & Hd & Hne & Hadj). apply Hbox in Hc, Hd.
      destruct c as [a b], d as [x y]. simpl in *.
      rewrite cell_eq in Hne. lia.
    - intros Htwo. apply Hbox in Hc. destruct c as [a b]. simpl in Hc.
      destruct (decide (a = Ship.x_start s ∧ b = Ship.y_start s)) as [[-> ->] | Hnot].
      + destruct (decide (Ship.x_start s = Ship.x_end s)) as [Hv | Hv].
        * exists (Ship.x_start s, Ship.y_start s + 1). split; [apply Hbox; simpl; lia |].
          unfold adjacent, within_one_step. rewrite cell_eq. simpl. lia.
        * exists (Ship.x_start s + 1, Ship.y_start s). split; [apply Hbox; simpl; lia |].
          unfold adjacent, within_one_step. rewrite cell_eq. simpl. lia.
      + destruct (decide (a = Ship.x_start s)) as [-> | Ha].
        * exists (Ship.x_start s, b - 1). split; [apply Hbox; simpl; lia |].
          unfold adjacent, within_one_step. rewrite cell_eq. simpl. lia.
        * exists (a - 1, b). split; [apply Hbox; simpl; lia |].
          unfold adjacent, within_one_step. rewrite cell_eq. simpl. lia. }
  split; [exact Hown |]. rewrite is_near_ship_true. split.
  - intros (c & Hc & Hn). by apply (Hown c Hc).
  - intros Htwo. exists (Ship.x_start s, Ship.y_start s).
    assert (Hc : (Ship.x_start s, Ship.y_start s) ∈ Ship.cells s)
      by (by apply straight_start_cell).
    split; [done |]. by apply (Hown _ Hc).
Qed.

Lemma ship_near_own_cells_witness :
  ∃ s, Ship.init (3, 3) (3, 3) true Infinity Infinity = Ok s ∧
       (Ship.is_near_ship s s = true ↔ 2 ≤ Ship.length s) ∧
       Ship.is_near_ship s s = false.
Proof.
  destruct (Ship.init (3, 3) (3, 3) true Infinity Infinity) as [s | e |] eqn:Hinit.
  - exists s. split; [reflexivity |]. split.
    + apply (ship_near_own_cells (3, 3) (3, 3) true Infinity Infinity s Hinit).
      intros d Hd.
      assert (Hcells : Ship.cells s = {[ (3, 3) ]}).
      { apply (f_equal (λ o, match o with Ok s => Ship.cells s | _ => ∅ end)) in Hinit.
        rewrite <- Hinit. vm_compute. reflexivity. }
      rewrite Hcells in Hd. apply elem_of_singleton in Hd as ->.
      vm_compute. repeat split; discriminate.
    + apply (f_equal (λ o, match o with
                           | Ok s => Ship.is_near_ship s s
                           | _ => true
                           end)) in Hinit.
      rewrite <- Hinit. vm_compute. reflexivity.
  - exfalso. vm_compute in Hinit. discriminate Hinit.
  - exfalso. vm_compute in Hinit. discriminate Hinit.
Defined.

(** X6: for two ships whose cells lie inside each other's boards,
    [is_near_ship] gives the same answer in both directions. *)
Theorem is_near_ship_symmetric (s other : Ship.t)
    (Hs : ∀ d, d ∈ Ship.cells s →
               inside (Ship.board_width s) (Ship.board_height s) d ∧
               inside (Ship.board_width other) (Ship.board_height other) d)
    (Ho : ∀ d, d ∈ Ship.cells other →
               inside (Ship.board_width s) (Ship.board_height s) d ∧
               inside (Ship.board_width other) (Ship.board_height other) d) :
  Ship.is_near_ship s other = Ship.is_near_ship other s.
Proof.
  assert (Hdir : ∀ s1 s2 : Ship.t,
            (∀ d, d ∈ Ship.cells s1 →
                  inside (Ship.board_width s1) (Ship.board_height s1) d) →
            (∀ d, d ∈ Ship.cells s2 →
                  inside (Ship.board_width s1) (Ship.board_height s1) d) →
            (Ship.is_near_ship s1 s2 = true ↔
             ∃ c d, c ∈ Ship.cells s2 ∧ d ∈ Ship.cells s1 ∧ adjacent c d)).
  { intros s1 s2 H1 H2. rewrite is_near_ship_true. split.
    - intros (c & Hc & Hn). destruct (H2 c Hc) as (? & _ & ? & _).
      apply is_near_cell_exact in Hn; [| | done..].
      + destruct Hn as (d & Hd & Hadj). by exists c, d.
      + intros d Hd. destruct (H1 d Hd) as (_ & ? & _ & ?). done.
    - intros (c & d & Hc & Hd & Hadj). exists c. split; [done |].
      destruct (H2 c Hc) as (? & _ & ? & _).
      apply is_near_cell_exact; [| done..| by exists d].
      intros d' Hd'. destruct (H1 d' Hd') as (_ & ? & _ & ?). done. }
  apply eq_true_iff_eq. rewrite Hdir, Hdir.
  - split; intros (c & d & Hc & Hd & Hadj); exists d, c; auto using adjacent_sym.
  - intros d Hd. by apply Ho.
  - intros d Hd. by apply Hs.
  - intros d Hd. by apply Hs.
  - intros d Hd. by apply Ho.
Qed.

Lemma is_near_ship_symmetric_witness :
  let s := Ship.mk 2 5 4 5 {[ (2, 5); (3, 5); (4, 5) ]} ∅ (Finite 10) (Finite 10) in
  let other := Ship.mk 5 6 5 7 {[ (5, 6); (5, 7) ]} ∅ (Finite 10) (Finite 10) in
  Ship.is_near_ship s other = Ship.is_near_ship other s.
Proof.
  intros s other. apply (is_near_ship_symmetric s other).
  - intros d Hd. unfold s in Hd. cbn [Ship.cells] in Hd.
    rewrite !elem_of_union, !elem_of_singleton in Hd.
    destruct Hd as [[-> | ->] | ->]; vm_compute; repeat split; discriminate.
  - intros d Hd. unfold other in Hd. cbn [Ship.cells] in Hd.
    rewrite !elem_of_union, !elem_of_singleton in Hd.
    destruct Hd as [-> | ->]; vm_compute; repeat split; discriminate.
Defined.

End ship_more.

(** * Further properties of [ShipFactory] *)

Section factory_checks.

Variable self : ShipFactory.t.
Let W := (ShipFactory.board_size self).1.
Let H := (ShipFactory.board_size self).2.

Lemma is_ship_in_bound_within s :
  straight s → within_board W H s → ShipFactory.is_ship_in_bound self s = true.
Proof.
  intros (Hx & Hy & _ & Hc) Hin. unfold ShipFactory.is_ship_in_bound.
  assert (Hs : (Ship.x_start s, Ship.y_start s) ∈ Ship.cells s) by (apply Hc; simpl; lia).
  assert (He : (Ship.x_end s, Ship.y_end s) ∈ Ship.cells s) by (apply Hc; simpl; lia).
  apply Hin in Hs, He. simpl in Hs, He. subst W H.
  destruct (negb _) eqn:Hn; [| done]. apply negb_true_iff, not_true_iff_false in Hn.
  exfalso. apply Hn. rewrite !andb_true_iff, !Z.leb_le. lia.
Qed.

(** X7: [is_ship_in_bound] looks at the endpoints only; for a straight
    ship it holds exactly when every occupied cell is on the board. *)
Theorem is_ship_in_bound_iff_cells (s : Ship.t) (Hst : straight s) :
  ShipFactory.is_ship_in_bound self s = true ↔
  ∀ c : cell, c ∈ Ship.cells s → 1 ≤ c.1 ≤ W ∧ 1 ≤ c.2 ≤ H.
Proof.
  split.
  - intros Hb c Hc. by apply (is_ship_in_bound_true self s Hst Hb c).
  - intros Hall. by apply is_ship_in_bound_within.
Qed.

(** X8: with ships placed so far that are legal, [check_coordinates]
    accepts a straight ship built for this board exactly when the ships
    together with it are still legal; it rejects [None] and any ship that
    is already placed. *)
Theorem check_coordinates_iff_legal (ships : list Ship.t) (s : Ship.t)
    (Hfleet : fleet_inv W H ships) (Hs : placed_on W H s) :
  (ShipFactory.check_coordinates self ships (Some s) = true ↔
     legal_layout W H (ships ++ [s])) ∧
  ShipFactory.check_coordinates self ships None = false ∧
  (s ∈ ships → ShipFactory.check_coordinates self ships (Some s) = false).
Proof.
  destruct Hfleet as [Hpl Hlegal]. split; [| split; [done |]].
  - split.
    + intros Hcheck. unfold ShipFactory.check_coordinates in Hcheck.
      destruct (negb _) eqn:Hb; [discriminate |]. apply negb_false_iff in Hb.
      assert (Hin : within_board W H s)
        by (apply is_ship_in_bound_true; [apply Hs | done]).
      apply legal_layout_snoc; [done.. |]. intros ship Hship.
      destruct (proj1 (check_against_true self ships s) Hcheck ship Hship) as [Ho Hn].
      split.
      * intros Hov. apply (are_overlapping_true self) in Hov. congruence.
      * intros Hnear. apply (is_near_ship_exact self) in Hnear; [congruence | | | done].
        -- by apply Hpl.
        -- by apply Hlegal.
    + intros [Hb Hp]. unfold ShipFactory.check_coordinates.
      assert (Hin : within_board W H s).
      { apply Hb. apply elem_of_app. right. by left. }
      rewrite is_ship_in_bound_within by (done || apply Hs). simpl.
      apply check_against_true. intros ship Hship.
      apply list_elem_of_lookup in Hship as [i Hi].
      assert (Hlt : (i < List.length ships)%nat) by (by eapply lookup_lt_Some).
      destruct (Hp i (List.length ships) ship s) as [Ho Hn].
      * lia.
      * by rewrite lookup_app_l.
      * rewrite lookup_app_r by lia. by rewrite Nat.sub_diag.
      * assert (Hship : ship ∈ ships) by (apply list_elem_of_lookup; eauto).
        split.
        -- apply not_true_iff_false. intros Hov. by apply Ho, (are_overlapping_true self).
        -- apply not_true_iff_false. intros Hnear. apply Hn.
           apply (is_near_ship_exact self); [by apply Hpl | by apply Hlegal | done | done].
  - intros Hin. apply check_coordinates_member; [apply Hs | done].
Qed.

End factory_checks.

Lemma is_ship_in_bound_iff_cells_witness :
  let a := Ship.mk 9 3 11 3 {[ (9, 3); (10, 3); (11, 3) ]} ∅ (Finite 10) (Finite 10) in
  ShipFactory.is_ship_in_bound two_ship_factory a = false ∧
  (ShipFactory.is_ship_in_bound two_ship_factory a = true ↔
   ∀ c : cell, c ∈ Ship.cells a → 1 ≤ c.1 ≤ 10 ∧ 1 ≤ c.2 ≤ 10).
Proof.
  intros a. split; [vm_compute; reflexivity |].
  apply (is_ship_in_bound_iff_cells two_ship_factory a).
  apply (init_straight (9, 3) (11, 3) false (Finite 10) (Finite 10)).
  vm_compute. reflexivity.
Defined.

Lemma check_coordinates_iff_legal_witness :
  let a := Ship.mk 1 1 2 1 {[ (1, 1); (2, 1) ]} ∅ (Finite 10) (Finite 10) in
  let b := Ship.mk 5 5 5 7 {[ (5, 5); (5, 6); (5, 7) ]} ∅ (Finite 10) (Finite 10) in
  ShipFactory.check_coordinates two_ship_factory [a] (Some b) = true ∧
  (ShipFactory.check_coordinates two_ship_factory [a] (Some b) = true ↔
     legal_layout 10 10 ([a] ++ [b])).
Proof.
  intros a b. split; [vm_compute; reflexivity |].
  assert (Ha : straight a).
  { apply (init_straight (1, 1) (2, 1) true (Finite 10) (Finite 10)).
    vm_compute. reflexivity. }
  assert (Hb : straight b).
  { apply (init_straight (5, 5) (5, 7) true (Finite 10) (Finite 10)).
    vm_compute. reflexivity. }
  apply (check_coordinates_iff_legal two_ship_factory [a] b).
  - split.
    + intros s' ->%list_elem_of_singleton. split; [done |]. split; reflexivity.
    + apply (board_init_Ok [a] 10 10 (Board.mk [a] 10 10)). vm_compute. reflexivity.
  - split; [done |]. split; reflexivity.
Defined.


Section factory_coordinates.

Variable self : ShipFactory.t.
Let W := (ShipFactory.board_size self).1.
Let H := (ShipFactory.board_size self).2.

(** X9: the endpoints [generate_random_coordinates] returns always build
    a ship, of [|dimension - 1| + 1] cells: of [dimension] cells when
    [dimension] is at least 1, and then in bound, but of two cells for
    [dimension] 0.  Three random numbers are drawn. *)
Theorem generate_random_coordinates_ship
    (dimension : Z) (g g' : RNG) (start end_ : cell)
    (Hrun : ShipFactory.generate_random_coordinates self dimension g =
            Ok ((start, end_), g')) :
  pos g' = (pos g + 3)%nat ∧
  ∃ s, Ship.init start end_ true (Finite W) (Finite H) = Ok s ∧
       Ship.length s = Z.abs (dimension - 1) + 1 ∧
       (1 ≤ dimension →
          Ship.length s = dimension ∧ ShipFactory.is_ship_in_bound self s = true).
Proof.
  apply generate_random_coordinates_Ok in Hrun as (Hcand & _ & Hpos).
  split; [done |].
  destruct (init_cases start end_ true (Finite W) (Finite H))
    as [(Hx & Hy & _) | (_ & s & Hs)].
  { destruct Hcand as [(? & _) | (? & _)]; done. }
  exists s. split; [done |].
  pose proof (init_length _ _ _ _ _ _ Hs) as Hlen.
  destruct (init_Ok _ _ _ _ _ _ Hs) as (Hxs & Hxe & Hys & Hye & _ & _ & _ & Hst).
  split; [destruct Hcand as [(? & ? & ? & ?) | (? & ? & ? & ?)]; lia |].
  intros Hd. split; [destruct Hcand as [(? & ? & ? & ?) | (? & ? & ? & ?)]; lia |].
  apply is_ship_in_bound_within; [done |].
  intros c Hc. apply Hst in Hc. rewrite Hxs, Hxe, Hys, Hye in Hc. subst W H.
  destruct Hcand as [(? & ? & ? & ?) | (? & ? & ? & ?)]; lia.
Qed.

(** X10: [generate_random_coordinates] raises [ValueError] for a ship
    longer than both sides of the board, and returns for whatever is
    drawn when the ship is at least one cell long and fits both ways. *)
Theorem generate_random_coordinates_range (dimension : Z) (g : RNG) :
  (W < dimension ∧ H < dimension →
     ShipFactory.generate_random_coordinates self dimension g = Raise ValueError) ∧
  (1 ≤ dimension ≤ W ∧ dimension ≤ H →
     ∃ start end_ g',
       ShipFactory.generate_random_coordinates self dimension g = Ok ((start, end_), g')).
Proof.
  unfold ShipFactory.generate_random_coordinates, bind, randint, ret. fold W H.
  split.
  - intros [Hw Hh]. simpl. destruct (negb _).
    + destruct (Z.ltb_spec W 1); [done |].
      destruct (Z.ltb_spec (H - dimension + 1) 1); [done | lia].
    + destruct (Z.ltb_spec (W - dimension + 1) 1); [done | lia].
  - intros [Hw Hh]. simpl. destruct (negb _).
    + destruct (Z.ltb_spec W 1); [lia |].
      destruct (Z.ltb_spec (H - dimension + 1) 1); [lia |]. eauto.
    + destruct (Z.ltb_spec (W - dimension + 1) 1); [lia |].
      destruct (Z.ltb_spec H 1); [lia |]. eauto.
Qed.

End factory_coordinates.

Lemma generate_random_coordinates_ship_witness :
  ∃ start end_ g',
    ShipFactory.generate_random_coordinates two_ship_factory 0 (mkRNG sample_tape 0) =
      Ok ((start, end_), g') ∧
    pos g' = (pos (mkRNG sample_tape 0) + 3)%nat ∧
    ∃ s, Ship.init start end_ true (Finite 10) (Finite 10) = Ok s ∧
         Ship.length s = 2.
Proof.
  destruct (ShipFactory.generate_random_coordinates two_ship_factory 0 (mkRNG sample_tape 0))
    as [[[start end_] g'] | e |] eqn:Hrun.
  - exists start, end_, g'. split; [reflexivity |].
    destruct (generate_random_coordinates_ship two_ship_factory 0 _ _ _ _ Hrun)
      as (Hpos & s & Hs & Hlen & _).
    split; [exact Hpos |]. exists s. split; [exact Hs | exact Hlen].
  - exfalso. vm_compute in Hrun. discriminate Hrun.
  - exfalso. vm_compute in Hrun. discriminate Hrun.
Defined.

Lemma generate_random_coordinates_range_witness :
  ShipFactory.generate_random_coordinates two_ship_factory 11 (mkRNG sample_tape 0) =
    Raise ValueError ∧
  ∃ start end_ g',
    ShipFactory.generate_random_coordinates two_ship_factory 3 (mkRNG sample_tape 0) =
      Ok ((start, end_), g').
Proof.
  split.
  - apply (generate_random_coordinates_range two_ship_factory 11 (mkRNG sample_tape 0)).
    simpl. lia.
  - apply (generate_random_coordinates_range two_ship_factory 3 (mkRNG sample_tape 0)).
    simpl. lia.
Defined.

Section factory_fleets.

Variable self : ShipFactory.t.
Let W := (ShipFactory.board_size self).1.
Let H := (ShipFactory.board_size self).2.

(** X11: when every requested length is at least 1, a fleet that
    [generate_ships] returns lists the ships in the order of the mapping:
    for each length in turn, as many ships of that length as requested;
    items with a count of zero or less add nothing. *)
Theorem generate_ships_in_order (fuel : nat) (g g' : RNG) (fleet : list Ship.t)
    (Hlen : ∀ len n, (len, n) ∈ ShipFactory.ships_per_length self → 0 < n → 1 ≤ len)
    (Hrun : ShipFactory.generate_ships fuel self g = Ok (fleet, g')) :
  Ship.length <$> fleet = requested_lengths (ShipFactory.ships_per_length self) ∧
  ∀ s, s ∈ fleet → placed_on W H s.
Proof.
  apply generate_ships_Ok in Hrun as [[Hpl _] Hlens]; [| done]. done.
Qed.

(** X12: when the lengths are distinct keys and at least 1 and the counts
    are not negative, a fleet that [generate_ships] returns is itself a
    legal layout of straight ships with the requested counts: the call
    can only return for a feasible request. *)
Theorem generate_ships_returns_only_if_feasible
    (fuel : nat) (g g' : RNG) (fleet : list Ship.t)
    (Hdict : NoDup (ShipFactory.ships_per_length self).*1)
    (Hlen : ∀ len n, (len, n) ∈ ShipFactory.ships_per_length self →
                     0 ≤ n ∧ (0 < n → 1 ≤ len))
    (Hrun : ShipFactory.generate_ships fuel self g = Ok (fleet, g')) :
  ((∀ s, s ∈ fleet → straight s) ∧
   legal_layout (ShipFactory.board_size self).1 (ShipFactory.board_size self).2 fleet ∧
   ∀ len n, (len, n) ∈ ShipFactory.ships_per_length self → count_length len fleet = n) ∧
  feasible self.
Proof.
  apply generate_ships_Ok in Hrun as [[Hpl Hlegal] Hlens].
  2:{ intros len n Hin. by apply Hlen. }
  assert (Hfleet :
    (∀ s, s ∈ fleet → straight s) ∧
    legal_layout (ShipFactory.board_size self).1 (ShipFactory.board_size self).2 fleet ∧
    ∀ len n, (len, n) ∈ ShipFactory.ships_per_length self → count_length len fleet = n).
  { split; [| split; [done |]].
    - intros s Hs. by apply Hpl.
    - intros len n Hin. rewrite (count_length_fmap self), Hlens.
      rewrite (count_requested self len n) by done.
      destruct (Hlen len n Hin). lia. }
  split; [exact Hfleet |]. by exists fleet.
Qed.

Lemma for_items_nothing_requested restart items : ∀ ships st g,
  (∀ len n, (len, n) ∈ items → n ≤ 0) →
  ShipFactory.for_items items self restart ships st g =
  Ok (ShipFactory.Continue (ships, st), g).
Proof.
  induction items as [| [len n] items IH]; intros ships st g Hall; [done |].
  cbn [ShipFactory.for_items].
  assert (Hn : Z.to_nat n = 0%nat).
  { specialize (Hall len n ltac:(by left)). lia. }
  rewrite Hn. unfold bind. cbn [ShipFactory.for_ship_nb ret].
  apply IH. intros len' n' Hin. apply (Hall len' n'). by right.
Qed.

(** X13: for an empty mapping, or one whose counts are all zero or less,
    [generate_ships] returns the empty fleet without drawing a random
    number. *)
Theorem generate_ships_nothing_requested (fuel : nat) (g : RNG)
    (Hnone : ∀ len n, (len, n) ∈ ShipFactory.ships_per_length self → n ≤ 0) :
  ShipFactory.generate_ships (S fuel) self g = Ok ([], g).
Proof.
  cbn [ShipFactory.generate_ships]. unfold bind.
  by rewrite for_items_nothing_requested.
Qed.

End factory_fleets.

Lemma generate_ships_in_order_witness :
  ∃ fleet g',
    ShipFactory.generate_ships 3 two_ship_factory (mkRNG sample_tape 0) = Ok (fleet, g') ∧
    Ship.length <$> fleet = [2; 3].
Proof.
  destruct (ShipFactory.generate_ships 3 two_ship_factory (mkRNG sample_tape 0))
    as [[fleet g'] | e |] eqn:Hrun.
  - exists fleet, g'. split; [reflexivity |].
    refine (proj1 (generate_ships_in_order two_ship_factory 3 _ g' fleet _ Hrun)).
    intros len n Hin _. cbn in Hin.
    apply elem_of_cons in Hin as [[= -> ->] | Hin];
      [| apply list_elem_of_singleton in Hin as [= -> ->]]; lia.
  - exfalso. vm_compute in Hrun. discriminate Hrun.
  - exfalso. vm_compute in Hrun. discriminate Hrun.
Defined.

Lemma generate_ships_returns_only_if_feasible_witness :
  ∃ fleet g',
    ShipFactory.generate_ships 3 two_ship_factory (mkRNG sample_tape 0) = Ok (fleet, g') ∧
    feasible two_ship_factory.
Proof.
  destruct (ShipFactory.generate_ships 3 two_ship_factory (mkRNG sample_tape 0))
    as [[fleet g'] | e |] eqn:Hrun.
  - exists fleet, g'. split; [reflexivity |].
    refine (proj2 (generate_ships_returns_only_if_feasible two_ship_factory 3 _ g' fleet
                     two_ship_keys _ Hrun)).
    intros len n Hin. cbn in Hin.
    apply elem_of_cons in Hin as [[= -> ->] | Hin];
      [| apply list_elem_of_singleton in Hin as [= -> ->]]; lia.
  - exfalso. vm_compute in Hrun. discriminate Hrun.
  - exfalso. vm_compute in Hrun. discriminate Hrun.
Defined.

Lemma generate_ships_nothing_requested_witness :
  ShipFactory.generate_ships 1 (ShipFactory.init (10, 10) (Some [(3, 0); (2, -1)]))
                             (mkRNG sample_tape 0) =
  Ok ([], mkRNG sample_tape 0).
Proof.
  apply (generate_ships_nothing_requested
           (ShipFactory.init (10, 10) (Some [(3, 0); (2, -1)])) 0 (mkRNG sample_tape 0)).
  intros len n Hin. cbn in Hin.
  apply elem_of_cons in Hin as [[= -> ->] | Hin];
    [| apply list_elem_of_singleton in Hin as [= -> ->]]; lia.
Defined.

(** * Properties of [RandomPlayer] *)

Section random_player.

Lemma random_coordinates_Ok self g c g' :
  RandomPlayer.get_random_coordinates self g = Ok (c, g') →
  1 ≤ c.1 ≤ RandomPlayer.board_width self ∧ 1 ≤ c.2 ≤ RandomPlayer.board_height self.
Proof.
  unfold RandomPlayer.get_random_coordinates.
  intros (x & g1 & Hx & Hrest)%bind_Ok. apply bind_Ok in Hrest as (y & g2 & Hy & Hret).
  apply ret_Ok in Hret as [-> _]. apply randint_Ok in Hx as [Hx _], Hy as [Hy _]. done.
Qed.

Lemma random_target_Ok fuel self : ∀ g c g',
  RandomPlayer.generate_random_target fuel self g = Ok (c, g') →
  (1 ≤ c.1 ≤ RandomPlayer.board_width self ∧ 1 ≤ c.2 ≤ RandomPlayer.board_height self) ∧
  c ∉ RandomPlayer.tracker self.
Proof.
  induction fuel as [| fuel IH]; intros g c g'; [done |].
  cbn [RandomPlayer.generate_random_target].
  intros (rc & g1 & Hrc & Hrest)%bind_Ok. cbv zeta in Hrest.
  case_bool_decide as Hatt; [by apply IH in Hrest |].
  apply ret_Ok in Hrest as [-> _]. split; [by eapply random_coordinates_Ok | done].
Qed.

(** X14: the cell [RandomPlayer.select_target] returns is on the board
    and was not attacked before; the call adds it to the tracker and
    changes nothing else. *)
Theorem random_select_target_fresh
    (fuel : nat) (self self' : RandomPlayer.t) (g g' : RNG) (c : cell)
    (Hrun : RandomPlayer.select_target fuel self g = Ok ((c, self'), g')) :
  (1 ≤ c.1 ≤ RandomPlayer.board_width self ∧ 1 ≤ c.2 ≤ RandomPlayer.board_height self) ∧
  (c ∉ RandomPlayer.tracker self) ∧
  self' = RandomPlayer.mk (RandomPlayer.board_width self) (RandomPlayer.board_height self)
                          (RandomPlayer.tracker self ∪ {[ c ]}).
Proof.
  unfold RandomPlayer.select_target in Hrun.
  apply bind_Ok in Hrun as (c1 & g1 & Hgen & Hret).
  apply ret_Ok in Hret as [[= -> ->] _].
  apply random_target_Ok in Hgen as [Hin Hfresh]. done.
Qed.

Lemma random_select_target_Ok fuel self g c self' g' :
  RandomPlayer.select_target fuel self g = Ok ((c, self'), g') →
  (1 ≤ c.1 ≤ RandomPlayer.board_width self ∧ 1 ≤ c.2 ≤ RandomPlayer.board_height self) ∧
  (c ∉ RandomPlayer.tracker self) ∧
  RandomPlayer.board_width self' = RandomPlayer.board_width self ∧
  RandomPlayer.board_height self' = RandomPlayer.board_height self ∧
  RandomPlayer.tracker self' = RandomPlayer.tracker self ∪ {[ c ]}.
Proof.
  unfold RandomPlayer.select_target. intros (c1 & g1 & Hgen & Hret)%bind_Ok.
  apply ret_Ok in Hret as [[= -> ->] _].
  apply random_target_Ok in Hgen as [Hin Hfresh]. done.
Qed.

Lemma random_targets_Ok n fuel : ∀ self g cs self' g',
  random_targets n fuel self g = Ok ((cs, self'), g') →
  List.length cs = n ∧ NoDup cs ∧
  (∀ c, c ∈ cs →
        (1 ≤ c.1 ≤ RandomPlayer.board_width self ∧
         1 ≤ c.2 ≤ RandomPlayer.board_height self) ∧
        c ∉ RandomPlayer.tracker self) ∧
  RandomPlayer.board_width self' = RandomPlayer.board_width self ∧
  RandomPlayer.board_height self' = RandomPlayer.board_height self ∧
  RandomPlayer.tracker self' = RandomPlayer.tracker self ∪ list_to_set cs.
Proof.
  induction n as [| n IH]; intros self g cs self' g'.
  - intros [[= -> ->] _]%ret_Ok. split; [done |]. split; [apply NoDup_nil_2 |].
    split; [intros c Hc; by apply elem_of_nil in Hc |]. split; [done |].
    split; [done |]. set_solver.
  - cbn [random_targets].
    intros ([c p1] & g1 & Hsel & Hrest)%bind_Ok.
    apply bind_Ok in Hrest as ([cs1 p2] & g2 & Hplay & Hret).
    apply ret_Ok in Hret as [[= -> ->] _]. simpl in *.
    apply random_select_target_Ok in Hsel as (Hin & Hfresh & Hw & Hh & Htr).
    apply IH in Hplay as (Hlen & Hnd & Hall & Hw2 & Hh2 & Htr2).
    split; [simpl; lia |]. split.
    + apply NoDup_cons. split; [| done]. intros Hc.
      destruct (Hall c Hc) as [_ Hnot]. apply Hnot. rewrite Htr. set_solver.
    + split; [| split; [congruence | split; [congruence |]]].
      * intros c' [-> | Hc']%elem_of_cons; [done |].
        destruct (Hall c' Hc') as [Hb Hnot]. rewrite Hw, Hh in Hb.
        split; [done |]. rewrite Htr in Hnot. set_solver.
      * rewrite Htr2, Htr. set_solver.
Qed.

Lemma cell_index_inj (height : Z) (c d : cell) :
  1 ≤ c.2 ≤ height → 1 ≤ d.2 ≤ height →
  cell_index height c = cell_index height d → c = d.
Proof.
  unfold cell_index. destruct c as [a b], d as [x y]. simpl. intros Hb Hy Heq.
  assert (a = x) by nia. subst. f_equal. lia.
Qed.

Lemma cells_on_board_count (width height : Z) (cs : list cell) :
  NoDup cs →
  (∀ c, c ∈ cs → 1 ≤ c.1 ≤ width ∧ 1 ≤ c.2 ≤ height) →
  Z.of_nat (List.length cs) ≤ Z.max 0 (width * height).
Proof.
  intros Hnd Hin.
  assert (Hidx : NoDup (cell_index height <$> cs)).
  { apply NoDup_fmap_2_strong; [| done]. intros c d Hc Hd.
    apply cell_index_inj; [by apply Hin | by apply Hin]. }
  assert (Hsub : cell_index height <$> cs ⊆+ seqZ 0 (width * height)).
  { apply NoDup_submseteq; [done |]. intros i (c & -> & Hc)%list_elem_of_fmap.
    apply elem_of_seqZ. destruct (Hin c Hc) as [Hc1 Hc2]. unfold cell_index.
    assert (0 ≤ (c.1 - 1) * height) by (apply Z.mul_nonneg_nonneg; lia).
    assert ((c.1 - 1) * height ≤ (width - 1) * height)
      by (apply Z.mul_le_mono_nonneg_r; lia).
    lia. }
  apply submseteq_length in Hsub. rewrite length_fmap, length_seqZ in Hsub. lia.
Qed.

(** X15: the targets of consecutive [RandomPlayer.select_target] calls
    are pairwise distinct cells of the board that were not attacked
    before the first call, all of them are in the tracker afterwards, and
    there are at most width times height of them (none when that product
    is not positive). *)
Theorem random_targets_never_repeat
    (n fuel : nat) (self self' : RandomPlayer.t) (g g' : RNG) (cs : list cell)
    (Hrun : random_targets n fuel self g = Ok ((cs, self'), g')) :
  NoDup cs ∧
  (∀ c, c ∈ cs →
        (1 ≤ c.1 ≤ RandomPlayer.board_width self ∧
         1 ≤ c.2 ≤ RandomPlayer.board_height self) ∧
        c ∉ RandomPlayer.tracker self) ∧
  RandomPlayer.tracker self' = RandomPlayer.tracker self ∪ list_to_set cs ∧
  Z.of_nat n ≤ Z.max 0 (RandomPlayer.board_width self * RandomPlayer.board_height self).
Proof.
  apply random_targets_Ok in Hrun as (Hlen & Hnd & Hall & _ & _ & Htr).
  split; [done |]. split; [done |]. split; [done |]. rewrite <- Hlen.
  apply cells_on_board_count; [done |]. intros c Hc. by apply Hall.
Qed.

(** X16: once every cell of a board of at least one cell is in the
    tracker, the loop of [RandomPlayer.generate_random_target] never
    ends: whatever is drawn, [select_target] does not return. *)
Theorem random_select_target_exhausted (fuel : nat) (self : RandomPlayer.t) (g : RNG)
    (Hw : 1 ≤ RandomPlayer.board_width self) (Hh : 1 ≤ RandomPlayer.board_height self)
    (Hall : ∀ c : cell, 1 ≤ c.1 ≤ RandomPlayer.board_width self →
                        1 ≤ c.2 ≤ RandomPlayer.board_height self →
                        c ∈ RandomPlayer.tracker self) :
  RandomPlayer.generate_random_target fuel self g = OutOfFuel ∧
  RandomPlayer.select_target fuel self g = OutOfFuel.
Proof.
  assert (Hloop : ∀ fuel g, RandomPlayer.generate_random_target fuel self g = OutOfFuel).
  { clear fuel g. induction fuel as [| fuel IH]; intros g; [done |].
    cbn [RandomPlayer.generate_random_target].
    unfold bind at 1, RandomPlayer.get_random_coordinates, bind, randint, ret.
    destruct (Z.ltb_spec (RandomPlayer.board_width self) 1); [lia |].
    destruct (Z.ltb_spec (RandomPlayer.board_height self) 1); [lia |].
    rewrite bool_decide_eq_true_2; [apply IH |].
    apply Hall; simpl;
      match goal with
      | |- context [?r `mod` ?m] => pose proof (Z.mod_pos_bound r m)
      end; lia. }
  split; [apply Hloop |]. unfold RandomPlayer.select_target, bind. by rewrite Hloop.
Qed.

End random_player.

Lemma random_select_target_fresh_witness :
  ∃ c self' g',
    RandomPlayer.select_target 5 (RandomPlayer.init 10 10) (mkRNG sample_tape 0) =
      Ok ((c, self'), g') ∧
    (c ∉ RandomPlayer.tracker (RandomPlayer.init 10 10)).
Proof.
  destruct (RandomPlayer.select_target 5 (RandomPlayer.init 10 10) (mkRNG sample_tape 0))
    as [[[c self'] g'] | e |] eqn:Hrun.
  - exists c, self', g'. split; [reflexivity |].
    exact (proj1 (proj2 (random_select_target_fresh 5 _ self' _ g' c Hrun))).
  - exfalso. vm_compute in Hrun. discriminate Hrun.
  - exfalso. vm_compute in Hrun. discriminate Hrun.
Defined.

Lemma random_targets_never_repeat_witness :
  ∃ cs self' g',
    random_targets 4 50 (RandomPlayer.init 2 2) (mkRNG sample_tape 0) =
      Ok ((cs, self'), g') ∧
    NoDup cs ∧ List.length cs = 4%nat.
Proof.
  assert (Hlen : match random_targets 4 50 (RandomPlayer.init 2 2) (mkRNG sample_tape 0) with
                 | Ok (cs, _, _) => List.length cs = 4%nat
                 | _ => False
                 end) by (vm_compute; reflexivity).
  destruct (random_targets 4 50 (RandomPlayer.init 2 2) (mkRNG sample_tape 0))
    as [[[cs self'] g'] | e |] eqn:Hrun; [| done..].
  exists cs, self', g'. split; [reflexivity |]. split; [| exact Hlen].
  exact (proj1 (random_targets_never_repeat 4 50 _ self' _ g' cs Hrun)).
Defined.

Lemma random_select_target_exhausted_witness :
  RandomPlayer.generate_random_target 20 exhausted_player (mkRNG sample_tape 0) = OutOfFuel ∧
  RandomPlayer.select_target 20 exhausted_player (mkRNG sample_tape 0) = OutOfFuel.
Proof.
  apply (random_select_target_exhausted 20 exhausted_player (mkRNG sample_tape 0)).
  - simpl. lia.
  - simpl. lia.
  - intros [a b] Ha Hb. simpl in Ha, Hb.
    assert (b = 1) as -> by lia. assert (a = 1 ∨ a = 2) as [-> | ->] by lia;
      unfold exhausted_player; simpl; set_solver.
Defined.

(** * Further properties of [AutomaticPlayer] *)

Section automatic_player_more.

(** X17: in every mode, the cell [AutomaticPlayer.select_target] returns
    is on the board, was not attacked before and is not near a recorded
    sunken ship; the call adds it to the tracker, makes it the last
    target and leaves the recorded hits and sunken ships as they were. *)
Theorem automatic_select_target_any_mode
    (fuel depth : nat) (self self' : AutomaticPlayer.t) (g g' : RNG) (c : cell)
    (Hrun : AutomaticPlayer.select_target fuel depth self g = Ok ((c, self'), g')) :
  (1 ≤ c.1 ≤ AutomaticPlayer.board_width self ∧
   1 ≤ c.2 ≤ AutomaticPlayer.board_height self) ∧
  (c ∉ AutomaticPlayer.tracker self) ∧
  AutomaticPlayer.is_close_to_ship self c = false ∧
  self' = AutomaticPlayer.mk (AutomaticPlayer.board_width self)
            (AutomaticPlayer.board_height self)
            (AutomaticPlayer.tracker self ∪ {[ c ]})
            (AutomaticPlayer.sunken_ships self)
            (AutomaticPlayer.successful_hits self) (Some c).
Proof.
  apply select_target_Ok in Hrun as (hunt & hits & g1 & _ & Hdraw & ->).
  apply draw_target_Ok in Hdraw as (Hfresh & Hin & Hclose & _).
  split; [by apply is_it_within_bounds_true |]. split; [done |]. split; [| done].
  unfold AutomaticPlayer.are_there_sunken_ships in Hclose.
  case_bool_decide as Hlen; [by apply Hclose |].
  unfold AutomaticPlayer.is_close_to_ship.
  destruct (AutomaticPlayer.sunken_ships self); [done | simpl in Hlen; lia].
Qed.

(** X18: around a hit on the board, the hunt candidates that
    [get_neighbours] lists with [cell_hunt=True] are exactly the
    4-directional neighbours that are on the board. *)
Theorem hunt_neighbours_exact (self : AutomaticPlayer.t) (hit c : cell)
    (Hhit : AutomaticPlayer.is_it_within_bounds self hit = true) :
  c ∈ AutomaticPlayer.get_neighbours self hit true ↔
  adjacent4 c hit ∧ AutomaticPlayer.is_it_within_bounds self c = true.
Proof.
  rewrite !is_it_within_bounds_true in *.
  unfold AutomaticPlayer.get_neighbours, appended, adjacent4.
  destruct c as [a b], hit as [x y]. simpl in *.
  destruct (Z.leb_spec x (AutomaticPlayer.board_width self - 1)),
           (Z.leb_spec y (AutomaticPlayer.board_height self - 1)),
           (Z.leb_spec 2 x), (Z.leb_spec 2 y); simpl;
    rewrite ?elem_of_cons, ?elem_of_nil, ?cell_eq; lia.
Qed.

(** X19: for two cells of the board, the flood fill's [get_neighbours]
    lists one for the other exactly when they are distinct and one step
    apart, except that it leaves out the cell below-left of a cell of the
    last column; for a cell of the first column that is neither on the
    last column nor on the last row it lists the cell below-left, which
    is off the board. *)
Theorem flood_neighbours_exact (self : AutomaticPlayer.t) (h c : cell)
    (Hh : AutomaticPlayer.is_it_within_bounds self h = true)
    (Hc : AutomaticPlayer.is_it_within_bounds self c = true) :
  (c ∈ AutomaticPlayer.get_neighbours self h false ↔
     adjacent c h ∧
     ¬ (h.1 = AutomaticPlayer.board_width self ∧ c = (h.1 - 1, h.2 + 1))) ∧
  ((0, h.2 + 1) ∈ AutomaticPlayer.get_neighbours self h false ↔
     h.1 = 1 ∧ h.1 < AutomaticPlayer.board_width self ∧
     h.2 < AutomaticPlayer.board_height self).
Proof.
  rewrite !is_it_within_bounds_true in *.
  unfold AutomaticPlayer.get_neighbours, appended, adjacent, within_one_step.
  destruct c as [a b], h as [x y]. simpl in *.
  assert (Hne : (a, b) ≠ (x, y) ↔ ¬ (a = x ∧ b = y)) by (by rewrite cell_eq).
  rewrite Hne.
  destruct (Z.leb_spec x (AutomaticPlayer.board_width self - 1)),
           (Z.leb_spec y (AutomaticPlayer.board_height self - 1)),
           (Z.leb_spec 2 x), (Z.leb_spec 2 y); simpl; split;
    rewrite ?elem_of_cons, ?elem_of_nil, ?cell_eq; lia.
Qed.

(** X20: in a hunt around a single open hit, when every 4-directional
    neighbour of the hit that is on the board was attacked already or is
    near a sunken ship, no cell passes the tests of the loop and
    [select_target] does not return. *)
Theorem hunt_without_candidate_never_returns
    (fuel depth : nat) (self : AutomaticPlayer.t) (g : RNG) (hit : cell)
    (Hopen : open_hits self = Ok [Some hit])
    (Hnone : ∀ c, adjacent4 c hit →
                  AutomaticPlayer.is_it_within_bounds self c = true →
                  c ∈ AutomaticPlayer.tracker self ∨
                  AutomaticPlayer.is_close_to_ship self c = true) :
  ∀ r, AutomaticPlayer.select_target fuel depth self g ≠ Ok r.
Proof.
  intros [[c self'] g'] Hrun.
  pose proof Hrun as Hsel.
  apply select_target_Ok in Hsel as (hunt & hits & g1 & Hhunt & Hdraw & _).
  rewrite (open_hits_hunt self _ Hopen) in Hhunt. injection Hhunt as <- <-.
  apply draw_target_Ok in Hdraw as (Hfresh & Hin & Hclose & Hh).
  destruct (Hh eq_refl) as (rc & g2 & g3 & Hcell).
  unfold AutomaticPlayer.hunting_cell in Hcell.
  rewrite bool_decide_eq_false_2 in Hcell by (simpl; lia).
  case_bool_decide as Hn; apply ret_Ok in Hcell as [[= <-] _].
  apply hunt_neighbours_adjacent4 in Hn.
  destruct (Hnone c Hn Hin) as [Htr | Hnear]; [done |].
  unfold AutomaticPlayer.are_there_sunken_ships in Hclose.
  case_bool_decide as Hlen; [rewrite Hclose in Hnear; done |].
  unfold AutomaticPlayer.is_close_to_ship in Hnear.
  destruct (AutomaticPlayer.sunken_ships self); [done | simpl in Hlen; lia].
Qed.

End automatic_player_more.

Lemma automatic_select_target_any_mode_witness :
  ∃ c self' g',
    AutomaticPlayer.select_target 500 50 one_hit_player (mkRNG sample_tape 2) =
      Ok ((c, self'), g') ∧
    (c ∉ AutomaticPlayer.tracker one_hit_player) ∧
    AutomaticPlayer.is_close_to_ship one_hit_player c = false.
Proof.
  assert (Hok : match AutomaticPlayer.select_target 500 50 one_hit_player
                        (mkRNG sample_tape 2) with
                | Ok _ => True
                | _ => False
                end) by (vm_compute; exact I).
  destruct (AutomaticPlayer.select_target 500 50 one_hit_player (mkRNG sample_tape 2))
    as [[[c self'] g'] | e |] eqn:Hrun; [| done..].
  exists c, self', g'. split; [reflexivity |].
  destruct (automatic_select_target_any_mode 500 50 one_hit_player self' _ g' c Hrun)
    as (_ & Hfresh & Hfar & _).
  split; [exact Hfresh | exact Hfar].
Defined.

Lemma hunt_neighbours_exact_witness :
  (2, 1) ∈ AutomaticPlayer.get_neighbours one_hit_player (1, 1) true ↔
  adjacent4 (2, 1) (1, 1) ∧ AutomaticPlayer.is_it_within_bounds one_hit_player (2, 1) = true.
Proof.
  apply (hunt_neighbours_exact one_hit_player (1, 1) (2, 1)). reflexivity.
Defined.

Lemma flood_neighbours_exact_witness :
  ((9, 4) ∈ AutomaticPlayer.get_neighbours one_hit_player (10, 3) false ↔
     adjacent (9, 4) (10, 3) ∧
     ¬ ((10, 3).1 = AutomaticPlayer.board_width one_hit_player ∧
        (9, 4) = ((10, 3).1 - 1, (10, 3).2 + 1))) ∧
  ((0, (10, 3).2 + 1) ∈ AutomaticPlayer.get_neighbours one_hit_player (10, 3) false ↔
     (10, 3).1 = 1 ∧ (10, 3).1 < AutomaticPlayer.board_width one_hit_player ∧
     (10, 3).2 < AutomaticPlayer.board_height one_hit_player).
Proof.
  apply (flood_neighbours_exact one_hit_player (10, 3) (9, 4)); reflexivity.
Defined.

Lemma hunt_without_candidate_never_returns_witness :
  AutomaticPlayer.select_target 30 10 cornered_player (mkRNG sample_tape 0) = OutOfFuel.
Proof.
  destruct (AutomaticPlayer.select_target 30 10 cornered_player (mkRNG sample_tape 0))
    as [r | e |] eqn:Hrun.
  - exfalso. revert r Hrun.
    apply (hunt_without_candidate_never_returns 30 10 cornered_player
             (mkRNG sample_tape 0) (1, 1)).
    + vm_compute. reflexivity.
    + intros [a b] Hadj Hin. left.
      apply (is_it_within_bounds_true cornered_player) in Hin.
      unfold adjacent4 in Hadj. simpl in *.
      assert ((a = 2 ∧ b = 1) ∨ (a = 1 ∧ b = 2)) as [[-> ->] | [-> ->]] by lia;
        unfold cornered_player; simpl; set_solver.
  - exfalso. vm_compute in Hrun. discriminate Hrun.
  - reflexivity.
Defined.

Section hunt_accounting.









End hunt_accounting.

Section result_feedback.

Lemma receive_result_fields depth self hit sunk q :
  AutomaticPlayer.receive_result depth self hit sunk = Ok q →
  AutomaticPlayer.board_width q = AutomaticPlayer.board_width self ∧
  AutomaticPlayer.board_height q = AutomaticPlayer.board_height self ∧
  AutomaticPlayer.tracker q = AutomaticPlayer.tracker self ∧
  AutomaticPlayer.last_target q = AutomaticPlayer.last_target self ∧
  AutomaticPlayer.successful_hits q =
    AutomaticPlayer.successful_hits self ++
    (if hit then [AutomaticPlayer.last_target self] else []) ∧
  ∃ new, AutomaticPlayer.sunken_ships q = AutomaticPlayer.sunken_ships self ++ new ∧
         List.length new = (if hit && sunk then 1 else 0)%nat.
Proof.
  unfold AutomaticPlayer.receive_result.
  set (p1 := if hit then _ else self).
  assert (Hp1 : AutomaticPlayer.board_width p1 = AutomaticPlayer.board_width self ∧
                AutomaticPlayer.board_height p1 = AutomaticPlayer.board_height self ∧
                AutomaticPlayer.tracker p1 = AutomaticPlayer.tracker self ∧
                AutomaticPlayer.last_target p1 = AutomaticPlayer.last_target self ∧
                AutomaticPlayer.successful_hits p1 =
                  AutomaticPlayer.successful_hits self ++
                  (if hit then [AutomaticPlayer.last_target self] else []) ∧
                AutomaticPlayer.sunken_ships p1 = AutomaticPlayer.sunken_ships self).
  { unfold p1. destruct hit; simpl; [done |]. by rewrite app_nil_r. }
  destruct Hp1 as (Hw & Hh & Htr & Hlt & Hhits & Hss).
  destruct (hit && sunk).
  - destruct (AutomaticPlayer.last_target p1) as [target |] eqn:Hlast; [| done].
    destruct (AutomaticPlayer.find_start_and_end depth p1 target)
      as [[[start |] [end_ |]] | |]; simpl; try discriminate.
    destruct (Ship.init start end_ true Infinity Infinity) as [ship | |];
      simpl; try discriminate.
    intros [= <-]. cbn [AutomaticPlayer.with_sunken_ships AutomaticPlayer.board_width
                        AutomaticPlayer.board_height AutomaticPlayer.tracker
                        AutomaticPlayer.last_target AutomaticPlayer.successful_hits
                        AutomaticPlayer.sunken_ships].
    split; [exact Hw |]. split; [exact Hh |]. split; [exact Htr |].
    split; [congruence |]. split; [exact Hhits |].
    exists (ship :: nil). by rewrite Hss.
  - intros [= <-].
    split; [exact Hw |]. split; [exact Hh |]. split; [exact Htr |].
    split; [exact Hlt |]. split; [exact Hhits |].
    exists nil. by rewrite app_nil_r.
Qed.

(** X22: [receive_result] only appends to the memory: the board size, the
    tracker and the last target stay as they are; on a hit the last
    target is appended to the recorded hits, otherwise they stay as they
    are; one sunken ship is appended when the hit sank a ship, none
    otherwise. *)
Theorem receive_result_appends
    (depth : nat) (self q : AutomaticPlayer.t) (is_ship_hit has_ship_sunk : bool)
    (Hrun : AutomaticPlayer.receive_result depth self is_ship_hit has_ship_sunk = Ok q) :
  AutomaticPlayer.board_width q = AutomaticPlayer.board_width self ∧
  AutomaticPlayer.board_height q = AutomaticPlayer.board_height self ∧
  AutomaticPlayer.tracker q = AutomaticPlayer.tracker self ∧
  AutomaticPlayer.last_target q = AutomaticPlayer.last_target self ∧
  AutomaticPlayer.successful_hits q =
    AutomaticPlayer.successful_hits self ++
    (if is_ship_hit then [AutomaticPlayer.last_target self] else []) ∧
  ∃ new, AutomaticPlayer.sunken_ships q = AutomaticPlayer.sunken_ships self ++ new ∧
         List.length new = (if is_ship_hit && has_ship_sunk then 1 else 0)%nat.
Proof. by apply receive_result_fields in Hrun. Qed.

Lemma covers_empty vertical fixed lo hi l :
  hi < lo → covers_line vertical fixed lo hi l → l = [].
Proof.
  intros Hlt [_ Hel]. destruct l as [| x l]; [done |].
  destruct (proj1 (Hel x) ltac:(by left)) as (j & Hj & _). lia.
Qed.

(** On a segment of recorded hits that no other recorded hit touches,
    [find_start_and_end] returns the two ends of the segment, whichever
    of its cells it starts from; the segment may be a single cell. *)
Lemma find_start_and_end_segment p vertical fixed a b depth k ends :
  (∀ i, a ≤ i ≤ b →
     AutomaticPlayer.is_it_within_bounds p (line_cell vertical fixed i) = true) →
  (∀ i, a ≤ i ≤ b →
     Some (line_cell vertical fixed i) ∈ AutomaticPlayer.successful_hits p) →
  (∀ n i, a ≤ i ≤ b → within_one_step n (line_cell vertical fixed i) →
     Some n ∈ AutomaticPlayer.successful_hits p →
     ∃ j, n = line_cell vertical fixed j ∧ a ≤ j ≤ b) →
  a ≤ k ≤ b →
  AutomaticPlayer.find_start_and_end depth p (line_cell vertical fixed k) = Ok ends →
  ends = (Some (line_cell vertical fixed a), Some (line_cell vertical fixed b)).
Proof.
  intros Hb1 Hrec1 Hiso1 Hk Hends.
  destruct (decide (a < b)) as [Hab | Hab].
  - by apply (find_start_and_end_run p vertical fixed a b Hb1 Hrec1 Hiso1 Hab depth k).
  - assert (a = k ∧ b = k) as [-> ->] by lia.
    unfold AutomaticPlayer.find_start_and_end in Hends.
    destruct (AutomaticPlayer.get_all_cells depth p _ _) as [l | |] eqn:Hl;
      cbn [obind] in Hends; try discriminate.
    apply (get_all_cells_run p vertical fixed k k Hb1 Hrec1 Hiso1) in Hl
      as (lu & ld & -> & Hu & Hd); [| lia].
    apply covers_empty in Hu, Hd; try lia. subst lu ld.
    cbn in Hends. by injection Hends as <-.
Qed.

(** The ship built from the two ends of a segment occupies the segment. *)
Lemma init_segment_cells vertical fixed a b v bw bh ship :
  a ≤ b →
  Ship.init (line_cell vertical fixed a) (line_cell vertical fixed b) v bw bh = Ok ship →
  (∀ c, c ∈ Ship.cells ship ↔ on_segment vertical fixed a b c) ∧
  Ship.length ship = b - a + 1.
Proof.
  intros Hab Hship.
  pose proof (init_length _ _ _ _ _ _ Hship) as Hlen.
  destruct (init_Ok _ _ _ _ _ _ Hship) as (Hxs & Hxe & Hys & Hye & _ & _ & _ & Hst).
  destruct Hst as (_ & _ & _ & Hbox).
  unfold on_segment, line_cell in *. destruct vertical; simpl in *.
  - split; [| lia]. intros [x y]. rewrite Hbox, Hxs, Hxe, Hys, Hye. simpl. split.
    + intros [Hx Hy]. exists y. split; [lia |]. f_equal. lia.
    + intros (j & Hj & [= -> ->]). lia.
  - split; [| lia]. intros [x y]. rewrite Hbox, Hxs, Hxe, Hys, Hye. simpl. split.
    + intros [Hx Hy]. exists x. split; [lia |]. f_equal. lia.
    + intros (j & Hj & [= -> ->]). lia.
Qed.

(** X23: when the last target is reported as the hit that sinks a ship,
    and with it the recorded hits hold a run of consecutive cells of the
    board on one row or column that contains the target and that no
    other recorded hit touches, [receive_result] records a sunken ship
    that occupies exactly the cells of the run; and it returns when the
    recursion limit allows one nested call per cell of the run. *)
Theorem receive_result_records_run
    (depth : nat) (self : AutomaticPlayer.t) (vertical : bool) (fixed a b k : Z)
    (Htarget : AutomaticPlayer.last_target self = Some (line_cell vertical fixed k))
    (Hk : a ≤ k ≤ b)
    (Hbounds : ∀ i, a ≤ i ≤ b →
       AutomaticPlayer.is_it_within_bounds self (line_cell vertical fixed i) = true)
    (Hrec : ∀ i, a ≤ i ≤ b → i ≠ k →
       Some (line_cell vertical fixed i) ∈ AutomaticPlayer.successful_hits self)
    (Hiso : ∀ n i, a ≤ i ≤ b → within_one_step n (line_cell vertical fixed i) →
       Some n ∈ AutomaticPlayer.successful_hits self →
       ∃ j, n = line_cell vertical fixed j ∧ a ≤ j ≤ b) :
  (b - a + 1 ≤ Z.of_nat depth →
   ∃ q, AutomaticPlayer.receive_result depth self true true = Ok q) ∧
  ∀ q, AutomaticPlayer.receive_result depth self true true = Ok q →
    ∃ ship,
      AutomaticPlayer.sunken_ships q = AutomaticPlayer.sunken_ships self ++ [ship] ∧
      (∀ c, c ∈ Ship.cells ship ↔ ∃ j, a ≤ j ≤ b ∧ c = line_cell vertical fixed j) ∧
      Ship.length ship = b - a + 1.
Proof.
  set (p1 := AutomaticPlayer.with_successful_hits self
               (AutomaticPlayer.successful_hits self ++
                [Some (line_cell vertical fixed k)])).
  assert (Hcall :
    AutomaticPlayer.receive_result depth self true true =
    obind (AutomaticPlayer.find_start_and_end depth p1 (line_cell vertical fixed k))
      (λ ends,
         match ends with
         | (Some start, Some end_) =>
             obind (Ship.init start end_ true Infinity Infinity) (λ ship,
               Ok (AutomaticPlayer.with_sunken_ships p1
                     (AutomaticPlayer.sunken_ships p1 ++ [ship])))
         | _ => Raise TypeError
         end)).
  { unfold AutomaticPlayer.receive_result, p1. cbn [andb].
    cbn [AutomaticPlayer.with_successful_hits AutomaticPlayer.last_target].
    by rewrite Htarget. }
  assert (Hb1 : ∀ i, a ≤ i ≤ b →
            AutomaticPlayer.is_it_within_bounds p1 (line_cell vertical fixed i) = true)
    by exact Hbounds.
  assert (Hrec1 : ∀ i, a ≤ i ≤ b →
            Some (line_cell vertical fixed i) ∈ AutomaticPlayer.successful_hits p1).
  { intros i Hi. unfold p1. cbn [AutomaticPlayer.successful_hits
                                  AutomaticPlayer.with_successful_hits].
    apply elem_of_app.
    destruct (decide (i = k)) as [-> | Hne]; [right; by left | left; by apply Hrec]. }
  assert (Hiso1 : ∀ n i, a ≤ i ≤ b → within_one_step n (line_cell vertical fixed i) →
            Some n ∈ AutomaticPlayer.successful_hits p1 →
            ∃ j, n = line_cell vertical fixed j ∧ a ≤ j ≤ b).
  { intros n i Hi Hstep. unfold p1. cbn [AutomaticPlayer.successful_hits
                                        AutomaticPlayer.with_successful_hits].
    intros [Hn | [= ->]%list_elem_of_singleton]%elem_of_app; [by eapply Hiso |].
    by exists k. }
  rewrite Hcall. split.
  - intros Hd.
    destruct (find_start_and_end_returns p1 vertical fixed a b Hb1 Hrec1 Hiso1 depth k Hk Hd)
      as [ends Hends].
    rewrite Hends. cbn [obind].
    apply (find_start_and_end_segment p1 vertical fixed a b depth k ends
             Hb1 Hrec1 Hiso1 Hk) in Hends.
    subst ends. cbn iota beta.
    destruct (init_cases (line_cell vertical fixed a) (line_cell vertical fixed b)
                true Infinity Infinity) as [(Hx & Hy & _) | (_ & ship & ->)].
    + unfold line_cell in Hx, Hy. by destruct vertical.
    + cbn [obind]. eauto.
  - intros q Hrun.
    destruct (AutomaticPlayer.find_start_and_end depth p1 (line_cell vertical fixed k))
      as [ends | |] eqn:Hends; cbn [obind] in Hrun; try discriminate.
    apply (find_start_and_end_segment p1 vertical fixed a b depth k ends
             Hb1 Hrec1 Hiso1 Hk) in Hends.
    subst ends. cbn iota beta in Hrun.
    destruct (Ship.init (line_cell vertical fixed a) (line_cell vertical fixed b)
                true Infinity Infinity) as [ship | |] eqn:Hship;
      cbn [obind] in Hrun; try discriminate.
    injection Hrun as <-. exists ship. split; [done |].
    apply init_segment_cells in Hship; [exact Hship | lia].
Qed.

Lemma receive_result_records_run_witness :
  ∃ q ship,
    AutomaticPlayer.receive_result 10 sinking_player true true = Ok q ∧
    AutomaticPlayer.sunken_ships q = AutomaticPlayer.sunken_ships sinking_player ++ [ship] ∧
    Ship.length ship = 5 - 3 + 1.
Proof.
  destruct (receive_result_records_run 10 sinking_player true 3 3 5 5) as [Hret Hship].
  - reflexivity.
  - lia.
  - intros i Hi. assert (i = 3 ∨ i = 4 ∨ i = 5) as [-> | [-> | ->]] by lia; reflexivity.
  - intros i Hi Hne. assert (i = 3 ∨ i = 4) as [-> | ->] by lia;
      unfold sinking_player; simpl; set_solver.
  - intros n i _ _ Hn. unfold sinking_player in Hn. simpl in Hn.
    apply elem_of_cons in Hn as [[= ->] | Hn];
      [| apply list_elem_of_singleton in Hn as [= ->]];
      [exists 4 | exists 3]; split; (reflexivity || lia).
  - destruct Hret as [q Hrun]; [simpl; lia |].
    destruct (Hship q Hrun) as (ship & Hs & _ & Hl).
    exists q, ship. split; [exact Hrun |]. split; [exact Hs | exact Hl].
Defined.

Lemma receive_result_appends_witness :
  ∃ q, AutomaticPlayer.receive_result 10 sinking_player true false = Ok q ∧
       AutomaticPlayer.successful_hits q =
         AutomaticPlayer.successful_hits sinking_player ++
         [AutomaticPlayer.last_target sinking_player].
Proof.
  destruct (AutomaticPlayer.receive_result 10 sinking_player true false)
    as [q | e |] eqn:Hrun.
  - exists q. split; [reflexivity |].
    exact (proj1 (proj2 (proj2 (proj2 (proj2
             (receive_result_appends 10 sinking_player q true false Hrun)))))).
  - exfalso. vm_compute in Hrun. discriminate Hrun.
  - exfalso. vm_compute in Hrun. discriminate Hrun.
Defined.

(** X24: throughout a game no cell is recorded as a hit twice, every
    recorded hit is a cell that was attacked, the last target was
    attacked, and every recorded sunken ship is a straight segment. *)
Theorem game_memory_invariant (p : AutomaticPlayer.t)
    (Hreach : AutomaticPlayer.reachable p) :
  NoDup (AutomaticPlayer.successful_hits p) ∧
  (∀ o, o ∈ AutomaticPlayer.successful_hits p →
        ∃ c, o = Some c ∧ c ∈ AutomaticPlayer.tracker p) ∧
  (∀ c, AutomaticPlayer.last_target p = Some c → c ∈ AutomaticPlayer.tracker p) ∧
  (∀ s, s ∈ AutomaticPlayer.sunken_ships p → straight s).
Proof.
  pose proof (reachable_player_inv p Hreach) as (Hlast & _ & Hships).
  assert (Hhits : NoDup (AutomaticPlayer.successful_hits p) ∧
                  ∀ o, o ∈ AutomaticPlayer.successful_hits p →
                       ∃ c, o = Some c ∧ c ∈ AutomaticPlayer.tracker p).
  { clear Hlast Hships.
    induction Hreach as [w h | p q _ [Hnd Hsome] Hturn].
    - simpl. split; [apply NoDup_nil_2 |]. intros o Ho. by apply elem_of_nil in Ho.
    - destruct Hturn as [fuel depth depth' g g' target p1 hit sunk Hsel Hrec].
      pose proof Hsel as Hsel'.
      apply select_target_Ok in Hsel' as (hunt & hits & g1 & _ & Hdraw & ->).
      apply draw_target_Ok in Hdraw as (Hfresh & _).
      apply receive_result_fields in Hrec as (_ & _ & Htr & _ & Hh & _).
      simpl in Htr, Hh. rewrite Hh, Htr. destruct hit.
      + split.
        * apply NoDup_app. split; [done |]. split; [| apply NoDup_singleton].
          intros o Ho ->%list_elem_of_singleton.
          destruct (Hsome _ Ho) as (c & [= <-] & Hc). done.
        * intros o [Ho | ->%list_elem_of_singleton]%elem_of_app.
          -- destruct (Hsome o Ho) as (c & -> & Hc). exists c. split; [done |]. set_solver.
          -- exists target. split; [done |]. set_solver.
      + rewrite app_nil_r. split; [done |]. intros o Ho.
        destruct (Hsome o Ho) as (c & -> & Hc). exists c. split; [done |]. set_solver. }
  destruct Hhits as [Hnd Hsome]. split; [done |]. split; [done |]. split; [done |].
  intros s Hs. by apply Hships.
Qed.

Lemma game_memory_invariant_witness :
  ∃ p g, sample_game = Ok (p, g) ∧ NoDup (AutomaticPlayer.successful_hits p).
Proof.
  destruct sample_game_Ok as (p & g & Hgame). exists p, g. split; [exact Hgame |].
  exact (proj1 (game_memory_invariant p (sample_game_reachable p g Hgame))).
Defined.

End result_feedback.

(** * The open hits of a game *)

Section hunt_memory.

Lemma pop_index_NoDup {A} `{EqDecision A} (v : A) (l : list A) : ∀ l',
  NoDup l → pop_index v l = Ok l' → NoDup l' ∧ ∀ o, o ∈ l' ↔ o ∈ l ∧ o ≠ v.
Proof.
  induction l as [| y l IH]; intros l' Hnd; simpl; [done |].
  apply NoDup_cons in Hnd as [Hy Hnd].
  destruct (decide (y = v)) as [-> | Hne].
  - intros [= <-]. split; [done |]. intros o. rewrite elem_of_cons. split.
    + intros Ho. split; [by right |]. by intros ->.
    + by intros [[-> | Ho] Hov].
  - destruct (pop_index v l) as [l1 | |] eqn:Hpop; simpl; try discriminate.
    intros [= <-]. destruct (IH l1 Hnd eq_refl) as [Hnd1 Hel].
    split.
    + apply NoDup_cons. split; [| done]. rewrite Hel. tauto.
    + intros o. rewrite !elem_of_cons, Hel. split.
      * intros [-> | [Ho Hov]]; [split; [by left | done] | split; [by right | done]].
      * intros [[-> | Ho] Hov]; [by left | by right].
Qed.

Lemma pop_cells_NoDup (cs : list cell) : ∀ (l l' : list (option cell)),
  NoDup l →
  ofold (λ l c, pop_index (Some c) l) cs l = Ok l' →
  NoDup l' ∧ ∀ o, o ∈ l' ↔ o ∈ l ∧ ∀ c, c ∈ cs → o ≠ Some c.
Proof.
  induction cs as [| c cs IH]; intros l l' Hnd; cbn [ofold].
  - intros [= <-]. split; [done |]. intros o. split; [| tauto].
    intros Ho. split; [done |]. intros c Hc. by apply elem_of_nil in Hc.
  - destruct (pop_index (Some c) l) as [l1 | |] eqn:Hpop; cbn [obind]; try discriminate.
    intros Hrest. destruct (pop_index_NoDup _ _ _ Hnd Hpop) as [Hnd1 Hel1].
    destruct (IH l1 l' Hnd1 Hrest) as [Hnd' Hel]. split; [done |].
    intros o. rewrite Hel, Hel1. split.
    + intros [[Ho Hne] Hall]. split; [done |].
      intros c' [-> | Hc']%elem_of_cons; auto.
    + intros [Ho Hall]. split; [split; [done |] |].
      * apply Hall. by left.
      * intros c' Hc'. apply Hall. by right.
Qed.

Lemma pop_ships_NoDup (ships : list Ship.t) : ∀ (l l' : list (option cell)),
  NoDup l →
  ofold (λ l ship, ofold (λ l c, pop_index (Some c) l) (elements (Ship.cells ship)) l)
        ships l = Ok l' →
  NoDup l' ∧
  ∀ o, o ∈ l' ↔ o ∈ l ∧ ∀ s c, s ∈ ships → c ∈ Ship.cells s → o ≠ Some c.
Proof.
  induction ships as [| ship ships IH]; intros l l' Hnd; cbn [ofold].
  - intros [= <-]. split; [done |]. intros o. split; [| tauto].
    intros Ho. split; [done |]. intros s c Hs. by apply elem_of_nil in Hs.
  - destruct (ofold _ (elements (Ship.cells ship)) l) as [l1 | |] eqn:Hpop;
      cbn [obind]; try discriminate.
    intros Hrest. destruct (pop_cells_NoDup _ _ _ Hnd Hpop) as [Hnd1 Hel1].
    destruct (IH l1 l' Hnd1 Hrest) as [Hnd' Hel]. split; [done |].
    intros o. rewrite Hel, Hel1. split.
    + intros [[Ho Hne] Hall]. split; [done |].
      intros s c [-> | Hs]%elem_of_cons Hc; [| by eapply Hall].
      apply Hne. by apply elem_of_elements.
    + intros [Ho Hall]. split; [split; [done |] |].
      * intros c Hc. apply (Hall ship); [by left | by apply elem_of_elements].
      * intros s c Hs. apply Hall. by right.
Qed.

(** The open hits [is_there_a_hunt] computes from distinct recorded hits
    are distinct, and are the recorded hits that are a cell of no sunken
    ship. *)
Lemma open_hits_spec p l :
  NoDup (AutomaticPlayer.successful_hits p) →
  open_hits p = Ok l →
  NoDup l ∧
  ∀ o, o ∈ l ↔ o ∈ AutomaticPlayer.successful_hits p ∧
               ∀ s c, s ∈ AutomaticPlayer.sunken_ships p → c ∈ Ship.cells s → o ≠ Some c.
Proof.
  intros Hnd. unfold open_hits, AutomaticPlayer.is_there_a_hunt.
  destruct (if bool_decide _ then _ else _) as [l0 | |] eqn:Hl; simpl; try discriminate.
  intros [= <-]. revert Hl. case_bool_decide as Hlen.
  - by apply pop_ships_NoDup.
  - intros [= <-]. split; [done |]. intros o. split; [| tauto].
    intros Ho. split; [done |]. intros s c Hs.
    destruct (AutomaticPlayer.sunken_ships p); [by apply elem_of_nil in Hs |].
    simpl in Hlen. lia.
Qed.

Lemma open_hits_cells p l :
  hunt_inv p → open_hits p = Ok l →
  NoDup l ∧ ∀ o, o ∈ l ↔ ∃ c, o = Some c ∧ open_cell p c.
Proof.
  intros (Hnd & Hcells & _) Hopen.
  destruct (open_hits_spec p l Hnd Hopen) as [Hnd' Hel]. split; [done |].
  intros o. rewrite Hel. unfold open_cell. split.
  - intros [Ho Hall]. destruct (Hcells o Ho) as (c & -> & _). exists c.
    split; [done |]. split; [done |]. intros s Hs Hc. by apply (Hall s c).
  - intros (c & -> & Hc & Hall). split; [done |].
    intros s c' Hs Hc' [= ->]. by apply (Hall s).
Qed.

(** A cell [select_target] returns is not within one step of a cell of a
    recorded sunken ship. *)
Lemma target_far p fuel depth g c p' g' :
  player_inv p →
  AutomaticPlayer.select_target fuel depth p g = Ok ((c, p'), g') →
  ∀ s d, s ∈ AutomaticPlayer.sunken_ships p → d ∈ Ship.cells s → ¬ within_one_step c d.
Proof.
  intros (_ & _ & Hships) Hrun s d Hin Hd.
  destruct (Hships s Hin) as (Hst & Hbw & Hbh & Hfirst).
  apply select_target_Ok in Hrun as (hunt & hits & g1 & _ & Hdraw & _).
  apply draw_target_Ok in Hdraw as (Hfresh & Hbounds & Hclose & _).
  apply is_it_within_bounds_true in Hbounds.
  assert (Hsome : AutomaticPlayer.are_there_sunken_ships p = true).
  { unfold AutomaticPlayer.are_there_sunken_ships. apply bool_decide_eq_true.
    destruct (AutomaticPlayer.sunken_ships p); [by apply elem_of_nil in Hin | simpl; lia]. }
  pose proof (is_close_to_ship_false p c s (Hclose Hsome) Hin) as Hfar.
  assert (Hnone : ¬ ∃ d, d ∈ Ship.cells s ∧ adjacent c d).
  { intros Hex. apply not_true_iff_false in Hfar. apply Hfar.
    apply is_near_cell_exact; [| lia | lia | done].
    intros d' _. by rewrite Hbw, Hbh. }
  intros [-> | Hadj]%within_one_step_cases.
  - destruct (straight_cell_cases s d Hst Hd) as [-> | (d' & Hd' & Hadj)]; [done |].
    apply Hnone. by exists d'.
  - apply Hnone. by exists d.
Qed.

Lemma singleton_list {A} (l : list A) x :
  NoDup l → (∀ o, o ∈ l ↔ o = x) → l = [x].
Proof.
  intros Hnd Hel. destruct l as [| y [| z l]].
  - assert (Hx : x ∈ @nil A) by (by apply Hel). by apply elem_of_nil in Hx.
  - f_equal. apply Hel. by left.
  - assert (Hy : y = x) by (apply Hel; by left).
    assert (Hz : z = x) by (apply Hel; right; by left).
    subst. apply NoDup_cons in Hnd as [Hnd _]. exfalso. apply Hnd. by left.
Qed.

Lemma two_elements {A} (l : list A) x y :
  x ≠ y → x ∈ l → y ∈ l → (2 ≤ List.length l)%nat.
Proof.
  intros Hne Hx Hy. destruct l as [| a [| b l]]; simpl; [| | lia].
  - by apply elem_of_nil in Hx.
  - apply list_elem_of_singleton in Hx, Hy. congruence.
Qed.

Lemma line_cell_eq v f i j : line_cell v f i = line_cell v f j → i = j.
Proof. unfold line_cell. destruct v; by intros [= ?]. Qed.

(** Where the next target of a hunt lies: next to a single open hit, or
    just beyond one of the two ends of a longer segment of open hits. *)
Lemma hunt_target p fuel depth g t p' g' v f a b :
  hunt_inv p →
  AutomaticPlayer.select_target fuel depth p g = Ok ((t, p'), g') →
  (∀ c, open_cell p c ↔ on_segment v f a b c) → a ≤ b →
  (a = b → adjacent4 t (line_cell v f a)) ∧
  (a < b → t = line_cell v f (a - 1) ∨ t = line_cell v f (b + 1)).
Proof.
  intros Hinv Hsel Hseg Hab.
  pose proof Hsel as Hsel'.
  apply select_target_Ok in Hsel' as (hunt & hits & g1 & Hhunt & Hdraw & _).
  assert (Hopen : open_hits p = Ok hits) by (unfold open_hits; by rewrite Hhunt).
  destruct (open_hits_cells p hits Hinv Hopen) as [Hnd Hel].
  assert (Hmem : ∀ i, a ≤ i ≤ b → Some (line_cell v f i) ∈ hits).
  { intros i Hi. apply Hel. eexists. split; [done |]. apply Hseg. by exists i. }
  split.
  - intros <-.
    assert (Hone : hits = [Some (line_cell v f a)]).
    { apply singleton_list; [done |]. intros o. rewrite Hel. split.
      - intros (c & -> & (i & Hi & ->)%Hseg). f_equal. f_equal. lia.
      - intros ->. eexists. split; [done |]. apply Hseg. exists a. split; [lia | done]. }
    subst hits.
    rewrite (open_hits_hunt p _ Hopen) in Hhunt. injection Hhunt as <-.
    apply draw_target_Ok in Hdraw as (_ & _ & _ & Hh).
    destruct (Hh eq_refl) as (rc & g2 & g3 & Hcell).
    unfold AutomaticPlayer.hunting_cell in Hcell.
    rewrite bool_decide_eq_false_2 in Hcell by (simpl; lia).
    case_bool_decide as Hn; apply ret_Ok in Hcell as [[= <-] _].
    by apply hunt_neighbours_adjacent4 in Hn.
  - intros Hlt.
    destruct Hinv as (_ & Hcells & Hiso & _).
    apply (select_target_beyond_run p p' fuel depth g g' t hits v f a b Hopen);
      [| | exact Hsel].
    + split; [| split; [| split]].
      * apply (two_elements hits (Some (line_cell v f a)) (Some (line_cell v f b)));
          [| apply Hmem; lia..].
        intros [= Heq%line_cell_eq]. lia.
      * intros o (c & -> & (i & Hi & ->)%Hseg)%Hel. by exists i.
      * apply Hmem. lia.
      * apply Hmem. lia.
    + split; [done |]. split; [done |]. split.
      * intros i Hi.
        destruct (Hcells (Some (line_cell v f i))) as (c & [= <-] & Hb); [| done].
        eapply open_hits_recorded; [exact Hopen | by apply Hmem].
      * intros n i Hi Hstep Hn.
        assert (Hc : open_cell p (line_cell v f i)) by (apply Hseg; by exists i).
        destruct (proj1 (Hseg n) (Hiso _ n Hc Hn Hstep)) as (j & Hj & ->).
        by exists j.
Qed.

Lemma within_bounds_ext p q c :
  AutomaticPlayer.board_width q = AutomaticPlayer.board_width p →
  AutomaticPlayer.board_height q = AutomaticPlayer.board_height p →
  AutomaticPlayer.is_it_within_bounds q c = AutomaticPlayer.is_it_within_bounds p c.
Proof. unfold AutomaticPlayer.is_it_within_bounds. by intros -> ->. Qed.

(** The invariant reads the board size, the recorded hits and the sunken
    ships only. *)
Lemma hunt_inv_ext p q :
  AutomaticPlayer.board_width q = AutomaticPlayer.board_width p →
  AutomaticPlayer.board_height q = AutomaticPlayer.board_height p →
  AutomaticPlayer.successful_hits q = AutomaticPlayer.successful_hits p →
  AutomaticPlayer.sunken_ships q = AutomaticPlayer.sunken_ships p →
  hunt_inv p → hunt_inv q.
Proof.
  intros Hw Hh Hhits Hships. unfold hunt_inv, open_cell.
  rewrite Hhits, Hships. intros (Hnd & Hcells & Hiso & Hshape).
  split; [done |]. split; [| done].
  intros o Ho. destruct (Hcells o Ho) as (c & -> & Hb). exists c.
  split; [done |]. by rewrite (within_bounds_ext p q).
Qed.

Lemma within_one_step_sym c d : within_one_step c d → within_one_step d c.
Proof. unfold within_one_step. lia. Qed.

Lemma within_one_step_refl c : within_one_step c c.
Proof. unfold within_one_step. lia. Qed.

(** The segment of open hits after a hit next to it. *)
Lemma segment_grows v f a b t :
  a ≤ b →
  (a = b → adjacent4 t (line_cell v f a)) →
  (a < b → t = line_cell v f (a - 1) ∨ t = line_cell v f (b + 1)) →
  ∃ v' f' a' b', ∀ c, on_segment v f a b c ∨ c = t ↔ on_segment v' f' a' b' c.
Proof.
  intros Hab Hone Hmore. destruct (decide (a = b)) as [<- | Hne].
  - specialize (Hone eq_refl). clear Hmore Hab.
    unfold adjacent4, on_segment, line_cell in *. destruct t as [x y].
    destruct v; simpl in Hone.
    + destruct (decide (x = f)) as [-> | Hx].
      * exists true, f, (Z.min a y), (Z.max a y). intros [cx cy]. split.
        -- intros [(i & Hi & [= -> ->]) | [= -> ->]]; eexists; (split; [| done]); lia.
        -- intros (i & Hi & [= -> ->]).
           destruct (decide (i = a)) as [-> | Hia]; [left; exists a; split; [lia | done] |].
           right. f_equal. lia.
      * exists false, a, (Z.min f x), (Z.max f x). intros [cx cy]. split.
        -- intros [(i & Hi & [= -> ->]) | [= -> ->]]; eexists; (split; [| f_equal]); lia.
        -- intros (i & Hi & [= -> ->]).
           destruct (decide (i = f)) as [-> | Hif]; [left; exists a; split; [lia | done] |].
           right. f_equal; lia.
    + destruct (decide (y = f)) as [-> | Hy].
      * exists false, f, (Z.min a x), (Z.max a x). intros [cx cy]. split.
        -- intros [(i & Hi & [= -> ->]) | [= -> ->]]; eexists; (split; [| done]); lia.
        -- intros (i & Hi & [= -> ->]).
           destruct (decide (i = a)) as [-> | Hia]; [left; exists a; split; [lia | done] |].
           right. f_equal. lia.
      * exists true, a, (Z.min f y), (Z.max f y). intros [cx cy]. split.
        -- intros [(i & Hi & [= -> ->]) | [= -> ->]]; eexists; (split; [| f_equal]); lia.
        -- intros (i & Hi & [= -> ->]).
           destruct (decide (i = f)) as [-> | Hif]; [left; exists a; split; [lia | done] |].
           right. f_equal; lia.
  - destruct (Hmore ltac:(lia)) as [-> | ->].
    + exists v, f, (a - 1), b. intros c. unfold on_segment. split.
      * intros [(i & Hi & ->) | ->]; [exists i | exists (a - 1)]; (split; [lia | done]).
      * intros (i & Hi & ->).
        destruct (decide (i = a - 1)) as [-> | Hia]; [by right |].
        left. exists i. split; [lia | done].
    + exists v, f, a, (b + 1). intros c. unfold on_segment. split.
      * intros [(i & Hi & ->) | ->]; [exists i | exists (b + 1)]; (split; [lia | done]).
      * intros (i & Hi & ->).
        destruct (decide (i = b + 1)) as [-> | Hib]; [by right |].
        left. exists i. split; [lia | done].
Qed.

(** A hit is recorded: the invariant holds again and the hit is open. *)
Lemma hunt_inv_hit p q t :
  hunt_inv p →
  AutomaticPlayer.board_width q = AutomaticPlayer.board_width p →
  AutomaticPlayer.board_height q = AutomaticPlayer.board_height p →
  AutomaticPlayer.sunken_ships q = AutomaticPlayer.sunken_ships p →
  AutomaticPlayer.successful_hits q = AutomaticPlayer.successful_hits p ++ [Some t] →
  Some t ∉ AutomaticPlayer.successful_hits p →
  AutomaticPlayer.is_it_within_bounds p t = true →
  (∀ s d, s ∈ AutomaticPlayer.sunken_ships p → d ∈ Ship.cells s → ¬ within_one_step t d) →
  (∀ v f a b, (∀ c, open_cell p c ↔ on_segment v f a b c) → a ≤ b →
     (a = b → adjacent4 t (line_cell v f a)) ∧
     (a < b → t = line_cell v f (a - 1) ∨ t = line_cell v f (b + 1))) →
  hunt_inv q ∧ open_cell q t.
Proof.
  intros (Hnd & Hcells & Hiso & (v & f & a & b & Hseg)) Hw Hh Hships Hhits
         Hnew Hin Hfar Htarget.
  assert (Hopen : ∀ c, open_cell q c ↔ open_cell p c ∨ c = t).
  { intros c. unfold open_cell. rewrite Hhits, Hships, elem_of_app, list_elem_of_singleton.
    split.
    - intros [[Hc | [= ->]] Hall]; [left | right]; done.
    - intros [[Hc Hall] | ->]; [split; [by left | done] |].
      split; [by right |]. intros s Hs Hc. apply (Hfar s t Hs Hc), within_one_step_refl. }
  split; [| apply Hopen; by right].
  split; [| split; [| split]].
  - rewrite Hhits. apply NoDup_app. split; [done |]. split; [| apply NoDup_singleton].
    intros o Ho ->%list_elem_of_singleton. done.
  - intros o. rewrite Hhits.
    intros [Ho | ->%list_elem_of_singleton]%elem_of_app.
    + destruct (Hcells o Ho) as (c & -> & Hb). exists c. split; [done |].
      by rewrite (within_bounds_ext p q).
    + exists t. split; [done |]. by rewrite (within_bounds_ext p q).
  - intros c n Hc Hn Hstep. apply Hopen.
    rewrite Hhits in Hn. apply elem_of_app in Hn as [Hn | [= ->]%list_elem_of_singleton];
      [| by right].
    left. apply Hopen in Hc as [Hc | ->]; [by apply (Hiso c) |].
    split; [done |]. intros s Hs Hd.
    by apply (Hfar s n Hs Hd), within_one_step_sym.
  - destruct (decide (a ≤ b)) as [Hab | Hab].
    + destruct (Htarget v f a b Hseg Hab) as [Hone Hmore].
      destruct (segment_grows v f a b t Hab Hone Hmore) as (v' & f' & a' & b' & Hgrow).
      exists v', f', a', b'. intros c. rewrite Hopen, Hseg. apply Hgrow.
    + exists true, t.1, t.2, t.2. intros c. rewrite Hopen, Hseg. split.
      * intros [(i & Hi & _) | ->]; [lia |]. exists t.2. split; [lia |].
        by destruct t.
      * intros (i & Hi & ->). right. unfold line_cell. destruct t as [x y].
        simpl in *. f_equal. lia.
Qed.

(** The hypotheses of the flood fill lemmas, from the invariant. *)
Lemma hunt_inv_segment p v f a b :
  hunt_inv p → (∀ c, open_cell p c ↔ on_segment v f a b c) →
  (∀ i, a ≤ i ≤ b → AutomaticPlayer.is_it_within_bounds p (line_cell v f i) = true) ∧
  (∀ i, a ≤ i ≤ b → Some (line_cell v f i) ∈ AutomaticPlayer.successful_hits p) ∧
  (∀ n i, a ≤ i ≤ b → within_one_step n (line_cell v f i) →
     Some n ∈ AutomaticPlayer.successful_hits p →
     ∃ j, n = line_cell v f j ∧ a ≤ j ≤ b).
Proof.
  intros (_ & Hcells & Hiso & _) Hseg.
  assert (Hopen : ∀ i, a ≤ i ≤ b → open_cell p (line_cell v f i)).
  { intros i Hi. apply Hseg. by exists i. }
  split; [| split].
  - intros i Hi. destruct (Hopen i Hi) as [Hhit _].
    by destruct (Hcells _ Hhit) as (c & [= <-] & Hb).
  - intros i Hi. by destruct (Hopen i Hi).
  - intros n i Hi Hstep Hn.
    destruct (proj1 (Hseg n) (Hiso _ n (Hopen i Hi) Hn Hstep)) as (j & Hj & ->).
    by exists j.
Qed.

(** The hit sank a ship: the ship recorded occupies the open hits, and
    none is left. *)
Lemma hunt_inv_sunk p q t depth start end_ ship :
  hunt_inv p → open_cell p t →
  AutomaticPlayer.find_start_and_end depth p t = Ok (Some start, Some end_) →
  Ship.init start end_ true Infinity Infinity = Ok ship →
  AutomaticPlayer.board_width q = AutomaticPlayer.board_width p →
  AutomaticPlayer.board_height q = AutomaticPlayer.board_height p →
  AutomaticPlayer.successful_hits q = AutomaticPlayer.successful_hits p →
  AutomaticPlayer.sunken_ships q = AutomaticPlayer.sunken_ships p ++ [ship] →
  hunt_inv q ∧ (∀ c, ¬ open_cell q c) ∧ (∀ c, c ∈ Ship.cells ship ↔ open_cell p c).
Proof.
  intros Hinv Ht Hends Hship Hw Hh Hhits Hships.
  pose proof Hinv as (Hnd & Hcells & Hiso & (v & f & a & b & Hseg)).
  destruct (hunt_inv_segment p v f a b Hinv Hseg) as (Hb1 & Hrec1 & Hiso1).
  destruct (proj1 (Hseg t) Ht) as (k & Hk & ->).
  apply (find_start_and_end_segment p v f a b depth k _ Hb1 Hrec1 Hiso1 Hk) in Hends.
  injection Hends as -> ->.
  apply init_segment_cells in Hship as [Hcellsship _]; [| lia].
  assert (Hnone : ∀ c, ¬ open_cell q c).
  { intros c [Hc Hall]. rewrite Hhits in Hc. rewrite Hships in Hall.
    apply (Hall ship); [apply elem_of_app; right; by left |].
    apply Hcellsship, Hseg. split; [done |].
    intros s Hs. apply Hall. apply elem_of_app. by left. }
  split; [| split; [done |]].
  - split; [by rewrite Hhits |]. split; [| split].
    + intros o. rewrite Hhits. intros Ho. destruct (Hcells o Ho) as (c & -> & Hb).
      exists c. split; [done |]. by rewrite (within_bounds_ext p q).
    + intros c n Hc. by apply Hnone in Hc.
    + exists true, 0, 1, 0. intros c. split; [by intros ?%Hnone |].
      intros (i & Hi & _). lia.
  - intros c. by rewrite Hcellsship, Hseg.
Qed.

Lemma receive_result_cases depth p hit sunk q :
  AutomaticPlayer.receive_result depth p hit sunk = Ok q →
  (hit = false ∧ q = p) ∨
  (hit = true ∧ sunk = false ∧
   q = AutomaticPlayer.with_successful_hits p
         (AutomaticPlayer.successful_hits p ++ [AutomaticPlayer.last_target p])) ∨
  (hit = true ∧ sunk = true ∧
   ∃ target start end_ ship,
     AutomaticPlayer.last_target p = Some target ∧
     AutomaticPlayer.find_start_and_end depth
       (AutomaticPlayer.with_successful_hits p
          (AutomaticPlayer.successful_hits p ++ [Some target])) target =
       Ok (Some start, Some end_) ∧
     Ship.init start end_ true Infinity Infinity = Ok ship ∧
     q = AutomaticPlayer.with_sunken_ships
           (AutomaticPlayer.with_successful_hits p
              (AutomaticPlayer.successful_hits p ++ [Some target]))
           (AutomaticPlayer.sunken_ships p ++ [ship])).
Proof.
  unfold AutomaticPlayer.receive_result. destruct hit; [| intros [= <-]; by left].
  destruct sunk; [| intros [= <-]; right; by left].
  cbn [andb]. intros H. right. right. split; [done |]. split; [done |].
  cbn [AutomaticPlayer.with_successful_hits AutomaticPlayer.last_target] in H.
  destruct (AutomaticPlayer.last_target p) as [target |] eqn:Hlast; [| done].
  destruct (AutomaticPlayer.find_start_and_end depth _ target)
    as [[[start |] [end_ |]] | |] eqn:Hends; cbn [obind] in H; try discriminate.
  destruct (Ship.init start end_ true Infinity Infinity) as [ship | |] eqn:Hship;
    cbn [obind] in H; try discriminate.
  injection H as <-. exists target, start, end_, ship. done.
Qed.

Lemma turn_hunt_inv p q :
  player_inv p → hunt_inv p → AutomaticPlayer.turn p q → hunt_inv q.
Proof.
  intros Hp Hinv [fuel depth depth' g g' t p1 hit sunk Hsel Hrec].
  pose proof (target_far p fuel depth g t p1 g' Hp Hsel) as Hfar.
  assert (Htarget : ∀ v f a b, (∀ c, open_cell p c ↔ on_segment v f a b c) → a ≤ b →
            (a = b → adjacent4 t (line_cell v f a)) ∧
            (a < b → t = line_cell v f (a - 1) ∨ t = line_cell v f (b + 1))).
  { intros v f a b. by apply (hunt_target p fuel depth g t p1 g'). }
  pose proof Hsel as Hsel'.
  apply select_target_Ok in Hsel' as (hunt & hits & g1 & _ & Hdraw & ->).
  apply draw_target_Ok in Hdraw as (Hfresh & Hbounds & _).
  assert (Hnew : Some t ∉ AutomaticPlayer.successful_hits p).
  { intros Hhit. apply Hfresh. by apply Hp. }
  apply receive_result_cases in Hrec
    as [[-> ->] | [(-> & -> & ->) | (-> & -> & target & start & end_ & ship &
                                     Hlast & Hends & Hship & ->)]].
  - by apply (hunt_inv_ext p).
  - by apply (hunt_inv_hit p _ t).
  - injection Hlast as <-.
    set (q0 := AutomaticPlayer.with_successful_hits _ _) in *.
    destruct (hunt_inv_hit p q0 t) as [Hq0 Ht]; try done.
    by destruct (hunt_inv_sunk q0 (AutomaticPlayer.with_sunken_ships q0
                    (AutomaticPlayer.sunken_ships p ++ [ship])) t depth' start end_ ship).
Qed.

Lemma init_hunt_inv w h : hunt_inv (AutomaticPlayer.init w h).
Proof.
  assert (Hnone : ∀ c, ¬ open_cell (AutomaticPlayer.init w h) c).
  { intros c [Hc _]. by apply elem_of_nil in Hc. }
  split; [apply NoDup_nil_2 |]. split; [| split].
  - intros o Ho. by apply elem_of_nil in Ho.
  - intros c n Hc. by apply Hnone in Hc.
  - exists true, 0, 1, 0. intros c. split; [by intros ?%Hnone |].
    intros (i & Hi & _). lia.
Qed.

Lemma reachable_hunt_inv p : AutomaticPlayer.reachable p → hunt_inv p.
Proof.
  induction 1 as [w h | p q Hreach IH Hturn]; [apply init_hunt_inv |].
  apply (turn_hunt_inv p q); [by apply reachable_player_inv | done..].
Qed.

(** C4: in a game, whenever the memory holds two or more open hits, all
    on one line, the cell [select_target] returns is the cell just before
    the minimum or the cell just after the maximum of the open hits along
    the line. *)
Theorem select_target_beyond_extremities
    (self self' : AutomaticPlayer.t) (fuel depth : nat) (g g' : RNG) (c : cell)
    (hits : list (option cell)) (vertical : bool) (fixed a b : Z)
    (Hreach : AutomaticPlayer.reachable self)
    (Hopen : open_hits self = Ok hits)
    (Hline : hits_on_line hits vertical fixed a b)
    (Hsel : AutomaticPlayer.select_target fuel depth self g = Ok ((c, self'), g')) :
  c = line_cell vertical fixed (a - 1) ∨ c = line_cell vertical fixed (b + 1).
Proof.
  pose proof (reachable_hunt_inv self Hreach) as Hinv.
  pose proof Hinv as (_ & _ & _ & (v & f & lo & hi & Hseg)).
  destruct (open_hits_cells self hits Hinv Hopen) as [Hnd Hel].
  destruct Hline as (Hlen & Hon & Ha & Hb).
  assert (Hmem : ∀ x, Some x ∈ hits ↔ on_segment v f lo hi x).
  { intros x. rewrite Hel, <- Hseg. split; [by intros (? & [= <-] & ?) | eauto]. }
  assert (Hlt : lo < hi).
  { destruct hits as [| o1 [| o2 rest]]; [simpl in Hlen; lia.. |].
    destruct (Hon o1 ltac:(by left)) as (i1 & -> & _).
    destruct (Hon o2 ltac:(right; by left)) as (i2 & -> & _).
    destruct (proj1 (Hmem _) ltac:(by left)) as (j1 & Hj1 & E1).
    destruct (proj1 (Hmem (line_cell vertical fixed i2)) ltac:(right; by left))
      as (j2 & Hj2 & E2).
    destruct (decide (j1 = j2)) as [-> | Hne]; [| lia].
    rewrite <- E2 in E1. apply NoDup_cons in Hnd as [Hnd _].
    exfalso. apply Hnd. rewrite E1. by left. }
  assert (Hlo : Some (line_cell v f lo) ∈ hits) by (apply Hmem; exists lo; split; [lia | done]).
  assert (Hhi : Some (line_cell v f hi) ∈ hits) by (apply Hmem; exists hi; split; [lia | done]).
  destruct (Hon _ Hlo) as (ilo & [= Elo] & Hilo).
  destruct (Hon _ Hhi) as (ihi & [= Ehi] & Hihi).
  apply Hmem in Ha as (ja & Hja & Ea), Hb as (jb & Hjb & Eb).
  assert (Hsame : vertical = v ∧ fixed = f ∧ a = lo ∧ b = hi).
  { unfold line_cell in *. destruct vertical, v; simplify_eq; lia. }
  destruct Hsame as (-> & -> & -> & ->).
  destruct (hunt_target self fuel depth g c self' g' v f lo hi Hinv Hsel Hseg ltac:(lia))
    as [_ Hmore].
  by apply Hmore.
Qed.

End hunt_memory.

Lemma two_hit_game_Ok : ∃ p g, two_hit_game = Ok (p, g).
Proof.
  destruct two_hit_game as [[p g] | e |] eqn:Hgame; [by exists p, g | |];
    exfalso; vm_compute in Hgame; discriminate Hgame.
Qed.

Lemma two_hit_game_reachable p g :
  two_hit_game = Ok (p, g) → AutomaticPlayer.reachable p.
Proof.
  unfold two_hit_game.
  intros (p1 & g1 & H1 & Ht2)%after_attack_turn.
  apply after_attack_turn in H1 as (p0 & g0 & [= <- <-] & Ht1).
  do 2 (eapply AutomaticPlayer.reachable_turn; [| eassumption]).
  apply AutomaticPlayer.reachable_init.
Qed.

Lemma two_hit_game_open p g :
  two_hit_game = Ok (p, g) → open_hits p = Ok [Some (1, 10); Some (1, 9)].
Proof.
  intros Hgame.
  assert (Hx : obind two_hit_game (λ '(p, _), open_hits p) =
               Ok [Some (1, 10); Some (1, 9)]) by (vm_compute; reflexivity).
  by rewrite Hgame in Hx.
Qed.

Lemma two_hit_game_next p g :
  two_hit_game = Ok (p, g) →
  ∃ c q' g', AutomaticPlayer.select_target 500 50 p g = Ok ((c, q'), g').
Proof.
  intros Hgame.
  assert (Hx : ∃ r, obind two_hit_game
                      (λ '(p, g), AutomaticPlayer.select_target 500 50 p g) = Ok r)
    by (eexists; vm_compute; reflexivity).
  destruct Hx as ([[c q'] g'] & Hx). rewrite Hgame in Hx. cbn [obind] in Hx.
  by exists c, q', g'.
Qed.

Lemma select_target_beyond_extremities_witness :
  ∃ p g c q' g',
    two_hit_game = Ok (p, g) ∧
    open_hits p = Ok [Some (1, 10); Some (1, 9)] ∧
    AutomaticPlayer.select_target 500 50 p g = Ok ((c, q'), g') ∧
    (c = line_cell true 1 (9 - 1) ∨ c = line_cell true 1 (10 + 1)).
Proof.
  destruct two_hit_game_Ok as (p & g & Hgame).
  pose proof (two_hit_game_open p g Hgame) as Hopen.
  destruct (two_hit_game_next p g Hgame) as (c & q' & g' & Hsel).
  exists p, g, c, q', g'.
  split; [exact Hgame |]. split; [exact Hopen |]. split; [exact Hsel |].
  exact (select_target_beyond_extremities p q' 500 50 g g' c
           [Some (1, 10); Some (1, 9)] true 1 9 10
           (two_hit_game_reachable p g Hgame) Hopen two_hits_on_line Hsel).
Defined.

Section more_edges.

(** X25: any cell of the board that was not attacked can be the next
    target of a random player: on a suitable tape [select_target] returns
    it at the first draw. *)
Theorem random_select_target_reaches (self : RandomPlayer.t) (c : cell) (fuel : nat)
    (Hx : 1 ≤ c.1 ≤ RandomPlayer.board_width self)
    (Hy : 1 ≤ c.2 ≤ RandomPlayer.board_height self)
    (Hfresh : c ∉ RandomPlayer.tracker self) :
  ∃ self' g',
    RandomPlayer.select_target (S fuel) self (mkRNG (tape_for c) 0) = Ok ((c, self'), g').
Proof.
  unfold RandomPlayer.select_target. cbn [RandomPlayer.generate_random_target].
  unfold RandomPlayer.get_random_coordinates, bind, randint, ret, advance.
  cbn [tape pos tape_for].
  destruct (Z.ltb_spec (RandomPlayer.board_width self) 1); [lia |].
  cbn [tape pos tape_for].
  destruct (Z.ltb_spec (RandomPlayer.board_height self) 1); [lia |].
  rewrite !Z.mod_small by lia.
  replace (1 + (c.1 - 1), 1 + (c.2 - 1)) with c by (destruct c; simpl; f_equal; lia).
  rewrite bool_decide_eq_false_2 by done. eauto.
Qed.

Lemma random_select_target_reaches_witness :
  ∃ self' g',
    RandomPlayer.select_target 1 (RandomPlayer.init 10 10) (mkRNG (tape_for (4, 7)) 0) =
    Ok (((4, 7), self'), g').
Proof.
  apply (random_select_target_reaches (RandomPlayer.init 10 10) (4, 7) 0).
  - simpl. lia.
  - simpl. lia.
  - simpl. set_solver.
Defined.

Lemma ofold_skip {A B} (f : B → A → outcome B) (l : list A) (b : B) :
  (∀ acc a, a ∈ l → f acc a = Ok acc) → ofold f l b = Ok b.
Proof.
  induction l as [| a l IH]; intros Hf; [done |].
  cbn [ofold]. rewrite Hf by (by left). cbn [obind]. apply IH.
  intros acc a' Ha'. apply Hf. by right.
Qed.

Lemma choice_two {A} (x y : A) g : ∃ t, choice [x; y] g = Ok (t, advance g).
Proof.
  unfold choice. cbn [List.length].
  pose proof (Z.mod_pos_bound (tape g (pos g)) (Z.of_nat 2) ltac:(lia)) as Hm.
  destruct (Z.to_nat (tape g (pos g) `mod` Z.of_nat 2)) as [| [| n]] eqn:Hn;
    cbn; eauto.
  lia.
Qed.

(** X26: when no neighbour of the first open hit is a recorded hit,
    [get_better_target] takes the hit for a one-cell vertical ship,
    whatever the other open hits are: [find_start_and_end] returns the
    hit as both ends, and [get_better_target] returns, with the cell
    above the hit or the cell below it. *)
Theorem get_better_target_lone_hit
    (self : AutomaticPlayer.t) (hit : cell) (others : list (option cell))
    (Hlone : ∀ n, n ∈ AutomaticPlayer.get_neighbours self hit false →
                  Some n ∉ AutomaticPlayer.successful_hits self) :
  (∀ depth,
     AutomaticPlayer.find_start_and_end (S depth) self hit = Ok (Some hit, Some hit)) ∧
  (∀ depth g, ∃ target g',
     AutomaticPlayer.get_better_target (S depth) self (Some hit :: others) g =
     Ok (target, g')) ∧
  (∀ depth g target g',
     AutomaticPlayer.get_better_target depth self (Some hit :: others) g =
     Ok (target, g') →
     AutomaticPlayer.find_start_and_end depth self hit = Ok (Some hit, Some hit) ∧
     (target = (hit.1, hit.2 - 1) ∨ target = (hit.1, hit.2 + 1))).
Proof.
  assert (Hfind : ∀ depth,
            AutomaticPlayer.find_start_and_end (S depth) self hit =
            Ok (Some hit, Some hit)).
  { intros depth. unfold AutomaticPlayer.find_start_and_end.
    cbn [AutomaticPlayer.get_all_cells].
    rewrite ofold_skip; [done |].
    intros acc n Hn. rewrite (bool_decide_eq_false_2 _ (Hlone n Hn)). done. }
  split; [exact Hfind |]. split.
  - intros depth g. unfold AutomaticPlayer.get_better_target, bind, lift.
    rewrite Hfind. cbv iota beta. rewrite bool_decide_eq_true_2 by done.
    destruct (choice_two (hit.1, hit.2 - 1) (hit.1, hit.2 + 1) g) as [t Ht].
    exists t, (advance g). exact Ht.
  - intros depth g target g' Hrun.
    unfold AutomaticPlayer.get_better_target in Hrun.
    apply bind_Ok in Hrun as (ends & g1 & Hends & Hchoice).
    apply lift_Ok in Hends as [Hends ->].
    destruct depth as [| depth]; [discriminate Hends |].
    split; [apply Hfind |]. rewrite Hfind in Hends. injection Hends as <-.
    cbv iota beta in Hchoice. rewrite bool_decide_eq_true_2 in Hchoice by done.
    apply choice_Ok in Hchoice.
    apply elem_of_cons in Hchoice as [-> | ->%list_elem_of_singleton]; auto.
Qed.

Lemma get_better_target_lone_hit_witness :
  ∃ target g',
    AutomaticPlayer.get_better_target 10 gap_player [Some (1, 1); Some (5, 1)]
                                      (mkRNG sample_tape 0) = Ok (target, g') ∧
    (target = ((1, 1).1, (1, 1).2 - 1) ∨ target = ((1, 1).1, (1, 1).2 + 1)).
Proof.
  assert (Hlone : ∀ n, n ∈ AutomaticPlayer.get_neighbours gap_player (1, 1) false →
                       Some n ∉ AutomaticPlayer.successful_hits gap_player).
  { apply Forall_forall.
    assert (Hnb : AutomaticPlayer.get_neighbours gap_player (1, 1) false =
                   [(2, 1); (1, 2); (2, 2); (0, 2)])
      by (vm_compute; reflexivity).
    rewrite Hnb. unfold gap_player. cbn [AutomaticPlayer.successful_hits].
    repeat constructor; intros Hhit; rewrite !elem_of_cons, elem_of_nil in Hhit;
      destruct Hhit as [[= ] | [[= ] | []]]. }
  destruct (get_better_target_lone_hit gap_player (1, 1) [Some (5, 1)] Hlone)
    as (_ & Hret & Hcell).
  destruct (Hret 9%nat (mkRNG sample_tape 0)) as (target & g' & Hrun).
  exists target, g'. split; [exact Hrun |].
  exact (proj2 (Hcell 10%nat (mkRNG sample_tape 0) target g' Hrun)).
Defined.

End more_edges.

Section generation_errors.

Variable self : ShipFactory.t.

Lemma randint_Raise a b g e : randint a b g = Raise e → e = ValueError.
Proof. unfold randint. destruct (b <? a); [by intros [= <-] | done]. Qed.

Lemma bind_Raise {A B} (m : R A) (k : A → R B) g e :
  bind m k g = Raise e → m g = Raise e ∨ ∃ a g1, m g = Ok (a, g1) ∧ k a g1 = Raise e.
Proof.
  unfold bind. destruct (m g) as [[a g1] | e' |]; try discriminate.
  - right. eauto.
  - intros [= ->]. by left.
Qed.

Lemma generate_random_coordinates_Raise dimension g e :
  ShipFactory.generate_random_coordinates self dimension g = Raise e → e = ValueError.
Proof.
  unfold ShipFactory.generate_random_coordinates.
  intros [Hr | (v & g1 & _ & Hrest)]%bind_Raise; [by eapply randint_Raise |].
  destruct (negb _).
  - apply bind_Raise in Hrest as [Hr | (x & g2 & _ & Hrest)]; [by eapply randint_Raise |].
    apply bind_Raise in Hrest as [Hr | (y & g3 & _ & Hrest)]; [by eapply randint_Raise |].
    discriminate.
  - apply bind_Raise in Hrest as [Hr | (x & g2 & _ & Hrest)]; [by eapply randint_Raise |].
    apply bind_Raise in Hrest as [Hr | (y & g3 & _ & Hrest)]; [by eapply randint_Raise |].
    discriminate.
Qed.

Variable P : exn → Prop.
Hypothesis Hvalue : P ValueError.

Lemma place_ship_Raise restart rounds : ∀ ships len st n g e,
  (∀ g e, restart g = Raise e → P e) →
  ShipFactory.place_ship rounds self restart ships len st n g = Raise e →
  P e.
Proof.
  induction rounds as [| rounds IH]; intros ships len st n g e Hre;
    rewrite place_ship_unfold;
    destruct (ShipFactory.check_coordinates self ships st); try done.
  intros [Hr | ([start end_] & g1 & _ & Hrest)]%bind_Raise.
  { apply generate_random_coordinates_Raise in Hr as ->. exact Hvalue. }
  apply bind_Raise in Hrest as [Hr | (s & g2 & _ & Hrest)].
  - unfold lift in Hr.
    destruct (init_cases start end_ true (Finite (ShipFactory.board_size self).1)
                (Finite (ShipFactory.board_size self).2))
      as [(_ & _ & Hi) | (_ & s & Hi)]; rewrite Hi in Hr; [| done].
    injection Hr as <-. exact Hvalue.
  - cbv zeta in Hrest. destruct (_ <? _).
    + apply bind_Raise in Hrest as [Hr | (fl & g3 & _ & Hrest)]; [by eapply Hre | done].
    + by eapply IH.
Qed.

Lemma for_ship_nb_Raise restart count : ∀ len ships st g e,
  (∀ g e, restart g = Raise e → P e) →
  ShipFactory.for_ship_nb count self restart len ships st g = Raise e →
  P e.
Proof.
  induction count as [| count IH]; intros len ships st g e Hre; [done |].
  cbn [ShipFactory.for_ship_nb].
  intros [Hr | (r & g1 & Hplace & Hrest)]%bind_Raise; [by eapply place_ship_Raise |].
  apply place_ship_Ok in Hplace; [| rewrite max_iterations_eq; lia].
  destruct r as [[st1 n1] | fleet]; [| done].
  destruct Hplace as ((s & -> & _) & _). by eapply IH.
Qed.

Lemma for_items_Raise restart items : ∀ ships st g e,
  (∀ g e, restart g = Raise e → P e) →
  ShipFactory.for_items items self restart ships st g = Raise e →
  P e.
Proof.
  induction items as [| [len n] items IH]; intros ships st g e Hre; [done |].
  cbn [ShipFactory.for_items].
  intros [Hr | (r & g1 & _ & Hrest)]%bind_Raise; [by eapply for_ship_nb_Raise |].
  destruct r as [[ships1 st1] | fleet]; [by eapply IH | done].
Qed.

End generation_errors.

Section generation_ends.

Variable self : ShipFactory.t.

(** X27: the only exceptions [generate_ships] raises are [ValueError],
    which comes from a random draw over an empty range, and
    [RecursionError], from a restart nested deeper than the recursion
    limit allows. *)
Theorem generate_ships_raises (fuel : nat) (g : RNG) (e : exn)
    (Hrun : ShipFactory.generate_ships fuel self g = Raise e) :
  e = ValueError ∨ e = RecursionError.
Proof.
  revert g e Hrun. induction fuel as [| fuel IH]; intros g e.
  { intros [= <-]. by right. }
  cbn [ShipFactory.generate_ships].
  intros [Hr | (r & g1 & _ & Hrest)]%bind_Raise.
  - eapply (for_items_Raise self (λ e, e = ValueError ∨ e = RecursionError));
      [by left | | exact Hr]. exact IH.
  - by destruct r as [[ships st] | fleet].
Qed.

Lemma generate_ships_feasible fuel g fleet g' :
  NoDup (ShipFactory.ships_per_length self).*1 →
  (∀ len n, (len, n) ∈ ShipFactory.ships_per_length self → 0 ≤ n ∧ (0 < n → 1 ≤ len)) →
  ShipFactory.generate_ships fuel self g = Ok (fleet, g') →
  feasible self.
Proof.
  intros Hdict Hlen Hrun.
  apply generate_ships_Ok in Hrun as [[Hpl Hlegal] Hlens].
  2:{ intros len n Hin. by apply Hlen. }
  exists fleet. split; [| split; [done |]].
  - intros s Hs. by apply Hpl.
  - intros len n Hin. rewrite (count_length_fmap self), Hlens.
    rewrite (count_requested self len n) by done.
    destruct (Hlen len n Hin). lia.
Qed.

(** X28: for a request that no legal layout satisfies, whose lengths are
    distinct and fit the board and whose counts are not negative,
    [generate_ships] never returns a fleet: whatever the recursion limit
    and whatever is drawn, the call ends in [RecursionError], as every
    run restarts until the limit is exceeded. *)
Theorem generate_ships_infeasible (fuel : nat) (g : RNG)
    (Hdict : NoDup (ShipFactory.ships_per_length self).*1)
    (Hfit : ∀ len n, (len, n) ∈ ShipFactory.ships_per_length self →
                     0 ≤ n ∧ (0 < n → 1 ≤ len ≤ (ShipFactory.board_size self).1 ∧
                                      len ≤ (ShipFactory.board_size self).2))
    (Hnone : ¬ feasible self) :
  ShipFactory.generate_ships fuel self g = Raise RecursionError.
Proof.
  revert g. induction fuel as [| fuel IH]; intros g; [done |].
  destruct (generate_ships_total self fuel g)
    as [(fleet & st & g' & _ & Hrun) | (g1 & _ & _ & ->)]; [| | by apply IH].
  - intros len n Hin. by apply (Hfit len n).
  - exfalso. apply Hnone. eapply generate_ships_feasible; [done | | exact Hrun].
    intros len n Hin. destruct (Hfit len n Hin) as [Hn Hl]. split; [done |].
    intros Hpos. destruct (Hl Hpos). lia.
Qed.

End generation_ends.

Lemma generate_ships_raises_witness :
  ShipFactory.generate_ships 2 (ShipFactory.init (10, 10) (Some [(11, 1)]))
                             (mkRNG sample_tape 0) = Raise ValueError.
Proof.
  destruct (ShipFactory.generate_ships 2 (ShipFactory.init (10, 10) (Some [(11, 1)]))
              (mkRNG sample_tape 0)) as [[fleet g'] | e |] eqn:Hrun.
  - exfalso. vm_compute in Hrun. discriminate Hrun.
  - destruct (generate_ships_raises
                (ShipFactory.init (10, 10) (Some [(11, 1)])) 2 (mkRNG sample_tape 0) e Hrun)
      as [-> | ->]; [reflexivity |].
    exfalso. vm_compute in Hrun. discriminate Hrun.
  - exfalso. vm_compute in Hrun. discriminate Hrun.
Defined.

Lemma filter_two {A} (P : A → Prop) `{∀ x, Decision (P x)} (l : list A) x y rest :
  filter P l = x :: y :: rest →
  ∃ i j : nat, i ≠ j ∧ l !! i = Some x ∧ l !! j = Some y.
Proof.
  revert x y rest. induction l as [| a l IH]; intros x y rest; [done |].
  rewrite filter_cons. destruct (decide (P a)) as [Ha | Ha].
  - intros [= -> Hrest].
    assert (Hy : y ∈ filter P l) by (rewrite Hrest; by left).
    apply list_elem_of_filter in Hy as [_ Hy].
    apply list_elem_of_lookup in Hy as [j Hj].
    exists 0%nat, (S j). by repeat split.
  - intros Hf. destruct (IH _ _ _ Hf) as (i & j & Hne & Hi & Hj).
    exists (S i), (S j). split; [lia | done].
Qed.

Lemma crowded_infeasible : ¬ feasible crowded_factory.
Proof.
  intros (layout & Hst & [Hin Hpair] & Hcount).
  specialize (Hcount 1 2 ltac:(by left)). unfold count_length in Hcount.
  destruct (filter (λ s, Ship.length s = 1) layout) as [| x [| y rest]] eqn:Hf;
    [simpl in Hcount; lia.. |].
  destruct (filter_two _ _ _ _ _ Hf) as (i & j & Hne & Hi & Hj).
  assert (Hx : x ∈ layout) by (by eapply list_elem_of_lookup_2).
  assert (Hy : y ∈ layout) by (by eapply list_elem_of_lookup_2).
  destruct (Hpair i j x y Hne Hi Hj) as [Hover _]. apply Hover.
  pose proof (straight_start_cell x (Hst x Hx)) as Hcx.
  pose proof (straight_start_cell y (Hst y Hy)) as Hcy.
  pose proof (Hin x Hx _ Hcx) as Hbx. pose proof (Hin y Hy _ Hcy) as Hby.
  simpl in Hbx, Hby. exists (1, 1). split.
  - replace (1, 1) with (Ship.x_start x, Ship.y_start x); [done |]. f_equal; lia.
  - replace (1, 1) with (Ship.x_start y, Ship.y_start y); [done |]. f_equal; lia.
Qed.

Lemma generate_ships_infeasible_witness :
  ShipFactory.generate_ships 3 crowded_factory (mkRNG sample_tape 0) =
  Raise RecursionError.
Proof.
  apply (generate_ships_infeasible crowded_factory 3 (mkRNG sample_tape 0)).
  - apply NoDup_singleton.
  - intros len n Hin. apply list_elem_of_singleton in Hin as [= -> ->].
    simpl. lia.
  - exact crowded_infeasible.
Defined.
